(** * BasicFileMonitorService: the bridge between a blocking file watch
      backend and an asynchronous host event loop.

    Shallow embedding of [include/filemonitor/BasicFileMonitorService.h].
    The service is a class template over [FileMonitorImplementation]; the
    backend, the event type and the filesystem queries of boost::filesystem
    are therefore interfaces here, and the service's member functions are
    computations in a small state/exception monad over a [World] that holds
    the shared objects (the [shared_ptr]/[weak_ptr] store), the two
    [io_service] queues and the worker thread. *)

From Stdlib Require Import ZArith Lia Ascii String.
From stdpp Require Import base tactics option list strings gmap.

Local Open Scope Z_scope.

(** ** Values that cross the interface *)

(** [uint64_t]: the service only passes watch handles through. *)
Definition uint64 : Type := Z.

(** [boost::system::error_code], as far as the service and its callers
    look at it: default constructed (success), [operation_aborted], or any
    other value a backend stores into it. *)
Inductive error_code : Type :=
| ec_success
| operation_aborted
| ec_other (value : Z).

#[global] Instance error_code_eq_dec : EqDecision error_code.
Proof. solve_decision. Defined.

(** A [std::string] read through [c_str()]: a C string ends at its first
    NUL character, whatever the [std::string] holds behind it. *)
Fixpoint c_str (s : string) : string :=
  match s with
  | EmptyString => EmptyString
  | String a s' =>
      if Ascii.eqb a "000"%char then EmptyString else String a (c_str s')
  end.

(** A string without a NUL character in it. *)
Definition no_nul (s : string) : Prop := c_str s = s.

(** C++ exceptions that leave a member function of the service, each with
    the [std::string] it was built from. The two [throw] statements of the
    service both build a [std::invalid_argument];
    [boost_filesystem_error] is what the throwing overloads of the
    filesystem queries raise; [assertion_failed] is [BOOST_ASSERT(px != 0)]
    of [shared_ptr::operator->], after which the program does not go on. *)
Inductive exn : Type :=
| std_invalid_argument (msg : string)
| boost_filesystem_error (msg : string)
| assertion_failed (msg : string).

#[global] Instance exn_eq_dec : EqDecision exn.
Proof. solve_decision. Defined.

(** The result of a filesystem query in its throwing overload: a value,
    or the text of the [boost::filesystem::filesystem_error] it throws. *)
Inductive result (A : Type) : Type :=
| Ok (a : A)
| Err (what : string).
Arguments Ok {A} a.
Arguments Err {A} what.

(** ** boost::filesystem, as the service uses it *)

(** The four queries the service calls, in their throwing overloads, and
    the two operations on [boost::filesystem::path] it needs:
    [path.string()] and [operator!=]. A query answers [Ok true] or
    [Ok false], or throws: [status] reports a missing entry as "not
    found" (the tests then answer [Ok false]) and throws for every other
    failure of [stat(2)], such as a loop of symbolic links. *)
Class Filesystem (path : Type) : Type := {
  path_string : path -> string;
  path_ne : path -> path -> bool;
  is_directory : path -> result bool;
  is_regular_file : path -> result bool;
  is_symlink : path -> result bool;
  read_symlink : path -> result path
}.

(** ** The backend: the template parameter [FileMonitorImplementation] *)

(** [impl_popFrontEvent] is the blocking pop: [None] says the call does not
    return in this state of the backend (it waits for an event or for
    [destroy]); [Some (ec, ev, b')] is the event returned, the error code
    stored through the reference parameter, and the backend afterwards. *)
Class FileMonitorImplementation (path : Type) : Type := {
  FileMonitorEvent : Type;
  FileMonitorEvent_ctor : FileMonitorEvent;
  impl_t : Type;
  impl_ctor : impl_t;
  impl_destroy : impl_t -> impl_t;
  impl_addPath : path -> string -> impl_t -> uint64 * impl_t;
  impl_addFile : path -> impl_t -> uint64 * impl_t;
  impl_remove : uint64 -> impl_t -> impl_t;
  impl_popFrontEvent : impl_t -> option (error_code * FileMonitorEvent * impl_t)
}.

(** ** The texts of the two exceptions *)

Definition dquote : string := String "034"%char EmptyString.

Definition what_prefix : string :=
  "boost::asio::BasicFileMonitorService::addFile: " +:+ dquote.

Definition what_not_valid : string :=
  dquote +:+ " is not a valid file or directory entry".

Definition what_symlink : string :=
  dquote +:+ " this path is a symlink and must be resolved".

(** The spec's [InvalidPath]: the exception of the first [throw] of
    [addPath] and of [addFile]. *)
Definition InvalidPath (s : string) : exn :=
  std_invalid_argument (what_prefix +:+ s +:+ what_not_valid).

(** The spec's [UnresolvedSymlink]: the exception of the second [throw] of
    [addFile]. *)
Definition UnresolvedSymlink (s : string) : exn :=
  std_invalid_argument (what_prefix +:+ s +:+ what_symlink).

(** The class a [catch] clause selects on. *)
Inductive exn_class : Type := cls_invalid_argument | cls_filesystem_error | cls_assertion.

Definition class_of (e : exn) : exn_class :=
  match e with
  | std_invalid_argument _ => cls_invalid_argument
  | boost_filesystem_error _ => cls_filesystem_error
  | assertion_failed _ => cls_assertion
  end.

(** The string the exception was built from. *)
Definition message (e : exn) : string :=
  match e with
  | std_invalid_argument s | boost_filesystem_error s | assertion_failed s => s
  end.

(** [what()]: a [const char*] into that string, so what a caller reads ends
    at the first NUL character of the message. *)
Definition what (e : exn) : string := c_str (message e).

(** [BOOST_ASSERT] has failed: the exception that stands for the end of
    the program. *)
Definition is_assertion (e : exn) : bool :=
  match e with
  | assertion_failed _ => true
  | _ => false
  end.

(** ** The shared store, the event loops and the worker thread *)

(** A location of the store names one object created by [new]. *)
Definition loc : Type := nat.

(** [boost::shared_ptr] and [boost::weak_ptr] to the backend: empty, or
    the location of the object and its control block. *)
Definition shared_ptr : Type := option loc.
Definition weak_ptr : Type := option loc.

(** What the member functions ask of a backend object. *)
Inductive call (path : Type) : Type :=
| call_destroy
| call_addPath (p : path) (regexMatch : string)
| call_addFile (p : path)
| call_remove (id : uint64)
| call_popFrontEvent.
Arguments call_destroy {path}.
Arguments call_addPath {path} p regexMatch.
Arguments call_addFile {path} p.
Arguments call_remove {path} id.
Arguments call_popFrontEvent {path}.

(** The effects on shared objects, in the order in which they happen:
    [eff_new] is [new FileMonitorImplementation()], [eff_call] a member
    call on the backend that has returned, [eff_lock] a successful
    [weak_ptr::lock], [eff_release] a strong owner letting go, and
    [eff_delete] the deletion of the object by its last owner. *)
Inductive effect (path : Type) : Type :=
| eff_new (l : loc)
| eff_call (l : loc) (c : call path)
| eff_lock (l : loc)
| eff_release (l : loc)
| eff_delete (l : loc).
Arguments eff_new {path} l.
Arguments eff_call {path} l c.
Arguments eff_lock {path} l.
Arguments eff_release {path} l.
Arguments eff_delete {path} l.

(** [boost::asio::io_service], as a queue of posted function objects and
    the flag [stop()] sets. *)
Record io_service (T : Type) : Type := mk_io_service {
  ios_queue : list T;
  ios_stopped : bool
}.
Arguments mk_io_service {T} ios_queue ios_stopped.
Arguments ios_queue {T} i.
Arguments ios_stopped {T} i.

Definition ios_post {T : Type} (f : T) (i : io_service T) : io_service T :=
  mk_io_service (ios_queue i ++ [f]) (ios_stopped i).

Definition ios_stop {T : Type} (i : io_service T) : io_service T :=
  mk_io_service (ios_queue i) true.

Section Service.
Context {path : Type} `{FS : Filesystem path}.
Context `{Impl : FileMonitorImplementation path}.
Context {Handler : Type}.

(** The backend object behind a control block; the object is alive while
    [use_count] is positive. The block itself stays (weak observers may
    still look at it), so a location is never handed out twice. *)
Record cell : Type := mk_cell {
  obj : impl_t;
  use_count : nat
}.

(** [boost::asio::detail::bind_handler( mHandler, ec, ev )]. *)
Record completion : Type := bind_handler {
  c_handler : Handler;
  c_ec : error_code;
  c_ev : FileMonitorEvent
}.

(** [MonitorOperation<Handler>]: the weak observation of the backend and
    the caller's handler. [mIoService] is the host loop of the [World];
    [mWork], the keep-alive token on it, has no effect on what is posted
    and is left out. *)
Record MonitorOperation : Type := mk_MonitorOperation {
  mImpl : weak_ptr;
  mHandler : Handler
}.

(** The worker thread, which runs [io_service::run] on
    [mAsyncMonitorIoService]: between two function objects, inside
    [popFrontEvent] on behalf of an operation, or returned from [run]. *)
Inductive thread_state : Type :=
| T_run
| T_blocked (op : MonitorOperation)
| T_exited.

Record World : Type := mk_World {
  heap : list cell;
  trace : list (effect path);
  host : io_service completion;
  invoked : list completion;
  mAsyncMonitorIoService : io_service MonitorOperation;
  mAsyncMonitorWork : bool;
  mAsyncMonitorThread : thread_state
}.

Definition set_heap (h : list cell) (w : World) : World :=
  mk_World h (trace w) (host w) (invoked w) (mAsyncMonitorIoService w)
           (mAsyncMonitorWork w) (mAsyncMonitorThread w).
Definition log (es : list (effect path)) (w : World) : World :=
  mk_World (heap w) (trace w ++ es) (host w) (invoked w)
           (mAsyncMonitorIoService w) (mAsyncMonitorWork w)
           (mAsyncMonitorThread w).
Definition set_host (i : io_service completion) (w : World) : World :=
  mk_World (heap w) (trace w) i (invoked w) (mAsyncMonitorIoService w)
           (mAsyncMonitorWork w) (mAsyncMonitorThread w).
Definition set_invoked (cs : list completion) (w : World) : World :=
  mk_World (heap w) (trace w) (host w) cs (mAsyncMonitorIoService w)
           (mAsyncMonitorWork w) (mAsyncMonitorThread w).
Definition set_ios (i : io_service MonitorOperation) (w : World) : World :=
  mk_World (heap w) (trace w) (host w) (invoked w) i
           (mAsyncMonitorWork w) (mAsyncMonitorThread w).
Definition set_work (b : bool) (w : World) : World :=
  mk_World (heap w) (trace w) (host w) (invoked w)
           (mAsyncMonitorIoService w) b (mAsyncMonitorThread w).
Definition set_thread (t : thread_state) (w : World) : World :=
  mk_World (heap w) (trace w) (host w) (invoked w)
           (mAsyncMonitorIoService w) (mAsyncMonitorWork w) t.

(** *** The monad of member functions *)

(** A call returns a value, leaves by an exception, or is blocked inside
    the backend's [popFrontEvent]; each with the world at that point. *)
Inductive outcome (A : Type) : Type :=
| Ret (a : A) (w : World)
| Throw (e : exn) (w : World)
| Block (w : World).
Arguments Ret {A} a w.
Arguments Throw {A} e w.
Arguments Block {A} w.

Definition M (A : Type) : Type := World -> outcome A.

Definition ret {A : Type} (a : A) : M A := fun w => Ret a w.
Definition throw {A : Type} (e : exn) : M A := fun w => Throw e w.
Definition bind {A B : Type} (m : M A) (k : A -> M B) : M B :=
  fun w => match m w with
           | Ret a w' => k a w'
           | Throw e w' => Throw e w'
           | Block w' => Block w'
           end.
Definition modify (f : World -> World) : M unit := fun w => Ret tt (f w).
Definition query (r : result bool) : M bool :=
  match r with Ok b => ret b | Err s => throw (boost_filesystem_error s) end.
Definition query_path (r : result path) : M path :=
  match r with Ok p => ret p | Err s => throw (boost_filesystem_error s) end.

Notation "x <- m ;; k" := (bind m (fun x => k))
  (at level 100, m at next level, right associativity).
Notation "m ;;; k" := (bind m (fun _ => k))
  (at level 100, right associativity).

(** *** shared_ptr and weak_ptr *)

(** The object a strong pointer refers to, if the pointer is not empty
    and the object is alive. *)
Definition alive (w : World) (l : loc) : option cell :=
  match heap w !! l with
  | Some c => if Nat.eqb (use_count c) 0 then None else Some c
  | None => None
  end.

(** One strong owner lets go; the last one deletes the object. *)
Definition release (l : loc) (w : World) : World :=
  match heap w !! l with
  | Some c =>
      let n := Nat.pred (use_count c) in
      log (eff_release l :: (if Nat.eqb n 0 then [eff_delete l] else []))
          (set_heap (<[l := mk_cell (obj c) n]> (heap w)) w)
  | None => w
  end.

(** [sp.reset()], and the destructor of a local [shared_ptr]. *)
Definition sp_reset (sp : shared_ptr) : M shared_ptr :=
  fun w => match sp with
           | Some l => Ret None (release l w)
           | None => Ret None w
           end.

(** [sp.reset( new FileMonitorImplementation() )]. *)
Definition sp_reset_new (sp : shared_ptr) : M shared_ptr :=
  fun w =>
    let l := length (heap w) in
    let w1 := log [eff_new l] (set_heap (heap w ++ [mk_cell impl_ctor 1]) w) in
    match sp with
    | Some old => Ret (Some l) (release old w1)
    | None => Ret (Some l) w1
    end.

(** [wp.lock()]: a strong pointer if the object is still alive. *)
Definition wp_lock (wp : weak_ptr) : M shared_ptr :=
  fun w => match wp with
           | Some l =>
               match alive w l with
               | Some c =>
                   Ret (Some l)
                       (log [eff_lock l]
                            (set_heap (<[l := mk_cell (obj c) (S (use_count c))]> (heap w)) w))
               | None => Ret None w
               end
           | None => Ret None w
           end.

(** [sp->f( ... )] for a member [f] that returns at once. *)
Definition invoke {A : Type} (sp : shared_ptr) (c : call path)
           (f : impl_t -> A * impl_t) : M A :=
  fun w => match sp with
           | Some l =>
               match alive w l with
               | Some x =>
                   let (a, b') := f (obj x) in
                   Ret a (log [eff_call l c]
                              (set_heap (<[l := mk_cell b' (use_count x)]> (heap w)) w))
               | None => Throw (assertion_failed "px != 0") w
               end
           | None => Throw (assertion_failed "px != 0") w
           end.

(** [sp->popFrontEvent( ec )]: the event and the error code. *)
Definition invoke_popFrontEvent (sp : shared_ptr) : M (FileMonitorEvent * error_code) :=
  fun w => match sp with
           | Some l =>
               match alive w l with
               | Some x =>
                   match impl_popFrontEvent (obj x) with
                   | Some (ec, ev, b') =>
                       Ret (ev, ec)
                           (log [eff_call l call_popFrontEvent]
                                (set_heap (<[l := mk_cell b' (use_count x)]> (heap w)) w))
                   | None => Block w
                   end
               | None => Throw (assertion_failed "px != 0") w
               end
           | None => Throw (assertion_failed "px != 0") w
           end.

(** *** The member functions of BasicFileMonitorService *)

(** The constructor: the worker's loop is kept alive by
    [mAsyncMonitorWork] and its thread runs [io_service::run]. *)
Definition BasicFileMonitorService_ctor : World :=
  mk_World [] [] (mk_io_service [] false) [] (mk_io_service [] false) true T_run.

Definition implementation_type : Type := shared_ptr.

Definition construct (impl : implementation_type) : M implementation_type :=
  sp_reset_new impl.

Definition destroy (impl : implementation_type) : M implementation_type :=
  invoke impl call_destroy (fun b => (tt, impl_destroy b)) ;;;
  sp_reset impl.

(** The two statements of [destroy] one by one, for the runs in which
    another thread moves between them: [impl->destroy()], and
    [impl.reset()]. *)
Definition destroy_begin (impl : implementation_type) : M unit :=
  invoke impl call_destroy (fun b => (tt, impl_destroy b)).

Definition destroy_end (impl : implementation_type) : M implementation_type :=
  sp_reset impl.

Definition addPath (impl : implementation_type) (p : path) (regexMatch : string)
  : M uint64 :=
  d <- query (is_directory p) ;;
  if negb d then throw (InvalidPath (path_string p))
  else invoke impl (call_addPath p regexMatch) (impl_addPath p regexMatch).

Definition addFile (impl : implementation_type) (p : path) : M uint64 :=
  r <- query (is_regular_file p) ;;
  if negb r then throw (InvalidPath (path_string p))
  else
    s <- query (is_symlink p) ;;
    u <- (if s then t <- query_path (read_symlink p) ;; ret (path_ne t p)
          else ret false) ;;
    if u then throw (UnresolvedSymlink (path_string p))
    else invoke impl (call_addFile p) (impl_addFile p).

Definition remove (impl : implementation_type) (id : uint64) : M unit :=
  invoke impl (call_remove id) (fun b => (tt, impl_remove id b)).

(** Blocking event monitor. *)
Definition monitor (impl : implementation_type) : M (FileMonitorEvent * error_code) :=
  invoke_popFrontEvent impl.

Definition host_post (c : completion) : M unit :=
  modify (fun w => set_host (ios_post c (host w)) w).

(** [MonitorOperation::operator()] from the point where [lock] has
    produced a strong pointer: the blocking pop, the post, and the end of
    the local [impl]. The worker re-enters here when the pop returns. *)
Definition MonitorOperation_resume (op : MonitorOperation) (impl : implementation_type)
  : M unit :=
  r <- invoke_popFrontEvent impl ;;
  host_post (bind_handler (mHandler op) (snd r) (fst r)) ;;;
  sp_reset impl ;;;
  ret tt.

(** [MonitorOperation::operator()]. *)
Definition MonitorOperation_call (op : MonitorOperation) : M unit :=
  impl <- wp_lock (mImpl op) ;;
  match impl with
  | Some l => MonitorOperation_resume op (Some l)
  | None =>
      host_post (bind_handler (mHandler op) operation_aborted FileMonitorEvent_ctor)
  end.

(** Non-blocking event monitor. *)
Definition asyncMonitor (impl : implementation_type) (handler : Handler) : M unit :=
  modify (fun w =>
    set_ios (ios_post (mk_MonitorOperation impl handler) (mAsyncMonitorIoService w)) w).

(** *** The worker thread and the host loop *)

(** One step of [io_service::run] on the worker thread. [None]: the
    thread cannot move (it waits for work, is still inside the backend's
    pop, or has returned from [run]). *)
Definition worker_step (w : World) : option World :=
  match mAsyncMonitorThread w with
  | T_exited => None
  | T_blocked op =>
      match MonitorOperation_resume op (mImpl op) w with
      | Ret _ w' => Some (set_thread T_run w')
      | _ => None
      end
  | T_run =>
      if ios_stopped (mAsyncMonitorIoService w) then Some (set_thread T_exited w)
      else
        match ios_queue (mAsyncMonitorIoService w) with
        | op :: q =>
            let w1 := set_ios (mk_io_service q false) w in
            match MonitorOperation_call op w1 with
            | Ret _ w' => Some w'
            | Block w' => Some (set_thread (T_blocked op) w')
            | Throw _ _ => None
            end
        | [] =>
            if mAsyncMonitorWork w then None else Some (set_thread T_exited w)
        end
  end.

Fixpoint worker_run (n : nat) (w : World) : option World :=
  match n with
  | O => Some w
  | S n' => match worker_step w with
            | Some w' => worker_run n' w'
            | None => None
            end
  end.

(** One step of the host loop: the oldest posted completion is taken
    off the queue and its handler is called with [(ec, ev)]. *)
Definition host_step (w : World) : option World :=
  match ios_queue (host w) with
  | c :: q =>
      Some (set_invoked (invoked w ++ [c])
              (set_host (mk_io_service q (ios_stopped (host w))) w))
  | [] => None
  end.

Fixpoint host_run (n : nat) (w : World) : option World :=
  match n with
  | O => Some w
  | S n' => match host_step w with
            | Some w' => host_run n' w'
            | None => None
            end
  end.

(** [mAsyncMonitorThread.join()]: the caller waits until the worker has
    returned from [run]. Once the loop is stopped the worker needs at
    most two steps for that (leave the pop it is in, notice the stop);
    a worker that cannot move keeps the caller blocked. *)
Fixpoint join (fuel : nat) (w : World) : outcome unit :=
  match mAsyncMonitorThread w with
  | T_exited => Ret tt w
  | _ =>
      match fuel with
      | O => Block w
      | S fuel' =>
          match worker_step w with
          | Some w' => join fuel' w'
          | None => Block w
          end
      end
  end.

(** [~BasicFileMonitorService], followed by the destruction of the
    members: the function objects still queued in
    [mAsyncMonitorIoService] are destroyed without having been called. *)
Definition BasicFileMonitorService_dtor : M unit :=
  modify (set_work false) ;;;
  modify (fun w => set_ios (ios_stop (mAsyncMonitorIoService w)) w) ;;;
  join 2 ;;;
  modify (fun w => set_ios (mk_io_service [] true) w).

(** *** The worlds along one operation *)

(** The world in which [op] has taken its strong reference. *)
Definition locked (l : loc) (x : cell) (w : World) : World :=
  mk_World (<[l := mk_cell (obj x) (S (use_count x))]> (heap w))
           (trace w ++ [eff_lock l]) (host w) (invoked w)
           (mAsyncMonitorIoService w) (mAsyncMonitorWork w)
           (mAsyncMonitorThread w).

(** The world after the pop has returned [(ec, ev)], the completion has
    been posted and the strong reference has been given up. *)
Definition resumed (op : MonitorOperation) (l : loc) (x : cell)
           (ec : error_code) (ev : FileMonitorEvent) (b' : impl_t) (w : World) : World :=
  mk_World (<[l := mk_cell b' (Nat.pred (use_count x))]> (heap w))
           (trace w ++ eff_call l call_popFrontEvent :: eff_release l ::
              (if Nat.eqb (Nat.pred (use_count x)) 0 then [eff_delete l] else []))
           (ios_post (bind_handler (mHandler op) ec ev) (host w))
           (invoked w) (mAsyncMonitorIoService w) (mAsyncMonitorWork w)
           (mAsyncMonitorThread w).

(** The completion of the abort branch. *)
Definition aborted_completion (op : MonitorOperation) : completion :=
  bind_handler (mHandler op) operation_aborted FileMonitorEvent_ctor.

(** The world after the abort branch: one completion more, nothing else. *)
Definition aborted (op : MonitorOperation) (w : World) : World :=
  set_host (ios_post (aborted_completion op) (host w)) w.

(** The world after a whole successful [operator()]. *)
Definition completed (op : MonitorOperation) (l : loc) (x : cell)
           (ec : error_code) (ev : FileMonitorEvent) (b' : impl_t) (w : World) : World :=
  mk_World (<[l := mk_cell b' (use_count x)]> (heap w))
           (trace w ++ [eff_lock l; eff_call l call_popFrontEvent; eff_release l])
           (ios_post (bind_handler (mHandler op) ec ev) (host w))
           (invoked w) (mAsyncMonitorIoService w) (mAsyncMonitorWork w)
           (mAsyncMonitorThread w).

(** *** Classes of paths, as [addFile] tells them apart *)

(** A symlink whose target differs from the path itself. *)
Definition unresolved_symlink (p : path) : Prop :=
  is_symlink p = Ok true /\
  exists t, read_symlink p = Ok t /\ path_ne t p = true.

(** A path that [addFile] hands to the backend. *)
Definition accepted_file (p : path) : Prop :=
  is_regular_file p = Ok true /\
  (is_symlink p = Ok false \/
   (is_symlink p = Ok true /\
    exists t, read_symlink p = Ok t /\ path_ne t p = false)).

(** *** The system as a whole *)

(** What a weak observation sees: the control block of a live object. *)
Definition observed (w : World) (wp : weak_ptr) : option cell :=
  match wp with
  | Some l => alive w l
  | None => None
  end.

(** The operation the worker is running (blocked in the backend's pop). *)
Definition running (w : World) : list MonitorOperation :=
  match mAsyncMonitorThread w with
  | T_blocked op => [op]
  | _ => []
  end.

(** The operations that are pending: the running one, then the queued
    ones, oldest first. *)
Definition pending (w : World) : list MonitorOperation :=
  running w ++ ios_queue (mAsyncMonitorIoService w).

(** What happens while the service lives: the worker thread moves, or the
    host loop calls a posted handler. *)
Inductive run_step : World -> World -> Prop :=
| run_worker (w w' : World) :
    worker_step w = Some w' -> run_step w w'
| run_host (w w' : World) :
    host_step w = Some w' -> run_step w w'.

(** What can happen once the caller has issued [destroy]: the system
    runs on, or the service itself is torn down. *)
Inductive sys_step : World -> World -> Prop :=
| step_run (w w' : World) :
    run_step w w' -> sys_step w w'
| step_dtor (w w' : World) :
    BasicFileMonitorService_dtor w = Ret tt w' -> sys_step w w'.

(** Nothing is left to run: neither the worker nor the host can move. *)
Definition quiescent (w : World) : Prop :=
  worker_step w = None /\ host_step w = None.

(** [c] is the call of [op]'s handler with an aborted error. *)
Definition aborted_call (op : MonitorOperation) (c : completion) : Prop :=
  c_handler c = mHandler op /\ c_ec c = operation_aborted.

(** The handler calls made from [w] on, when the run ends in [w']: the
    completions that were already posted in [w], then [cs]. *)
Definition calls_since (w w' : World) (cs : list completion) : Prop :=
  invoked w' = invoked w ++ ios_queue (host w) ++ cs.

(** "Issuing [destroy()] while operations are pending causes each pending
    operation's handler to be invoked exactly once with Aborted", read
    over every continuation of the system up to quiescence. *)
Definition destroy_aborts_every_pending : Prop :=
  forall (l : loc) (c : cell) (w w1 w2 : World),
    alive w l = Some c ->
    Forall (fun op => mImpl op = Some l) (pending w) ->
    destroy (Some l) w = Ret None w1 ->
    rtc sys_step w1 w2 ->
    quiescent w2 ->
    exists cs, calls_since w w2 cs /\ Forall2 aborted_call (pending w) cs.

(** The completions posted to the host loop so far, oldest first: those
    whose handler has been called, then those still in the queue. *)
Definition posted (w : World) : list completion :=
  invoked w ++ ios_queue (host w).

(** A set [D] of backend states in which [popFrontEvent] returns at once
    with [operation_aborted] and leaves the backend in [D]: what the
    backend contract asks of a backend that has been destroyed. *)
Definition pop_aborts (D : impl_t -> Prop) : Prop :=
  forall b, D b ->
    exists ev b', impl_popFrontEvent b = Some (operation_aborted, ev, b') /\ D b'.

(** The invariant of the runs that follow [impl->destroy()] on the backend
    at [l]. [Q] are the operations that were pending and [base] the
    completions posted before. Some prefix of [Q] has been executed, each
    with one aborted completion ([done]); the rest is still pending; the
    service is alive; and the backend object at [l], deleted or not, is in
    a state of [D]. *)
Definition aborting (D : impl_t -> Prop) (l : loc) (Q : list MonitorOperation)
           (base : list completion) (w : World) : Prop :=
  exists done : list completion,
    pending w = drop (length done) Q /\
    Forall2 aborted_call (take (length done) Q) done /\
    posted w = base ++ done /\
    ios_stopped (mAsyncMonitorIoService w) = false /\
    mAsyncMonitorWork w = true /\
    mAsyncMonitorThread w <> T_exited /\
    exists y, heap w !! l = Some y /\ D (obj y).

End Service.

Arguments Ret {path Impl Handler A} a w.
Arguments Throw {path Impl Handler A} e w.
Arguments Block {path Impl Handler A} w.

(** ** A filesystem to evaluate the service on *)

(** A POSIX tree, flat: what is found under a path name. *)
Inductive node : Type :=
| n_regular
| n_directory
| n_symlink (target : string)
| n_other.

Inductive file_type : Type :=
| file_not_found
| regular_file
| directory_file
| symlink_file
| type_unknown.

Definition type_of_node (n : node) : file_type :=
  match n with
  | n_regular => regular_file
  | n_directory => directory_file
  | n_symlink _ => symlink_file
  | n_other => type_unknown
  end.

(** [boost::filesystem::status(p)]: follows symbolic links as [stat(2)]
    does; a missing entry is the status [file_not_found], any other failure
    of [stat] (here: too many links to follow) is thrown. *)
Fixpoint status (t : gmap string node) (fuel : nat) (p : string) : result file_type :=
  match t !! p with
  | None => Ok file_not_found
  | Some (n_symlink target) =>
      match fuel with
      | O => Err "boost::filesystem::status"
      | S fuel' => status t fuel' target
      end
  | Some n => Ok (type_of_node n)
  end.

(** [boost::filesystem::symlink_status(p)]: as [lstat(2)], links are not
    followed. *)
Definition symlink_status (t : gmap string node) (p : string) : result file_type :=
  match t !! p with
  | None => Ok file_not_found
  | Some n => Ok (type_of_node n)
  end.

Definition file_type_eqb (a b : file_type) : bool :=
  match a, b with
  | file_not_found, file_not_found
  | regular_file, regular_file
  | directory_file, directory_file
  | symlink_file, symlink_file
  | type_unknown, type_unknown => true
  | _, _ => false
  end.

Definition has_type (r : result file_type) (ft : file_type) : result bool :=
  match r with
  | Ok x => Ok (file_type_eqb x ft)
  | Err e => Err e
  end.

(** The number of links [stat(2)] follows before it gives up. *)
Definition MAXSYMLINKS : nat := 40.

(** The queries hand [p.c_str()] to the system, which reads it up to the
    first NUL; [path.string()] and the comparison see the whole string. *)
Definition tree_fs (t : gmap string node) : Filesystem string := {|
  path_string := fun p => p;
  path_ne := fun a b => negb (String.eqb a b);
  is_directory := fun p =>
    has_type (status t MAXSYMLINKS (c_str p)) directory_file;
  is_regular_file := fun p =>
    has_type (status t MAXSYMLINKS (c_str p)) regular_file;
  is_symlink := fun p => has_type (symlink_status t (c_str p)) symlink_file;
  read_symlink := fun p =>
    match t !! c_str p with
    | Some (n_symlink target) => Ok target
    | _ => Err "boost::filesystem::read_symlink"
    end
|}.

(** A small tree: a directory, a regular file in it, a link to that file,
    a link to the directory, a dangling link, two links that point to each
    other, and a device node. *)
Definition sample_tree : gmap string node :=
  <["/tmp" := n_directory]>
  (<["/tmp/a.txt" := n_regular]>
  (<["/tmp/link_to_file" := n_symlink "/tmp/a.txt"]>
  (<["/tmp/link_to_dir" := n_symlink "/tmp"]>
  (<["/tmp/dangling" := n_symlink "/tmp/gone"]>
  (<["/tmp/ping" := n_symlink "/tmp/pong"]>
  (<["/tmp/pong" := n_symlink "/tmp/ping"]>
  (<["/dev/null" := n_other]> ∅))))))).

(** A path with a NUL character in it: the system sees [/tmp/link_to_file],
    [path.string()] is the whole of it. *)
Definition nul_path : string :=
  "/tmp/link_to_file" +:+ String "000"%char "x".

Definition sample_fs : Filesystem string := tree_fs sample_tree.

(** ** A backend to evaluate the service on *)

(** Modelled from the spec: the kinds of an Event (section 3); the
    repository's declaration of [FileMonitorEvent] is not among the
    sources. [kind_null] is the kind of a default constructed event. *)
Inductive event_kind : Type :=
| kind_null
| kind_added
| kind_removed
| kind_modified
| kind_renamed_old
| kind_renamed_new.

(** Modelled from the spec: an Event names the watch handle or path it is
    about and its kind. *)
Record queue_event : Type := mk_event {
  ev_id : uint64;
  ev_path : string;
  ev_kind : event_kind
}.

(** Modelled from the spec: a backend instance, with the next handle to
    assign, the watches registered, the events not yet popped, and whether
    [destroy] has been called. *)
Record queue_backend : Type := mk_backend {
  qb_next : uint64;
  qb_watches : list (uint64 * string);
  qb_events : list queue_event;
  qb_destroyed : bool
}.

Definition qb_add (p : string) (b : queue_backend) : uint64 * queue_backend :=
  (qb_next b,
   mk_backend (qb_next b + 1) ((qb_next b, p) :: qb_watches b)
              (qb_events b) (qb_destroyed b)).

Definition qb_remove (id : uint64) (b : queue_backend) : queue_backend :=
  mk_backend (qb_next b)
             (filter (fun x => negb (Z.eqb (fst x) id)) (qb_watches b))
             (qb_events b) (qb_destroyed b).

Definition qb_destroy (b : queue_backend) : queue_backend :=
  mk_backend (qb_next b) (qb_watches b) (qb_events b) true.

Definition qb_pop (b : queue_backend)
  : option (error_code * queue_event * queue_backend) :=
  match qb_events b with
  | e :: es =>
      Some (ec_success, e,
            mk_backend (qb_next b) (qb_watches b) es (qb_destroyed b))
  | [] =>
      if qb_destroyed b
      then Some (operation_aborted, mk_event 0 EmptyString kind_null, b)
      else None
  end.

(** Modelled from the spec: the backend contract of section 6 (the
    repository's [FileMonitorImpl] headers are not among the sources).
    Handles are assigned in increasing order; [popFrontEvent] waits until
    an event is available or the backend is destroyed, and a wake caused by
    destruction returns [operation_aborted]. *)
Definition queue_impl : FileMonitorImplementation string := {|
  FileMonitorEvent := queue_event;
  FileMonitorEvent_ctor := mk_event 0 EmptyString kind_null;
  impl_t := queue_backend;
  impl_ctor := mk_backend 1 [] [] false;
  impl_destroy := qb_destroy;
  impl_addPath := fun p _ b => qb_add p b;
  impl_addFile := fun p b => qb_add p b;
  impl_remove := qb_remove;
  impl_popFrontEvent := qb_pop
|}.

(** ** Worlds to evaluate the service on *)

Definition sample_World : Type := @World string queue_impl nat.
Definition mk_sample_World := @mk_World string queue_impl nat.
Definition sample_cell := @mk_cell string queue_impl.
Definition sample_op := @mk_MonitorOperation nat.
Definition sample_completion := @bind_handler string queue_impl nat.

(** The service right after its constructor and one [construct]. *)
Definition constructed_world : sample_World :=
  mk_sample_World [sample_cell (mk_backend 1 [] [] false) 1] [eff_new 0%nat]
           (mk_io_service [] false) [] (mk_io_service [] false) true T_run.

(** The backend has one event ready: [a.txt] under watch 1 was modified. *)
Definition modified_a : queue_event := mk_event 1 "/tmp/a.txt" kind_modified.

Definition event_ready_world : sample_World :=
  mk_sample_World [sample_cell (mk_backend 2 [(1, "/tmp")] [modified_a] false) 1]
           [eff_new 0%nat; eff_call 0%nat (call_addPath "/tmp" "*.txt")]
           (mk_io_service [] false) [] (mk_io_service [] false) true T_run.

(** The backend is gone: its last owner has released it. *)
Definition destroyed_world : sample_World :=
  mk_sample_World [sample_cell (mk_backend 1 [] [] true) 0]
           [eff_new 0%nat; eff_call 0%nat call_destroy; eff_release 0%nat;
            eff_delete 0%nat]
           (mk_io_service [] false) [] (mk_io_service [] false) true T_run.

(** Handler 7 is queued; the worker has not taken it yet. *)
Definition one_queued_world : sample_World :=
  mk_sample_World [sample_cell (mk_backend 1 [] [] false) 1] [eff_new 0%nat]
           (mk_io_service [] false) []
           (mk_io_service [sample_op (Some 0%nat) 7%nat] false)
           true T_run.

(** The worker is inside the backend's pop for handler 7 (it holds the
    second strong reference); handlers 8 and 9 are queued behind it. *)
Definition blocked_world : sample_World :=
  mk_sample_World [sample_cell (mk_backend 1 [] [] false) 2]
           [eff_new 0%nat; eff_lock 0%nat]
           (mk_io_service [] false) []
           (mk_io_service [sample_op (Some 0%nat) 8%nat;
                           sample_op (Some 0%nat) 9%nat] false)
           true (T_blocked (sample_op (Some 0%nat) 7%nat)).

(** The worker is inside the pop for handler 7 and the event has arrived. *)
Definition event_arrived_world : sample_World :=
  mk_sample_World [sample_cell (mk_backend 2 [(1, "/tmp")] [modified_a] false) 2]
           [eff_new 0%nat; eff_call 0%nat (call_addPath "/tmp" "*.txt");
            eff_lock 0%nat]
           (mk_io_service [] false) [] (mk_io_service [] false) true
           (T_blocked (sample_op (Some 0%nat) 7%nat)).

(** [one_queued_world] after [destroy]: the backend is destroyed and
    deleted, handler 7 is still queued. *)
Definition one_queued_destroyed : sample_World :=
  mk_sample_World [sample_cell (mk_backend 1 [] [] true) 0]
           [eff_new 0%nat; eff_call 0%nat call_destroy; eff_release 0%nat;
            eff_delete 0%nat]
           (mk_io_service [] false) []
           (mk_io_service [sample_op (Some 0%nat) 7%nat] false)
           true T_run.

(** ... and after the destructor of the service: the worker has returned
    from [run], the queued operation is gone, nothing was posted. *)
Definition one_queued_torn_down : sample_World :=
  mk_sample_World [sample_cell (mk_backend 1 [] [] true) 0]
           [eff_new 0%nat; eff_call 0%nat call_destroy; eff_release 0%nat;
            eff_delete 0%nat]
           (mk_io_service [] false) []
           (mk_io_service [] true)
           false T_exited.

(** The registration functions on the sample filesystem and backend. *)
Definition sample_addPath := @addPath string sample_fs queue_impl nat.
Definition sample_addFile := @addFile string sample_fs queue_impl nat.

(** ** Strings *)

Fixpoint last_ascii (s : string) : option ascii :=
  match s with
  | EmptyString => None
  | String a EmptyString => Some a
  | String _ s' => last_ascii s'
  end.


(** ** Several operations in a row *)

Section Batches.
Context {path : Type} `{Impl : FileMonitorImplementation path}.
Context {Handler : Type}.

(** [n] calls of the backend's pop, one after the other: what each
    returned, and the backend after the last; [None] if one of them does
    not return. *)
Fixpoint pop_all (n : nat) (b : impl_t)
  : option (list (error_code * FileMonitorEvent) * impl_t) :=
  match n with
  | O => Some ([], b)
  | S n' =>
      match impl_popFrontEvent b with
      | Some (ec, ev, b1) =>
          match pop_all n' b1 with
          | Some (rs, b2) => Some ((ec, ev) :: rs, b2)
          | None => None
          end
      | None => None
      end
  end.

(** [asyncMonitor( impl, h )] for each handler of [hs], in this order. *)
Fixpoint asyncMonitor_all (impl : implementation_type) (hs : list Handler)
  : @M path Impl Handler unit :=
  match hs with
  | [] => ret tt
  | h :: hs' => bind (asyncMonitor impl h) (fun _ => asyncMonitor_all impl hs')
  end.

(** The world after the call [c] on the backend at [l] has returned and
    left the backend as [b']: the backend is updated in place, the call is
    in the trace. *)
Definition after_call (l : loc) (c : call path) (b' : impl_t)
           (x : @cell path Impl) (w : @World path Impl Handler)
  : @World path Impl Handler :=
  log [eff_call l c] (set_heap (<[l := mk_cell b' (use_count x)]> (heap w)) w).

(** The completion of handler [h] for the pop result [r]. *)
Definition completion_of (h : Handler) (r : error_code * FileMonitorEvent)
  : @completion path Impl Handler :=
  bind_handler h (fst r) (snd r).

End Batches.

(** ** The callers of the service *)

Section Callers.
Context {path : Type} `{FS : Filesystem path}.
Context `{Impl : FileMonitorImplementation path}.
Context {Handler : Type}.

(** What a thread asks of the service through an I/O object, in one
    statement; each member function takes the object's
    [implementation_type] by reference. [destroy] has two statements and
    is not among them (see [action]). *)
Inductive request : Type :=
| req_construct
| req_addPath (p : path) (regexMatch : string)
| req_addFile (p : path)
| req_remove (id : uint64)
| req_monitor
| req_asyncMonitor (handler : Handler).

(** The call, and the caller's [impl] after it: [construct] assigns to it,
    the other member functions leave it as it is. *)
Definition perform (r : request) (impl : implementation_type)
  : @M path Impl Handler implementation_type :=
  match r with
  | req_construct => construct impl
  | req_addPath p regexMatch =>
      bind (addPath impl p regexMatch) (fun _ => ret impl)
  | req_addFile p => bind (addFile impl p) (fun _ => ret impl)
  | req_remove id => bind (remove impl id) (fun _ => ret impl)
  | req_monitor => bind (monitor impl) (fun _ => ret impl)
  | req_asyncMonitor handler =>
      bind (asyncMonitor impl handler) (fun _ => ret impl)
  end.

(** How far [~BasicFileMonitorService] has got: not begun, past
    [mAsyncMonitorWork.reset()], past [mAsyncMonitorIoService.stop()]
    (where it waits in [join]), or returned, the members destroyed. *)
Inductive service_state : Type :=
| S_alive
| S_released
| S_stopped
| S_gone.

(** The service together with the threads that use it. [clients] are the
    [implementation_type] members of the I/O objects, the only strong
    pointers outside the worker. [destroying] are the threads that are
    between the two statements of [destroy], each with the I/O object whose
    [impl] it was given. [monitoring] are the threads that are inside the
    backend's [popFrontEvent] on behalf of [monitor], each with the backend
    it is in: [monitor] calls through [impl] and keeps no pointer of its
    own. *)
Record System : Type := mk_System {
  clients : list implementation_type;
  world : @World path Impl Handler;
  destroying : list nat;
  monitoring : list loc;
  dtor : service_state
}.

Definition with_world (w : @World path Impl Handler) (s : System) : System :=
  mk_System (clients s) w (destroying s) (monitoring s) (dtor s).

(** A thread calls a member function on I/O object [i]. When the call
    returns, the object's [impl] is what the call left of it. An exception
    of the filesystem or of the service leaves everything as it was. A
    failed [BOOST_ASSERT] ends the program: there is no state after it. A
    call that is blocked in the backend's pop leaves a thread inside that
    backend. *)
Definition client_call (i : nat) (r : request) (s : System) : option System :=
  match clients s !! i with
  | Some impl =>
      match perform r impl (world s) with
      | Ret impl' w' =>
          Some (mk_System (<[i := impl']> (clients s)) w'
                          (destroying s) (monitoring s) (dtor s))
      | Throw e w' => if is_assertion e then None else Some (with_world w' s)
      | Block w' =>
          match impl with
          | Some l =>
              Some (mk_System (clients s) w' (destroying s)
                              (monitoring s ++ [l]) (dtor s))
          | None => None
          end
      end
  | None => None
  end.

(** *** Schedules *)

(** One thing that happens to the system: a new I/O object appears (its
    [impl] empty); a thread calls a member function of one statement; a
    thread executes [impl->destroy()], the first statement of [destroy];
    the [k]-th of the threads inside [destroy] executes [impl.reset()];
    the pop of the [k]-th thread inside [monitor] returns; the worker
    thread or the host loop moves; the destructor of the service executes
    [mAsyncMonitorWork.reset()], then [mAsyncMonitorIoService.stop()], and
    last returns from [join], after which the members are destroyed. *)
Inductive action : Type :=
| act_open
| act_call (i : nat) (r : request)
| act_destroy_call (i : nat)
| act_destroy_reset (k : nat)
| act_monitor_return (k : nat)
| act_worker
| act_host
| act_release_work
| act_stop
| act_teardown.

(** The system after the action; [None] if it cannot happen: no such
    I/O object or thread, a failed [BOOST_ASSERT], a pop that does not
    return, a worker or a host loop that cannot move, a destructor that is
    not that far, or is kept waiting in [join]. A thread inside the pop of
    a backend that has been deleted meanwhile has no step either: what it
    does there is undefined. Calls on a service whose destructor has begun
    are not excluded; a program that keeps to the lifetime of the service
    takes fewer steps, not other ones. *)
Definition act (a : action) (s : System) : option System :=
  match a with
  | act_open =>
      Some (mk_System (clients s ++ [None]) (world s)
                      (destroying s) (monitoring s) (dtor s))
  | act_call i r => client_call i r s
  | act_destroy_call i =>
      match clients s !! i with
      | Some impl =>
          match destroy_begin impl (world s) with
          | Ret _ w' =>
              Some (mk_System (clients s) w' (destroying s ++ [i])
                              (monitoring s) (dtor s))
          | _ => None
          end
      | None => None
      end
  | act_destroy_reset k =>
      match destroying s !! k with
      | Some i =>
          match clients s !! i with
          | Some impl =>
              match destroy_end impl (world s) with
              | Ret impl' w' =>
                  Some (mk_System (<[i := impl']> (clients s)) w'
                                  (delete k (destroying s))
                                  (monitoring s) (dtor s))
              | _ => None
              end
          | None => None
          end
      | None => None
      end
  | act_monitor_return k =>
      match monitoring s !! k with
      | Some l =>
          match invoke_popFrontEvent (Some l) (world s) with
          | Ret _ w' =>
              Some (mk_System (clients s) w' (destroying s)
                              (delete k (monitoring s)) (dtor s))
          | _ => None
          end
      | None => None
      end
  | act_worker =>
      match worker_step (world s) with
      | Some w' => Some (with_world w' s)
      | None => None
      end
  | act_host =>
      match host_step (world s) with
      | Some w' => Some (with_world w' s)
      | None => None
      end
  | act_release_work =>
      match dtor s with
      | S_alive =>
          Some (mk_System (clients s) (set_work false (world s))
                          (destroying s) (monitoring s) S_released)
      | _ => None
      end
  | act_stop =>
      match dtor s with
      | S_released =>
          Some (mk_System (clients s)
                  (set_ios (ios_stop (mAsyncMonitorIoService (world s)))
                           (world s))
                  (destroying s) (monitoring s) S_stopped)
      | _ => None
      end
  | act_teardown =>
      match dtor s, mAsyncMonitorThread (world s) with
      | S_stopped, T_exited =>
          Some (mk_System (clients s)
                  (set_ios (mk_io_service [] true) (world s))
                  (destroying s) (monitoring s) S_gone)
      | _, _ => None
      end
  end.

Fixpoint run_actions (acts : list action) (s : System) : option System :=
  match acts with
  | [] => Some s
  | a :: acts' =>
      match act a s with
      | Some s' => run_actions acts' s'
      | None => None
      end
  end.

(** Everything that can happen to the system, one action at a time. *)
Definition svc_step (s s' : System) : Prop := exists a, act a s = Some s'.

(** The service right after its constructor, no I/O object yet. *)
Definition svc_init : System :=
  mk_System [] BasicFileMonitorService_ctor [] [] S_alive.

Definition reachable (s : System) : Prop := rtc svc_step svc_init s.

(** The handler an action submits, if it is a call of [asyncMonitor]. *)
Definition submits (a : action) : list Handler :=
  match a with
  | act_call _ (req_asyncMonitor handler) => [handler]
  | _ => []
  end.

(** The handlers submitted by a schedule, in the order of submission. *)
Definition submitted (acts : list action) : list Handler :=
  concat (map submits acts).

(** The handlers the service has taken on, as far along as they are:
    those that have been called, those whose completion is posted, and
    those whose operation is pending. *)
Definition obligations (w : @World path Impl Handler) : list Handler :=
  map c_handler (invoked w) ++
  map c_handler (ios_queue (host w)) ++
  map mHandler (pending w).

(** What goes on after [impl->destroy()] in the runs that decide what
    becomes of the pending operations: the worker and the host loop move,
    and [destroy] gets to its second statement. *)
Definition runs_on (a : action) : Prop :=
  match a with
  | act_worker | act_host | act_destroy_reset _ => True
  | _ => False
  end.

(** "For every Pending Operation created by [asyncMonitor], exactly one
    completion is posted", read over every state the system can get to:
    each operation that was created is still pending, or one completion
    has been posted for it. *)
Definition every_operation_posts_once : Prop :=
  forall (acts : list action) (s : System),
    run_actions acts svc_init = Some s ->
    map c_handler (posted (world s)) ++ map mHandler (pending (world s)) =
      submitted acts.

(** *** Who owns a backend *)

(** The use count the control block of [l] shows. *)
Definition count_at (w : @World path Impl Handler) (l : loc) : nat :=
  match heap w !! l with
  | Some c => use_count c
  | None => 0%nat
  end.

(** The I/O objects whose [impl] points to [l]. *)
Definition client_refs (l : loc) (cl : list implementation_type) : nat :=
  length (filter (fun sp => sp = Some l) cl).

(** The worker's share of the strong pointers to [l]: the local [impl] of
    the operation it is running. *)
Definition worker_refs (l : loc) (w : @World path Impl Handler) : nat :=
  length (filter (fun op => mImpl op = Some l) (running w)).

(** The strong pointers to [l] that exist: those of the I/O objects and
    the worker's. *)
Definition holders (l : loc) (cl : list implementation_type)
           (w : @World path Impl Handler) : nat :=
  (client_refs l cl + worker_refs l w)%nat.

(** One for a proposition that holds, zero otherwise. *)
Definition one_if (P : Prop) `{Decision P} : nat :=
  if decide P then 1%nat else 0%nat.

(** Every use count is the number of strong pointers that exist, and an
    operation the worker is inside of has a pointer. *)
Definition owned_by (cl : list implementation_type)
           (w : @World path Impl Handler) : Prop :=
  (forall l, count_at w l = holders l cl w) /\
  (forall op, mAsyncMonitorThread w = T_blocked op ->
              exists l, mImpl op = Some l).

Definition owned (s : System) : Prop := owned_by (clients s) (world s).

(** No backend is the [impl] of two I/O objects. *)
Definition unshared (s : System) : Prop :=
  forall l, (client_refs l (clients s) <= 1)%nat.

(** The worker's loop and the destructor: while the destructor has not
    begun, the keep-alive token is there, the loop is not stopped and the
    worker has not returned from [run]; the token is released and the loop
    stopped in this order; and when the destructor has returned, the worker
    has. *)
Definition in_service (s : System) : Prop :=
  match dtor s with
  | S_alive =>
      mAsyncMonitorWork (world s) = true /\
      ios_stopped (mAsyncMonitorIoService (world s)) = false /\
      mAsyncMonitorThread (world s) <> T_exited
  | S_released =>
      mAsyncMonitorWork (world s) = false /\
      ios_stopped (mAsyncMonitorIoService (world s)) = false
  | S_stopped =>
      mAsyncMonitorWork (world s) = false /\
      ios_stopped (mAsyncMonitorIoService (world s)) = true
  | S_gone =>
      mAsyncMonitorWork (world s) = false /\
      ios_stopped (mAsyncMonitorIoService (world s)) = true /\
      mAsyncMonitorThread (world s) = T_exited
  end.

(** Two worlds with the same event loops and the same worker: only the
    store and the trace may differ. *)
Definition framed (w w' : @World path Impl Handler) : Prop :=
  host w' = host w /\ invoked w' = invoked w /\
  mAsyncMonitorIoService w' = mAsyncMonitorIoService w /\
  mAsyncMonitorWork w' = mAsyncMonitorWork w /\
  mAsyncMonitorThread w' = mAsyncMonitorThread w.

(** The handlers a schedule has submitted are those of the completions
    posted so far, then [rest]; and [rest] are the pending operations'
    handlers as long as the worker's queue has not been destroyed. *)
Definition accounted_for (sub : list Handler) (s : System) : Prop :=
  exists rest : list Handler,
    sub = map c_handler (posted (world s)) ++ rest /\
    (dtor s <> S_gone -> rest = map mHandler (pending (world s))).

End Callers.

(** ** The callers on the sample filesystem and backend *)

Definition sample_System : Type := @System string queue_impl nat.
Definition mk_sample_System := @mk_System string queue_impl nat.
Definition sample_action : Type := @action string nat.

Definition sample_after_call := @after_call string queue_impl nat.

(** One I/O object, constructed; nothing registered yet. *)
Definition one_client : sample_System :=
  mk_sample_System [Some 0%nat] constructed_world [] [] S_alive.

(** One I/O object while the worker is inside the pop for its handler 7. *)
Definition one_client_blocked : sample_System :=
  mk_sample_System [Some 0%nat] blocked_world [] [] S_alive.

(** Two events are ready: [a.txt] was modified, then [b.txt] was added. *)
Definition added_b : queue_event := mk_event 1 "/tmp/b.txt" kind_added.

Definition two_events_world : sample_World :=
  mk_sample_World [sample_cell (mk_backend 2 [(1, "/tmp")] [modified_a; added_b] false) 1]
           [eff_new 0%nat; eff_call 0%nat (call_addPath "/tmp" "*.txt")]
           (mk_io_service [] false) [] (mk_io_service [] false) true T_run.

(** The client has called [destroy] while the worker is inside the pop
    for handler 7: the client's [impl] is empty, the backend has been told
    to stop, and the worker's pointer is the last one. *)
Definition one_client_destroyed_blocked : sample_System :=
  mk_sample_System [None]
    (mk_sample_World [sample_cell (mk_backend 1 [] [] true) 1]
           [eff_new 0%nat; eff_lock 0%nat; eff_call 0%nat call_destroy;
            eff_release 0%nat]
           (mk_io_service [] false) []
           (mk_io_service [sample_op (Some 0%nat) 8%nat;
                           sample_op (Some 0%nat) 9%nat] false)
           true (T_blocked (sample_op (Some 0%nat) 7%nat)))
    [] [] S_alive.

(** How [one_client_blocked] comes about, and the two statements of
    [destroy] after it. *)
Definition blocked_schedule : list sample_action :=
  [act_open; act_call 0%nat req_construct;
   act_call 0%nat (req_asyncMonitor 7%nat); act_worker;
   act_call 0%nat (req_asyncMonitor 8%nat);
   act_call 0%nat (req_asyncMonitor 9%nat)].

Definition destroyed_blocked_schedule : list sample_action :=
  blocked_schedule ++ [act_destroy_call 0%nat; act_destroy_reset 0%nat].

(** One I/O object, constructed, and a thread inside [monitor] on it: the
    backend has no event. *)
Definition one_client_monitoring : sample_System :=
  mk_sample_System [Some 0%nat] constructed_world [] [0%nat] S_alive.

(** The backend states in which the sample backend's pop returns
    [operation_aborted]: destroyed, and no event left. *)
Definition qb_drained (b : queue_backend) : Prop :=
  qb_destroyed b = true /\ qb_events b = [].

(** Handler 7 is submitted; then the service is destroyed, before the
    worker has taken the operation. *)
Definition teardown_schedule : list sample_action :=
  [act_open; act_call 0%nat req_construct;
   act_call 0%nat (req_asyncMonitor 7%nat);
   act_release_work; act_stop; act_worker; act_teardown].

(** Handler 7 is queued and the backend has an event ready. *)
Definition event_ready_queued : sample_World :=
  mk_sample_World [sample_cell (mk_backend 2 [(1, "/tmp")] [modified_a] false) 1]
           [eff_new 0%nat; eff_call 0%nat (call_addPath "/tmp" "*.txt")]
           (mk_io_service [] false) []
           (mk_io_service [sample_op (Some 0%nat) 7%nat] false)
           true T_run.
(** * Verification *)

(** ** The texts of the two exceptions *)

Lemma last_ascii_app (s t : string) :
  t <> EmptyString -> last_ascii (s +:+ t) = last_ascii t.
Proof.
  intros Ht. induction s as [|a s IH]; [reflexivity|].
  change (String a s +:+ t) with (String a (s +:+ t)).
  cbn [last_ascii]. rewrite IH.
  destruct (s +:+ t) eqn:E; [|reflexivity].
  destruct s; [exfalso; apply Ht; exact E | discriminate E].
Qed.

Lemma append_inv_head (p a b : string) : p +:+ a = p +:+ b -> a = b.
Proof.
  induction p as [|c p IH]; cbn; [tauto|].
  intros H. injection H as H. auto.
Qed.

Lemma length_append (s t : string) :
  String.length (s +:+ t) = (String.length s + String.length t)%nat.
Proof. induction s as [|a s IH]; simpl; [reflexivity | f_equal; exact IH]. Qed.

Lemma append_inv_tail (u : string) : forall s t, s +:+ u = t +:+ u -> s = t.
Proof.
  induction s as [|a s IH]; intros [|c t] H.
  - reflexivity.
  - apply (f_equal String.length) in H.
    rewrite !length_append in H. simpl in H. lia.
  - apply (f_equal String.length) in H.
    rewrite !length_append in H. simpl in H. lia.
  - change (String a (s +:+ u) = String c (t +:+ u)) in H.
    injection H as -> H. f_equal. apply IH, H.
Qed.

(** A C string read off a [std::string] that starts with a part free of
    NUL: that part, then the C string of the rest. *)
Lemma c_str_app (a b : string) : no_nul a -> c_str (a +:+ b) = a +:+ c_str b.
Proof.
  unfold no_nul. induction a as [|c a IH]; [reflexivity|].
  change (String c a +:+ b) with (String c (a +:+ b)). cbn [c_str].
  destruct (Ascii.eqb c "000"); [discriminate|].
  intros [= H]. rewrite (IH H). reflexivity.
Qed.

Lemma no_nul_app (a b : string) : no_nul a -> no_nul b -> no_nul (a +:+ b).
Proof. intros Ha Hb. unfold no_nul. rewrite (c_str_app a b Ha), Hb. reflexivity. Qed.

Lemma message_InvalidPath_ne_UnresolvedSymlink (s t : string) :
  message (InvalidPath s) <> message (UnresolvedSymlink t).
Proof.
  unfold InvalidPath, UnresolvedSymlink, message. intros H.
  apply append_inv_head in H.
  apply (f_equal last_ascii) in H.
  rewrite !last_ascii_app in H by discriminate.
  vm_compute in H. discriminate H.
Qed.

(** The two [throw] statements never build the same exception. *)
Lemma InvalidPath_ne_UnresolvedSymlink (s t : string) :
  InvalidPath s <> UnresolvedSymlink t.
Proof.
  intros H. apply (message_InvalidPath_ne_UnresolvedSymlink s t).
  rewrite H. reflexivity.
Qed.

(** Both are thrown as [std::invalid_argument]: a [catch] clause cannot
    tell them apart by type. *)
Lemma InvalidPath_UnresolvedSymlink_same_class (s t : string) :
  class_of (InvalidPath s) = class_of (UnresolvedSymlink t).
Proof. reflexivity. Qed.

(** For a path string without NUL, [what()] is the whole message. *)
Lemma what_InvalidPath (s : string) :
  no_nul s -> what (InvalidPath s) = what_prefix +:+ s +:+ what_not_valid.
Proof.
  intros Hs. unfold what, InvalidPath, message.
  change (no_nul (what_prefix +:+ s +:+ what_not_valid)).
  apply no_nul_app; [reflexivity|]. apply no_nul_app; [exact Hs | reflexivity].
Qed.

Lemma what_UnresolvedSymlink (s : string) :
  no_nul s -> what (UnresolvedSymlink s) = what_prefix +:+ s +:+ what_symlink.
Proof.
  intros Hs. unfold what, UnresolvedSymlink, message.
  change (no_nul (what_prefix +:+ s +:+ what_symlink)).
  apply no_nul_app; [reflexivity|]. apply no_nul_app; [exact Hs | reflexivity].
Qed.

Lemma what_InvalidPath_ne_UnresolvedSymlink (s t : string) :
  no_nul s -> no_nul t -> what (InvalidPath s) <> what (UnresolvedSymlink t).
Proof.
  intros Hs Ht. rewrite (what_InvalidPath s Hs), (what_UnresolvedSymlink t Ht).
  intros H. apply append_inv_head in H.
  apply (f_equal last_ascii) in H.
  rewrite !last_ascii_app in H by discriminate.
  vm_compute in H. discriminate H.
Qed.

Lemma what_InvalidPath_inj (s t : string) :
  no_nul s -> no_nul t -> what (InvalidPath s) = what (InvalidPath t) -> s = t.
Proof.
  intros Hs Ht. rewrite (what_InvalidPath s Hs), (what_InvalidPath t Ht).
  intros H. apply append_inv_head in H. exact (append_inv_tail _ _ _ H).
Qed.

Lemma what_UnresolvedSymlink_inj (s t : string) :
  no_nul s -> no_nul t ->
  what (UnresolvedSymlink s) = what (UnresolvedSymlink t) -> s = t.
Proof.
  intros Hs Ht. rewrite (what_UnresolvedSymlink s Hs), (what_UnresolvedSymlink t Ht).
  intros H. apply append_inv_head in H. exact (append_inv_tail _ _ _ H).
Qed.

(** ** Registration: addPath and addFile *)

Section Registration.
Context {path : Type} `{FS : Filesystem path}.
Context `{Impl : FileMonitorImplementation path}.
Context {Handler : Type}.

Implicit Types (impl : implementation_type) (p q t : path) (l : loc)
         (x : @cell path Impl) (w : @World path Impl Handler).

Ltac run_m :=
  unfold addPath, addFile, bind, query, query_path, ret, throw.

Lemma addPath_not_directory impl p (regexMatch : string) w :
  is_directory p = Ok false ->
  addPath impl p regexMatch w = Throw (InvalidPath (path_string p)) w.
Proof. intros H. run_m. rewrite H. reflexivity. Qed.

Lemma addPath_query_fails impl p (regexMatch : string) w s :
  is_directory p = Err s ->
  addPath impl p regexMatch w = Throw (boost_filesystem_error s) w.
Proof. intros H. run_m. rewrite H. reflexivity. Qed.

Lemma addFile_not_regular impl p w :
  is_regular_file p = Ok false ->
  addFile impl p w = Throw (InvalidPath (path_string p)) w.
Proof. intros H. run_m. rewrite H. reflexivity. Qed.

Lemma addFile_query_fails impl p w s :
  is_regular_file p = Err s ->
  addFile impl p w = Throw (boost_filesystem_error s) w.
Proof. intros H. run_m. rewrite H. reflexivity. Qed.

Lemma addFile_unresolved impl p t w :
  is_regular_file p = Ok true ->
  is_symlink p = Ok true ->
  read_symlink p = Ok t ->
  path_ne t p = true ->
  addFile impl p w = Throw (UnresolvedSymlink (path_string p)) w.
Proof.
  intros H1 H2 H3 H4. run_m. rewrite H1, H2, H3. cbn. rewrite H4. reflexivity.
Qed.

(** The complete case analysis of [addFile], in the order of its tests. *)
Lemma addFile_cases impl p w :
  (exists s, addFile impl p w = Throw (boost_filesystem_error s) w) \/
  (is_regular_file p = Ok false /\
   addFile impl p w = Throw (InvalidPath (path_string p)) w) \/
  (is_regular_file p = Ok true /\ unresolved_symlink p /\
   addFile impl p w = Throw (UnresolvedSymlink (path_string p)) w) \/
  (accepted_file p /\
   addFile impl p w = invoke impl (call_addFile p) (impl_addFile p) w).
Proof.
  unfold accepted_file, unresolved_symlink. run_m.
  destruct (is_regular_file p) as [[|]|e] eqn:Hr; cbn; [| tauto | eauto].
  destruct (is_symlink p) as [[|]|e] eqn:Hs; cbn; [| | eauto].
  - destruct (read_symlink p) as [t|e] eqn:Ht; cbn; [| eauto].
    destruct (path_ne t p) eqn:Hn.
    + do 2 right. left. eauto 10.
    + do 3 right. eauto 10.
  - do 3 right. eauto 10.
Qed.

(** The complete case analysis of [addPath]. *)
Lemma addPath_cases impl p (regexMatch : string) w :
  (exists s, is_directory p = Err s /\
             addPath impl p regexMatch w = Throw (boost_filesystem_error s) w) \/
  (is_directory p = Ok false /\
   addPath impl p regexMatch w = Throw (InvalidPath (path_string p)) w) \/
  (is_directory p = Ok true /\
   addPath impl p regexMatch w =
     invoke impl (call_addPath p regexMatch) (impl_addPath p regexMatch) w).
Proof.
  unfold addPath, bind, query, ret, throw.
  destruct (is_directory p) as [[|]|s]; cbn; eauto 10.
Qed.

Lemma invoke_outcome {A : Type} impl (c : call path) (f : impl_t -> A * impl_t) w :
  (exists a w', invoke impl c f w = Ret a w') \/
  invoke impl c f w = Throw (assertion_failed "px != 0") w.
Proof.
  unfold invoke. destruct impl as [l|]; [|tauto].
  destruct (alive w l) as [x|]; [|tauto].
  destruct (f (obj x)). eauto.
Qed.

(** C6, as amended: for a path for which the directory test does not
    answer yes, [addPath] returns no watch handle and leaves by an
    exception with the whole world as it was: the store with the backend
    in it, the trace of backend calls (so the backend's [addPath] was not
    called) and the queues. The exception is [InvalidPath] when the test
    answers no, and the [filesystem_error] of the test when the test
    itself fails. *)
Theorem addPath_rejects_non_directory impl p (regexMatch : string) w :
  is_directory p <> Ok true ->
  (exists e,
      addPath impl p regexMatch w = Throw e w /\
      (is_directory p = Ok false -> e = InvalidPath (path_string p)) /\
      (forall s, is_directory p = Err s -> e = boost_filesystem_error s)) /\
  (forall id w', addPath impl p regexMatch w <> Ret id w').
Proof.
  intros Hn.
  destruct (addPath_cases impl p regexMatch w) as [(s & Hs & E)|[[Hf E]|[Ht _]]];
    [| | contradiction]; rewrite E.
  - split; [|discriminate]. eexists. split; [reflexivity|].
    split; intros; congruence.
  - split; [|discriminate]. eexists. split; [reflexivity|].
    split; intros; congruence.
Qed.

(** C7, as amended: for a path for which the regular-file test does not
    answer yes, [addFile] returns no watch handle and leaves by an
    exception at the call, with the world as it was, the trace of backend
    calls included. The exception is [InvalidPath] when the test answers no
    (a path that does not exist among them), and the [filesystem_error] of
    the test when the test itself fails. *)
Theorem addFile_rejects_non_regular_file impl p w :
  is_regular_file p <> Ok true ->
  (exists e,
      addFile impl p w = Throw e w /\
      (is_regular_file p = Ok false -> e = InvalidPath (path_string p)) /\
      (forall s, is_regular_file p = Err s -> e = boost_filesystem_error s)) /\
  (forall id w', addFile impl p w <> Ret id w').
Proof.
  intros Hn.
  destruct (is_regular_file p) as [[|]|s] eqn:Hr; [contradiction| |].
  - rewrite (addFile_not_regular _ _ _ Hr). split; [|discriminate].
    eexists. split; [reflexivity|]. split; intros; congruence.
  - rewrite (addFile_query_fails _ _ _ _ Hr). split; [|discriminate].
    eexists. split; [reflexivity|]. split; intros; congruence.
Qed.

(** C5, as amended: for a path that is a regular file (through the link)
    and a symlink whose link text, as [read_symlink] returns it, differs
    from the path as it was given, [addFile] throws [UnresolvedSymlink] and
    returns no watch handle; and whenever [addFile] returns a handle, the
    path is a regular file that is not such an unresolved symlink. *)
Theorem addFile_rejects_unresolved_symlink_to_regular_file impl p t w :
  is_regular_file p = Ok true ->
  is_symlink p = Ok true ->
  read_symlink p = Ok t ->
  path_ne t p = true ->
  addFile impl p w = Throw (UnresolvedSymlink (path_string p)) w /\
  (forall id w', addFile impl p w <> Ret id w') /\
  (forall q id w', addFile impl q w = Ret id w' ->
                   accepted_file q /\ ~ unresolved_symlink q).
Proof.
  intros H1 H2 H3 H4.
  rewrite (addFile_unresolved _ _ _ _ H1 H2 H3 H4).
  split; [reflexivity|]. split; [discriminate|].
  intros q id w' Hq.
  destruct (addFile_cases impl q w) as [[s E]|[[_ E]|[(_ & _ & E)|[Ha E]]]];
    try (rewrite E in Hq; discriminate Hq).
  split; [exact Ha|].
  destruct Ha as [_ Ha]. intros [Hs (t' & Ht' & Hn)].
  destruct Ha as [Ha | (_ & t'' & Ht'' & Hn'')]; congruence.
Qed.

(** C10, as amended: [addFile] tests for a regular file before it tests
    for a symlink. A symlink whose link text differs from the path and for
    which the regular-file test does not answer yes never gets
    [UnresolvedSymlink]: it gets [InvalidPath] when the test answers no,
    and the [filesystem_error] of the test when the test itself fails. And
    [UnresolvedSymlink] is thrown only for an unresolved symlink that is a
    regular file. *)
Theorem addFile_checks_regular_file_first impl p t w :
  is_symlink p = Ok true ->
  read_symlink p = Ok t ->
  path_ne t p = true ->
  is_regular_file p <> Ok true ->
  (exists e,
      addFile impl p w = Throw e w /\
      e <> UnresolvedSymlink (path_string p) /\
      (is_regular_file p = Ok false -> e = InvalidPath (path_string p)) /\
      (forall s, is_regular_file p = Err s -> e = boost_filesystem_error s)) /\
  (forall q w', addFile impl q w = Throw (UnresolvedSymlink (path_string q)) w' ->
                is_regular_file q = Ok true /\ unresolved_symlink q).
Proof.
  intros _ _ _ Hn. split.
  - destruct (is_regular_file p) as [[|]|s] eqn:Hr; [contradiction| |].
    + rewrite (addFile_not_regular _ _ _ Hr).
      eexists. split; [reflexivity|].
      split; [apply InvalidPath_ne_UnresolvedSymlink|].
      split; intros; congruence.
    + rewrite (addFile_query_fails _ _ _ _ Hr).
      eexists. split; [reflexivity|].
      split; [discriminate|]. split; intros; congruence.
  - intros q w' Hq.
    destruct (addFile_cases impl q w) as [[s E]|[[_ E]|[(Hreg & Hu & _)|[_ E]]]].
    + rewrite E in Hq. discriminate Hq.
    + rewrite E in Hq.
      destruct (InvalidPath_ne_UnresolvedSymlink (path_string q) (path_string q)).
      congruence.
    + tauto.
    + rewrite E in Hq.
      destruct (invoke_outcome impl (call_addFile q) (impl_addFile q) w)
        as [(a & w'' & E')|E']; rewrite E' in Hq; discriminate Hq.
Qed.

(** C8, as amended: the two synchronous registration failures are not two
    types of exception: both are [std::invalid_argument], and a [catch]
    clause sees the same class. They differ in their text [what()], and do
    so whenever the path strings have no NUL character in them: whatever
    the paths, the text for a target that is not a directory ([addPath])
    or not a regular file ([addFile]) differs from the text for an
    unresolved symlink. *)
Theorem InvalidPath_and_UnresolvedSymlink_are_distinct
        impl p (regexMatch : string) q r t w :
  is_directory p = Ok false ->
  is_regular_file q = Ok false ->
  is_regular_file r = Ok true ->
  is_symlink r = Ok true ->
  read_symlink r = Ok t ->
  path_ne t r = true ->
  no_nul (path_string p) -> no_nul (path_string q) -> no_nul (path_string r) ->
  exists e1 e2 e3,
    addPath impl p regexMatch w = Throw e1 w /\
    addFile impl q w = Throw e2 w /\
    addFile impl r w = Throw e3 w /\
    class_of e1 = class_of e3 /\ class_of e2 = class_of e3 /\
    what e1 <> what e3 /\ what e2 <> what e3.
Proof.
  intros Hd Hq H1 H2 H3 H4 Np Nq Nr.
  exists (InvalidPath (path_string p)), (InvalidPath (path_string q)),
         (UnresolvedSymlink (path_string r)).
  split; [exact (addPath_not_directory _ _ _ _ Hd)|].
  split; [exact (addFile_not_regular _ _ _ Hq)|].
  split; [exact (addFile_unresolved _ _ _ _ H1 H2 H3 H4)|].
  split; [reflexivity|]. split; [reflexivity|].
  auto using what_InvalidPath_ne_UnresolvedSymlink.
Qed.

End Registration.

(** ** The shared store *)

Section Store.
Context {path : Type} `{Impl : FileMonitorImplementation path}.
Context {Handler : Type}.

Implicit Types (l : loc) (x : @cell path Impl) (w : @World path Impl Handler).

Lemma alive_Some w l x :
  alive w l = Some x ->
  heap w !! l = Some x /\ use_count x <> 0%nat /\ (l < length (heap w))%nat.
Proof.
  unfold alive. destruct (heap w !! l) as [c|] eqn:E; [|discriminate].
  destruct (Nat.eqb_spec (use_count c) 0); [discriminate|].
  intros [= <-]. eauto using lookup_lt_Some.
Qed.

Lemma alive_lookup w l x :
  heap w !! l = Some x -> use_count x <> 0%nat -> alive w l = Some x.
Proof.
  unfold alive. intros -> Hn.
  destruct (Nat.eqb_spec (use_count x) 0); [contradiction | reflexivity].
Qed.

Lemma alive_expired w l x :
  heap w !! l = Some x -> use_count x = 0%nat -> alive w l = None.
Proof. unfold alive. intros -> ->. reflexivity. Qed.

Lemma observed_None_lock w (wp : weak_ptr) :
  observed w wp = None -> wp_lock wp w = Ret None w.
Proof.
  unfold observed, wp_lock. destruct wp as [l|]; [|reflexivity].
  intros ->. reflexivity.
Qed.

End Store.

(** ** The blocking monitor, destroy, and the asynchronous operation *)

Section Operation.
Context {path : Type} `{Impl : FileMonitorImplementation path}.
Context {Handler : Type}.

Implicit Types (l : loc) (x : @cell path Impl) (w : @World path Impl Handler)
         (op : @MonitorOperation Handler) (impl : implementation_type).

Lemma resume_returns op l x ec ev b' w :
  alive w l = Some x ->
  impl_popFrontEvent (obj x) = Some (ec, ev, b') ->
  MonitorOperation_resume op (Some l) w = Ret tt (resumed op l x ec ev b' w).
Proof.
  intros Ha Hp. destruct (alive_Some _ _ _ Ha) as (Hl & Hn & Hlt).
  unfold MonitorOperation_resume, bind, invoke_popFrontEvent.
  rewrite Ha, Hp. cbn.
  unfold sp_reset, release, host_post, modify, bind, ret. cbn.
  rewrite list_lookup_insert_eq by exact Hlt.
  unfold resumed, log, set_heap, set_host. cbn.
  rewrite list_insert_insert_eq, <- app_assoc. reflexivity.
Qed.

Lemma resume_blocks op l x w :
  alive w l = Some x ->
  impl_popFrontEvent (obj x) = None ->
  MonitorOperation_resume op (Some l) w = Block w.
Proof.
  intros Ha Hp. unfold MonitorOperation_resume, bind, invoke_popFrontEvent.
  rewrite Ha, Hp. reflexivity.
Qed.

Lemma alive_locked l x w :
  alive w l = Some x ->
  alive (locked l x w) l = Some (mk_cell (obj x) (S (use_count x))).
Proof.
  intros Ha. destruct (alive_Some _ _ _ Ha) as (Hl & Hn & Hlt).
  apply alive_lookup; [|discriminate].
  cbn. apply list_lookup_insert_eq, Hlt.
Qed.

Lemma call_locks op l x w :
  mImpl op = Some l ->
  alive w l = Some x ->
  MonitorOperation_call op w = MonitorOperation_resume op (Some l) (locked l x w).
Proof.
  intros Hm Ha. unfold MonitorOperation_call, bind, wp_lock.
  rewrite Hm, Ha. reflexivity.
Qed.

Lemma call_aborts op w :
  observed w (mImpl op) = None ->
  MonitorOperation_call op w = Ret tt (aborted op w).
Proof.
  intros Ho. unfold MonitorOperation_call, bind.
  rewrite (observed_None_lock _ _ Ho). reflexivity.
Qed.

Lemma call_succeeds op l x ec ev b' w :
  mImpl op = Some l ->
  alive w l = Some x ->
  impl_popFrontEvent (obj x) = Some (ec, ev, b') ->
  MonitorOperation_call op w = Ret tt (completed op l x ec ev b' w).
Proof.
  intros Hm Ha Hp. destruct (alive_Some _ _ _ Ha) as (Hl & Hn & Hlt).
  rewrite (call_locks _ _ _ _ Hm Ha).
  rewrite (resume_returns _ _ _ ec ev b' _ (alive_locked _ _ _ Ha) Hp).
  unfold resumed, completed, locked. cbn.
  rewrite list_insert_insert_eq, <- app_assoc.
  destruct (Nat.eqb_spec (use_count x) 0); [contradiction | reflexivity].
Qed.

Lemma call_blocks op l x w :
  mImpl op = Some l ->
  alive w l = Some x ->
  impl_popFrontEvent (obj x) = None ->
  MonitorOperation_call op w = Block (locked l x w).
Proof.
  intros Hm Ha Hp. rewrite (call_locks _ _ _ _ Hm Ha).
  apply (resume_blocks _ _ _ _ (alive_locked _ _ _ Ha) Hp).
Qed.


(** C9: [monitor] is one call of the backend's blocking [popFrontEvent]
    on the caller's thread. When the pop returns [(ec, ev)], [monitor]
    returns that event and that error code unchanged; the only effect is
    that one backend call: neither event loop, nor the worker, nor the
    list of handler calls is touched. While the pop does not return,
    [monitor] does not return either. *)
Theorem monitor_is_one_backend_pop l x w :
  alive w l = Some x ->
  match impl_popFrontEvent (obj x) with
  | Some (ec, ev, b') =>
      exists w',
        monitor (Some l) w = Ret (ev, ec) w' /\
        trace w' = trace w ++ [eff_call l call_popFrontEvent] /\
        heap w' = <[l := mk_cell b' (use_count x)]> (heap w) /\
        host w' = host w /\
        invoked w' = invoked w /\
        mAsyncMonitorIoService w' = mAsyncMonitorIoService w /\
        mAsyncMonitorWork w' = mAsyncMonitorWork w /\
        mAsyncMonitorThread w' = mAsyncMonitorThread w
  | None => monitor (Some l) w = Block w
  end.
Proof.
  intros Ha. unfold monitor, invoke_popFrontEvent. rewrite Ha.
  destruct (impl_popFrontEvent (obj x)) as [[[ec ev] b']|]; [|reflexivity].
  eexists. split; [reflexivity|]. repeat split.
Qed.

Lemma destroy_alive l x w :
  alive w l = Some x ->
  destroy (Some l) w =
    Ret None
        (mk_World (<[l := mk_cell (impl_destroy (obj x)) (Nat.pred (use_count x))]> (heap w))
                  (trace w ++ eff_call l call_destroy :: eff_release l ::
                     (if Nat.eqb (Nat.pred (use_count x)) 0 then [eff_delete l] else []))
                  (host w) (invoked w) (mAsyncMonitorIoService w)
                  (mAsyncMonitorWork w) (mAsyncMonitorThread w)).
Proof.
  intros Ha. destruct (alive_Some _ _ _ Ha) as (Hl & Hn & Hlt).
  unfold destroy, bind, invoke. rewrite Ha. cbn.
  unfold sp_reset, release, ret. cbn.
  rewrite list_lookup_insert_eq by exact Hlt.
  unfold log, set_heap. cbn.
  rewrite list_insert_insert_eq, <- app_assoc. reflexivity.
Qed.

(** C4: whenever [destroy] returns, it has called the backend's own
    [destroy] first and released the strong reference after it: these
    are the two effects it adds to the trace, in this order (followed by
    the deletion of the backend if that reference was the last), and the
    object that is released is the destroyed backend. With an empty
    [impl] the dereference fails before anything is released. *)
Theorem destroy_calls_backend_then_releases impl w :
  match destroy impl w with
  | Ret impl' w' =>
      impl' = None /\
      exists l x,
        impl = Some l /\ alive w l = Some x /\
        trace w' =
          trace w ++ eff_call l call_destroy :: eff_release l ::
            (if Nat.eqb (Nat.pred (use_count x)) 0 then [eff_delete l] else []) /\
        heap w' !! l =
          Some (mk_cell (impl_destroy (obj x)) (Nat.pred (use_count x)))
  | Throw e w' => observed w impl = None /\ w' = w
  | Block _ => False
  end.
Proof.
  destruct impl as [l|]; [|cbn; auto].
  destruct (alive w l) as [x|] eqn:Ha.
  - rewrite (destroy_alive _ _ _ Ha). split; [reflexivity|].
    exists l, x. split; [reflexivity|]. split; [exact Ha|].
    split; [reflexivity|]. cbn.
    apply list_lookup_insert_eq. apply (alive_Some _ _ _ Ha).
  - unfold destroy, bind, invoke. rewrite Ha. cbn. auto.
Qed.

End Operation.

(** ** Runs of the worker and of the host loop *)

Section Runs.
Context {path : Type} `{Impl : FileMonitorImplementation path}.
Context {Handler : Type}.

Implicit Types (l : loc) (x : @cell path Impl) (w : @World path Impl Handler)
         (op : @MonitorOperation Handler)
         (q Q : list (@MonitorOperation Handler))
         (base : list (@completion path Impl Handler)).

Lemma worker_run_rtc (n : nat) : forall w w',
  worker_run n w = Some w' -> rtc run_step w w'.
Proof.
  induction n as [|n IH]; intros w w'; cbn.
  - intros [= <-]. apply rtc_refl.
  - destruct (worker_step w) as [w1|] eqn:E; [|discriminate].
    intros H. eapply rtc_l; [apply run_worker, E | apply IH, H].
Qed.

Lemma host_run_rtc (n : nat) : forall w w',
  host_run n w = Some w' -> rtc run_step w w'.
Proof.
  induction n as [|n IH]; intros w w'; cbn.
  - intros [= <-]. apply rtc_refl.
  - destruct (host_step w) as [w1|] eqn:E; [|discriminate].
    intros H. eapply rtc_l; [apply run_host, E | apply IH, H].
Qed.

(** The oldest of the operations that are left. *)
Lemma next_pending (P : @MonitorOperation Handler -> Prop) Q (n : nat) op rest :
  Forall P Q ->
  drop n Q = op :: rest ->
  P op /\ rest = drop (S n) Q /\ take (S n) Q = take n Q ++ [op].
Proof.
  intros HQ Hd.
  assert (Hl : Q !! n = Some op).
  { rewrite <- (Nat.add_0_r n), <- lookup_drop, Hd. reflexivity. }
  split; [exact (proj1 (Forall_lookup P Q) HQ n op Hl)|].
  split; [|apply take_S_r, Hl].
  rewrite (drop_S _ _ _ Hl) in Hd. congruence.
Qed.

Lemma observed_heap w w' (wp : weak_ptr) :
  heap w' = heap w -> observed w' wp = observed w wp.
Proof. unfold observed, alive. intros ->. reflexivity. Qed.

(** The worker takes an operation whose backend is gone: the abort
    branch, at once. *)
Lemma worker_step_expired op q w :
  mAsyncMonitorThread w = T_run ->
  mAsyncMonitorIoService w = mk_io_service (op :: q) false ->
  observed w (mImpl op) = None ->
  worker_step w = Some (aborted op (set_ios (mk_io_service q false) w)).
Proof.
  intros Ht Hq Ho. unfold worker_step. rewrite Ht, Hq. cbn.
  rewrite call_aborts; [reflexivity|].
  rewrite <- Ho. apply observed_heap. reflexivity.
Qed.

(** It drains a queue of such operations, one abort completion each, in
    the order of the queue. *)
Lemma worker_run_expired q : forall w,
  mAsyncMonitorThread w = T_run ->
  mAsyncMonitorIoService w = mk_io_service q false ->
  Forall (fun op => observed w (mImpl op) = None) q ->
  worker_run (length q) w =
    Some (mk_World (heap w) (trace w)
            (mk_io_service (ios_queue (host w) ++ map aborted_completion q)
                           (ios_stopped (host w)))
            (invoked w) (mk_io_service [] false) (mAsyncMonitorWork w) T_run).
Proof.
  induction q as [|op q IH]; intros w Ht Hq Hall.
  - cbn. rewrite app_nil_r. destruct w as [h t [hq hs] i m k th].
    cbn in *. subst. reflexivity.
  - inversion Hall as [|? ? Ho Hall']; subst.
    cbn [length worker_run].
    rewrite (worker_step_expired _ _ _ Ht Hq Ho).
    rewrite IH; [| exact Ht | reflexivity |].
    + cbn. rewrite <- app_assoc. reflexivity.
    + eapply Forall_impl; [exact Hall'|]. intros op' Ho'. cbn in Ho'.
      rewrite <- Ho'. apply observed_heap. reflexivity.
Qed.

(** The host loop calls the posted handlers, oldest first. *)
Lemma host_run_all (cs : list completion) : forall w,
  ios_queue (host w) = cs ->
  host_run (length cs) w =
    Some (set_invoked (invoked w ++ cs)
            (set_host (mk_io_service [] (ios_stopped (host w))) w)).
Proof.
  induction cs as [|c cs IH]; intros w Hq.
  - cbn. rewrite app_nil_r. destruct w as [h t [hq hs] i m k th].
    cbn in *. subst. reflexivity.
  - cbn [length host_run]. unfold host_step. rewrite Hq.
    rewrite IH by reflexivity.
    cbn. rewrite <- app_assoc. reflexivity.
Qed.

Lemma Forall2_aborted_completion q :
  Forall2 aborted_call q (map aborted_completion q).
Proof. induction q; constructor; [split; reflexivity | assumption]. Qed.

Lemma resume_keeps_worker_queue op (impl : implementation_type) w w' :
  MonitorOperation_resume op impl w = Ret tt w' ->
  mAsyncMonitorIoService w' = mAsyncMonitorIoService w.
Proof.
  unfold MonitorOperation_resume, bind, invoke_popFrontEvent.
  destruct impl as [l|]; [|discriminate].
  destruct (alive w l) as [x|]; [|discriminate].
  destruct (impl_popFrontEvent (obj x)) as [[[ec ev] b']|]; [|discriminate].
  cbn. unfold release. cbn.
  destruct (_ !! l); intros [= <-]; reflexivity.
Qed.

(** Two steps are all [join] needs once the loop is stopped: it returns
    with the worker out of [run], or the worker is inside a pop that
    does not return and the caller is kept waiting. *)
Lemma join_after_stop w :
  ios_stopped (mAsyncMonitorIoService w) = true ->
  match join 2 w with
  | Ret _ w' => mAsyncMonitorThread w' = T_exited
  | Block w' => worker_step w' = None /\ exists op, mAsyncMonitorThread w' = T_blocked op
  | Throw _ _ => False
  end.
Proof.
  intros Hs. cbn [join]. unfold worker_step.
  destruct (mAsyncMonitorThread w) as [|op|] eqn:Ht; [| |exact Ht].
  - rewrite Hs. reflexivity.
  - destruct (MonitorOperation_resume op (mImpl op) w) as [[] w'| |] eqn:Hr;
      [| rewrite Ht, Hr; eauto ..].
    cbn. rewrite (resume_keeps_worker_queue _ _ _ _ Hr), Hs. reflexivity.
Qed.

(** The destructor of the service, run when the worker is between two
    operations: the worker returns from [run] without taking anything
    from its queue, and what was queued is destroyed uncalled. *)
Lemma dtor_idle w :
  mAsyncMonitorThread w = T_run ->
  BasicFileMonitorService_dtor w =
    Ret tt (mk_World (heap w) (trace w) (host w) (invoked w)
                     (mk_io_service [] true) false T_exited).
Proof.
  intros Ht. unfold BasicFileMonitorService_dtor, bind, modify.
  cbn. unfold worker_step. cbn. rewrite Ht. cbn. reflexivity.
Qed.

(** The destructor of the service, run when the worker is inside a pop
    that returns: the worker finishes that one operation, then returns
    from [run]; what was queued is destroyed uncalled. *)
Lemma dtor_blocked w r l x ec ev (b' : impl_t) :
  mAsyncMonitorThread w = T_blocked r ->
  mImpl r = Some l ->
  alive w l = Some x ->
  impl_popFrontEvent (obj x) = Some (ec, ev, b') ->
  exists w',
    BasicFileMonitorService_dtor w = Ret tt w' /\
    mAsyncMonitorThread w' = T_exited /\
    ios_queue (mAsyncMonitorIoService w') = [] /\
    invoked w' = invoked w /\
    ios_queue (host w') = ios_queue (host w) ++ [bind_handler (mHandler r) ec ev].
Proof.
  intros Ht Hr Ha Hp.
  unfold BasicFileMonitorService_dtor, bind, modify.
  cbn. unfold worker_step. cbn. rewrite Ht, Hr.
  erewrite resume_returns; [| rewrite <- Ha; reflexivity | exact Hp].
  cbn. eexists. split; [reflexivity|]. repeat split.
Qed.

End Runs.


(** * More of the service *)

(** ** Registration, the paths that are let through *)

Section Delegation.
Context {path : Type} `{FS : Filesystem path}.
Context `{Impl : FileMonitorImplementation path}.
Context {Handler : Type}.

Implicit Types (impl : implementation_type) (p q : path) (l : loc)
         (x : @cell path Impl) (w : @World path Impl Handler).

Lemma invoke_alive {A : Type} l x (c : call path) (f : impl_t -> A * impl_t) w :
  alive w l = Some x ->
  invoke (Some l) c f w =
    Ret (fst (f (obj x))) (after_call l c (snd (f (obj x))) x w).
Proof.
  intros Ha. unfold invoke. rewrite Ha. destruct (f (obj x)). reflexivity.
Qed.

Lemma invoke_dead {A : Type} impl (c : call path) (f : impl_t -> A * impl_t) w :
  observed w impl = None ->
  invoke impl c f w = Throw (assertion_failed "px != 0") w.
Proof.
  unfold invoke, observed. destruct impl as [l|]; [|reflexivity].
  intros ->. reflexivity.
Qed.

(** What [invoke] does, by the state of the pointer. *)
Lemma invoke_inv {A : Type} impl (c : call path) (f : impl_t -> A * impl_t) w :
  (exists l x, impl = Some l /\ alive w l = Some x /\
               invoke impl c f w =
                 Ret (fst (f (obj x))) (after_call l c (snd (f (obj x))) x w)) \/
  (observed w impl = None /\
   invoke impl c f w = Throw (assertion_failed "px != 0") w).
Proof.
  destruct (observed w impl) as [x|] eqn:Ho.
  - left. destruct impl as [l|]; [|discriminate]. cbn in Ho.
    exists l, x. auto using invoke_alive.
  - right. auto using invoke_dead.
Qed.

(** X1: [addPath] returns a watch handle exactly for a directory and a live
    backend: the handle is the one the backend's [addPath] returns, and
    the one effect is that backend call. *)
Theorem addPath_returns_backend_handle impl p (regexMatch : string) w id w' :
  addPath impl p regexMatch w = Ret id w' <->
  is_directory p = Ok true /\
  exists l x,
    impl = Some l /\ alive w l = Some x /\
    id = fst (impl_addPath p regexMatch (obj x)) /\
    w' = after_call l (call_addPath p regexMatch)
                    (snd (impl_addPath p regexMatch (obj x))) x w.
Proof.
  split.
  - intros H.
    destruct (addPath_cases impl p regexMatch w)
      as [(s & _ & E)|[[_ E]|[Hd E]]]; rewrite E in H; try discriminate H.
    split; [exact Hd|].
    destruct (invoke_inv impl (call_addPath p regexMatch)
                (impl_addPath p regexMatch) w)
      as [(l & x & Hi & Ha & E')|[_ E']]; rewrite E' in H; [|discriminate H].
    injection H as <- <-. exists l, x. auto.
  - intros (Hd & l & x & -> & Ha & -> & ->).
    destruct (addPath_cases (Some l) p regexMatch w)
      as [(s & Hs & _)|[[Hf _]|[_ E]]]; [congruence | congruence |].
    rewrite E. apply invoke_alive, Ha.
Qed.

(** X2: [addFile] returns a watch handle exactly for a path that is a regular
    file and not an unresolved symlink, and a live backend: the handle is
    the one the backend's [addFile] returns and the one effect is that
    backend call. For a regular file that is no symlink, [read_symlink] is
    not consulted at all. *)
Theorem addFile_returns_backend_handle impl p w id w' :
  addFile impl p w = Ret id w' <->
  accepted_file p /\
  exists l x,
    impl = Some l /\ alive w l = Some x /\
    id = fst (impl_addFile p (obj x)) /\
    w' = after_call l (call_addFile p) (snd (impl_addFile p (obj x))) x w.
Proof.
  split.
  - intros H.
    destruct (addFile_cases impl p w) as [[s E]|[[_ E]|[(_ & _ & E)|[Hacc E]]]];
      rewrite E in H; try discriminate H.
    split; [exact Hacc|].
    destruct (invoke_inv impl (call_addFile p) (impl_addFile p) w)
      as [(l & x & Hi & Ha & E')|[_ E']]; rewrite E' in H; [|discriminate H].
    injection H as <- <-. exists l, x. auto.
  - intros ([Hr Hs] & l & x & -> & Ha & -> & ->).
    rewrite <- (invoke_alive l x (call_addFile p) (impl_addFile p) w Ha).
    unfold addFile, bind, query, query_path, ret, throw. rewrite Hr. cbn.
    destruct Hs as [-> | (-> & t & -> & Hn)]; cbn; [reflexivity|].
    rewrite Hn. reflexivity.
Qed.

(** X3: The text of a registration failure tells which test failed and for
    which path, as long as the path strings have no NUL character in
    them: a [std::invalid_argument] of the registration functions is the
    invalid-path or the unresolved-symlink exception for the path of the
    call, and two of them have the same [what()] exactly when the paths
    have the same [string()] and both failed the same test. *)
Theorem registration_failure_text_tells_path_and_test
        impl p (regexMatch : string) q w e1 e2 w1 w2 :
  addPath impl p regexMatch w = Throw e1 w1 \/ addFile impl p w = Throw e1 w1 ->
  addFile impl q w = Throw e2 w2 ->
  class_of e1 = cls_invalid_argument ->
  class_of e2 = cls_invalid_argument ->
  no_nul (path_string p) -> no_nul (path_string q) ->
  (e1 = InvalidPath (path_string p) \/ e1 = UnresolvedSymlink (path_string p)) /\
  (e2 = InvalidPath (path_string q) \/ e2 = UnresolvedSymlink (path_string q)) /\
  (what e1 = what e2 <->
   path_string p = path_string q /\
   ((e1 = InvalidPath (path_string p) /\ e2 = InvalidPath (path_string q)) \/
    (e1 = UnresolvedSymlink (path_string p) /\
     e2 = UnresolvedSymlink (path_string q)))).
Proof.
  intros H1 H2 Hc1 Hc2 Np Nq.
  assert (K1 : e1 = InvalidPath (path_string p) \/
               e1 = UnresolvedSymlink (path_string p)).
  { destruct H1 as [H1|H1].
    - destruct (addPath_cases impl p regexMatch w)
        as [(s & _ & E)|[[_ E]|[_ E]]]; rewrite E in H1.
      + injection H1 as <- _. discriminate Hc1.
      + injection H1 as <- _. auto.
      + destruct (invoke_inv impl (call_addPath p regexMatch)
                    (impl_addPath p regexMatch) w)
          as [(l & x & _ & _ & E')|[_ E']]; rewrite E' in H1;
          [discriminate H1 | injection H1 as <- _; discriminate Hc1].
    - destruct (addFile_cases impl p w) as [[s E]|[[_ E]|[(_ & _ & E)|[_ E]]]];
        rewrite E in H1.
      + injection H1 as <- _. discriminate Hc1.
      + injection H1 as <- _. auto.
      + injection H1 as <- _. auto.
      + destruct (invoke_inv impl (call_addFile p) (impl_addFile p) w)
          as [(l & x & _ & _ & E')|[_ E']]; rewrite E' in H1;
          [discriminate H1 | injection H1 as <- _; discriminate Hc1]. }
  assert (K2 : e2 = InvalidPath (path_string q) \/
               e2 = UnresolvedSymlink (path_string q)).
  { destruct (addFile_cases impl q w) as [[s E]|[[_ E]|[(_ & _ & E)|[_ E]]]];
      rewrite E in H2.
    - injection H2 as <- _. discriminate Hc2.
    - injection H2 as <- _. auto.
    - injection H2 as <- _. auto.
    - destruct (invoke_inv impl (call_addFile q) (impl_addFile q) w)
        as [(l & x & _ & _ & E')|[_ E']]; rewrite E' in H2;
        [discriminate H2 | injection H2 as <- _; discriminate Hc2]. }
  split; [exact K1|]. split; [exact K2|]. split.
  - intros Hw. destruct K1 as [-> | ->], K2 as [-> | ->].
    + split; [exact (what_InvalidPath_inj _ _ Np Nq Hw) | auto].
    + destruct (what_InvalidPath_ne_UnresolvedSymlink _ _ Np Nq Hw).
    + destruct (what_InvalidPath_ne_UnresolvedSymlink _ _ Nq Np (eq_sym Hw)).
    + split; [exact (what_UnresolvedSymlink_inj _ _ Np Nq Hw) | auto].
  - intros [Hpq [[-> ->]|[-> ->]]]; rewrite Hpq; reflexivity.
Qed.

End Delegation.

(** ** Exceptions, construct and destroy *)

Section Lifecycle.
Context {path : Type} `{FS : Filesystem path}.
Context `{Impl : FileMonitorImplementation path}.
Context {Handler : Type}.

Implicit Types (impl : implementation_type) (p q : path) (l : loc)
         (x : @cell path Impl) (w : @World path Impl Handler).

Lemma invoke_throw {A : Type} impl (c : call path) (f : impl_t -> A * impl_t)
      w e w' :
  invoke impl c f w = Throw e w' ->
  w' = w /\ e = assertion_failed "px != 0" /\ observed w impl = None.
Proof.
  destruct (invoke_inv impl c f w) as [(l & x & _ & _ & E)|[Ho E]];
    rewrite E; [discriminate|].
  intros [= <- <-]. auto.
Qed.

Lemma addPath_throw impl p (regexMatch : string) w e w' :
  addPath impl p regexMatch w = Throw e w' ->
  w' = w /\ (class_of e = cls_assertion -> observed w impl = None).
Proof.
  destruct (addPath_cases impl p regexMatch w) as [(s & _ & E)|[[_ E]|[_ E]]];
    rewrite E.
  - intros [= <- <-]. split; [reflexivity | discriminate].
  - intros [= <- <-]. split; [reflexivity | discriminate].
  - intros H. apply invoke_throw in H as (-> & _ & Ho). auto.
Qed.

Lemma addFile_throw impl p w e w' :
  addFile impl p w = Throw e w' ->
  w' = w /\ (class_of e = cls_assertion -> observed w impl = None).
Proof.
  destruct (addFile_cases impl p w) as [[s E]|[[_ E]|[(_ & _ & E)|[_ E]]]];
    rewrite E.
  - intros [= <- <-]. split; [reflexivity | discriminate].
  - intros [= <- <-]. split; [reflexivity | discriminate].
  - intros [= <- <-]. split; [reflexivity | discriminate].
  - intros H. apply invoke_throw in H as (-> & _ & Ho). auto.
Qed.

Lemma monitor_throw impl w e w' :
  monitor impl w = Throw e w' ->
  w' = w /\ observed w impl = None.
Proof.
  unfold monitor, invoke_popFrontEvent, observed.
  destruct impl as [l|]; [|intros [= <- <-]; auto].
  destruct (alive w l) as [x|]; [|intros [= <- <-]; auto].
  destruct (impl_popFrontEvent (obj x)) as [[[ec ev] b']|]; discriminate.
Qed.

Lemma destroy_throw impl w e w' :
  destroy impl w = Throw e w' ->
  w' = w /\ observed w impl = None.
Proof.
  unfold destroy, bind.
  destruct (invoke_inv impl call_destroy (fun b => (tt, impl_destroy b)) w)
    as [(l & x & -> & _ & E)|[Ho E]]; rewrite E; [discriminate|].
  intros [= <- <-]. auto.
Qed.

Lemma construct_returns impl w :
  exists w', construct impl w = Ret (Some (length (heap w))) w'.
Proof. unfold construct, sp_reset_new. destruct impl; eauto. Qed.

Lemma release_lookup l x w :
  heap w !! l = Some x ->
  release l w =
    mk_World (<[l := mk_cell (obj x) (Nat.pred (use_count x))]> (heap w))
             (trace w ++ eff_release l ::
                (if Nat.eqb (Nat.pred (use_count x)) 0 then [eff_delete l] else []))
             (host w) (invoked w) (mAsyncMonitorIoService w)
             (mAsyncMonitorWork w) (mAsyncMonitorThread w).
Proof. unfold release. intros ->. reflexivity. Qed.

(** The world in which [new FileMonitorImplementation()] has been done. *)
Lemma construct_empty w :
  construct None w =
    Ret (Some (length (heap w)))
        (mk_World (heap w ++ [mk_cell impl_ctor 1])
                  (trace w ++ [eff_new (length (heap w))])
                  (host w) (invoked w) (mAsyncMonitorIoService w)
                  (mAsyncMonitorWork w) (mAsyncMonitorThread w)).
Proof. reflexivity. Qed.

Lemma construct_over old x w :
  heap w !! old = Some x ->
  construct (Some old) w =
    Ret (Some (length (heap w)))
        (mk_World (<[old := mk_cell (obj x) (Nat.pred (use_count x))]>
                     (heap w ++ [mk_cell impl_ctor 1]))
                  (trace w ++ eff_new (length (heap w)) :: eff_release old ::
                     (if Nat.eqb (Nat.pred (use_count x)) 0
                      then [eff_delete old] else []))
                  (host w) (invoked w) (mAsyncMonitorIoService w)
                  (mAsyncMonitorWork w) (mAsyncMonitorThread w)).
Proof.
  intros Hx. unfold construct, sp_reset_new.
  erewrite release_lookup.
  2:{ cbn. etrans; [apply lookup_app_l; eapply lookup_lt_Some; exact Hx | exact Hx]. }
  cbn. rewrite <- app_assoc. reflexivity.
Qed.

Lemma lookup_fresh w (c : @cell path Impl) :
  (heap w ++ [c]) !! length (heap w) = Some c.
Proof. apply list_lookup_middle. reflexivity. Qed.

(** X5: [construct] returns with [impl] pointing to a backend that did not
    exist before, freshly constructed and owned by [impl] alone. The
    backends that exist are left alone, except the one [impl] pointed to
    before: it loses this owner, and its [destroy] is not called. *)
Theorem construct_makes_fresh_backend impl w :
  (forall l, impl = Some l -> (l < length (heap w))%nat) ->
  exists w',
    construct impl w = Ret (Some (length (heap w))) w' /\
    alive w (length (heap w)) = None /\
    alive w' (length (heap w)) = Some (mk_cell impl_ctor 1) /\
    (forall l, (l < length (heap w))%nat -> Some l <> impl ->
               heap w' !! l = heap w !! l) /\
    (forall l x, impl = Some l -> heap w !! l = Some x ->
                 heap w' !! l = Some (mk_cell (obj x) (Nat.pred (use_count x))) /\
                 eff_call l call_destroy ∉ drop (length (trace w)) (trace w')) /\
    host w' = host w /\ invoked w' = invoked w /\
    mAsyncMonitorIoService w' = mAsyncMonitorIoService w /\
    mAsyncMonitorThread w' = mAsyncMonitorThread w.
Proof.
  intros Hvalid.
  assert (Hnone : alive w (length (heap w)) = None).
  { unfold alive.
    replace (heap w !! length (heap w)) with (@None (@cell path Impl));
      [reflexivity|].
    symmetry. apply lookup_ge_None_2. lia. }
  destruct impl as [old|].
  - specialize (Hvalid old eq_refl).
    destruct (lookup_lt_is_Some_2 _ _ Hvalid) as [c Hc].
    rewrite (construct_over _ _ _ Hc).
    eexists. split; [reflexivity|]. split; [exact Hnone|]. cbn.
    split.
    { apply alive_lookup; [|discriminate]. cbn.
      etrans; [apply list_lookup_insert_ne; lia | apply lookup_fresh]. }
    split.
    { intros l Hl Hne.
      etrans; [apply list_lookup_insert_ne; intros ->; apply Hne; reflexivity
              | apply lookup_app_l, Hl]. }
    split; [|repeat split].
    intros l x [= <-] Hx.
    pose proof (eq_trans (eq_sym Hx) Hc) as E. injection E as ->.
    split.
    + apply list_lookup_insert_eq. rewrite length_app. lia.
    + rewrite drop_app_length.
      destruct (Nat.pred (use_count c) =? 0)%nat;
        rewrite !elem_of_cons; intros H;
        repeat (destruct H as [H|H]; [discriminate H|]);
        inversion H.
  - rewrite construct_empty.
    eexists. split; [reflexivity|]. split; [exact Hnone|]. cbn.
    split; [apply alive_lookup; [cbn; apply lookup_fresh | discriminate]|].
    split; [intros l Hl _; apply lookup_app_l, Hl|].
    split; [discriminate | repeat split].
Qed.

(** X6: [construct] followed by [destroy] of what it made: the backend's own
    [destroy] is called, the backend is deleted, [impl] is empty again and
    nothing observes the backend any more; every backend that existed
    before is as it was. *)
Theorem construct_then_destroy w :
  exists w1 w2,
    construct None w = Ret (Some (length (heap w))) w1 /\
    destroy (Some (length (heap w))) w1 = Ret None w2 /\
    observed w2 (Some (length (heap w))) = None /\
    trace w2 =
      trace w ++ [eff_new (length (heap w));
                  eff_call (length (heap w)) call_destroy;
                  eff_release (length (heap w));
                  eff_delete (length (heap w))] /\
    (forall l, (l < length (heap w))%nat -> heap w2 !! l = heap w !! l) /\
    host w2 = host w /\ invoked w2 = invoked w /\
    mAsyncMonitorIoService w2 = mAsyncMonitorIoService w /\
    mAsyncMonitorThread w2 = mAsyncMonitorThread w.
Proof.
  assert (Ha : alive (mk_World (heap w ++ [mk_cell impl_ctor 1])
                        (trace w ++ [eff_new (length (heap w))])
                        (host w) (invoked w) (mAsyncMonitorIoService w)
                        (mAsyncMonitorWork w) (mAsyncMonitorThread w))
                     (length (heap w)) = Some (mk_cell impl_ctor 1)).
  { apply alive_lookup; [cbn; apply lookup_fresh | discriminate]. }
  eexists _, _. split; [apply construct_empty|].
  split; [exact (destroy_alive _ _ _ Ha)|].
  destruct (alive_Some _ _ _ Ha) as (_ & _ & Hlt).
  split.
  { cbn. eapply alive_expired; [cbn; apply list_lookup_insert_eq, Hlt | reflexivity]. }
  split; [cbn; rewrite <- app_assoc; reflexivity|].
  split; [|cbn; auto].
  intros l Hl. cbn.
  etrans; [apply list_lookup_insert_ne; lia | apply lookup_app_l, Hl].
Qed.

End Lifecycle.

(** ** The worker loop *)

Section WorkerLoop.
Context {path : Type} `{Impl : FileMonitorImplementation path}.
Context {Handler : Type}.

Implicit Types (impl : implementation_type) (l : loc)
         (x : @cell path Impl) (w : @World path Impl Handler)
         (op : @MonitorOperation Handler)
         (ops : list (@MonitorOperation Handler))
         (hs : list Handler).

Lemma asyncMonitor_all_queue impl hs : forall w,
  asyncMonitor_all impl hs w =
    Ret tt (set_ios (mk_io_service
                       (ios_queue (mAsyncMonitorIoService w) ++
                        map (mk_MonitorOperation impl) hs)
                       (ios_stopped (mAsyncMonitorIoService w))) w).
Proof.
  induction hs as [|h hs IH]; intros w.
  - cbn. rewrite app_nil_r. destruct w as [? ? ? ? [? ?] ? ?]. reflexivity.
  - cbn [asyncMonitor_all]. unfold bind, asyncMonitor, modify.
    rewrite IH. cbn. rewrite <- app_assoc. reflexivity.
Qed.

Lemma pop_all_length (n : nat) : forall (b b' : impl_t) rs,
  pop_all n b = Some (rs, b') -> length rs = n.
Proof.
  induction n as [|n IH]; intros b b' rs; cbn.
  - intros [= <- _]. reflexivity.
  - destruct (impl_popFrontEvent b) as [[[ec ev] b1]|]; [|discriminate].
    destruct (pop_all n b1) as [[rs1 b2]|] eqn:E; [|discriminate].
    intros [= <- _]. cbn. f_equal. exact (IH _ _ _ E).
Qed.

(** The worker takes an operation whose backend is alive and has a result
    ready: the whole [operator()] runs. *)
Lemma worker_step_ready op ops l x ec ev (b1 : impl_t) w :
  mAsyncMonitorThread w = T_run ->
  mAsyncMonitorIoService w = mk_io_service (op :: ops) false ->
  mImpl op = Some l ->
  alive w l = Some x ->
  impl_popFrontEvent (obj x) = Some (ec, ev, b1) ->
  worker_step w =
    Some (completed op l x ec ev b1 (set_ios (mk_io_service ops false) w)).
Proof.
  intros Ht Hq Hm Ha Hp. unfold worker_step. rewrite Ht, Hq. cbn.
  rewrite (call_succeeds op l x ec ev b1); [reflexivity | exact Hm | | exact Hp].
  rewrite <- Ha. reflexivity.
Qed.

Lemma cell_eta x : mk_cell (obj x) (use_count x) = x.
Proof. destruct x. reflexivity. Qed.

(** It serves a queue of such operations one by one, oldest first, each
    with one pop of the backend. *)
Lemma worker_run_ready l ops : forall w x rs (b' : impl_t),
  mAsyncMonitorThread w = T_run ->
  mAsyncMonitorIoService w = mk_io_service ops false ->
  Forall (fun op => mImpl op = Some l) ops ->
  alive w l = Some x ->
  pop_all (length ops) (obj x) = Some (rs, b') ->
  worker_run (length ops) w =
    Some (mk_World (<[l := mk_cell b' (use_count x)]> (heap w))
            (trace w ++
             concat (replicate (length ops)
                       [eff_lock l; eff_call l call_popFrontEvent; eff_release l]))
            (mk_io_service
               (ios_queue (host w) ++ zip_with completion_of (map mHandler ops) rs)
               (ios_stopped (host w)))
            (invoked w) (mk_io_service [] false) (mAsyncMonitorWork w) T_run).
Proof.
  induction ops as [|op ops IH]; intros w x rs b' Ht Hq Hall Ha Hp.
  - cbn in Hp. injection Hp as <- <-.
    destruct (alive_Some _ _ _ Ha) as (Hl & _ & _).
    rewrite cell_eta.
    replace (<[l := x]> (heap w)) with (heap w)
      by (symmetry; apply list_insert_id, Hl).
    cbn. rewrite !app_nil_r.
    destruct w as [? ? [? ?] ? ? ? ?]. cbn in *. subst. reflexivity.
  - apply Forall_cons in Hall as [Hm Hall].
    cbn [length pop_all] in Hp.
    destruct (impl_popFrontEvent (obj x)) as [[[ec ev] b1]|] eqn:Hpop;
      [|discriminate].
    destruct (pop_all (length ops) b1) as [[rs1 b2]|] eqn:Hrest; [|discriminate].
    injection Hp as <- <-.
    destruct (alive_Some _ _ _ Ha) as (_ & Hn & Hlt).
    cbn [length worker_run].
    rewrite (worker_step_ready _ _ _ _ _ _ _ _ Ht Hq Hm Ha Hpop).
    rewrite (IH _ (mk_cell b1 (use_count x)) rs1 b2);
      [| exact Ht | reflexivity | exact Hall
       | apply alive_lookup; [cbn; apply list_lookup_insert_eq, Hlt | exact Hn]
       | exact Hrest].
    cbn. rewrite list_insert_insert_eq, <- !app_assoc. reflexivity.
Qed.

(** X7: Handlers submitted with [asyncMonitor] on an idle service are served
    in the order of submission: if the backend has a result for each of
    them, the worker pops once per operation, and the host loop calls the
    first handler with the first result, the second with the second, and
    so on, each handler once. *)
Theorem asyncMonitor_serves_in_order l x w hs rs (b' : impl_t) :
  mAsyncMonitorThread w = T_run ->
  mAsyncMonitorIoService w = mk_io_service [] false ->
  alive w l = Some x ->
  pop_all (length hs) (obj x) = Some (rs, b') ->
  exists w1 w2 w3,
    asyncMonitor_all (Some l) hs w = Ret tt w1 /\
    worker_run (length hs) w1 = Some w2 /\
    host_run (length (ios_queue (host w)) + length hs) w2 = Some w3 /\
    invoked w3 =
      invoked w ++ ios_queue (host w) ++ zip_with completion_of hs rs /\
    heap w3 = <[l := mk_cell b' (use_count x)]> (heap w) /\
    trace w3 =
      trace w ++
      concat (replicate (length hs)
                [eff_lock l; eff_call l call_popFrontEvent; eff_release l]) /\
    pending w3 = [] /\ ios_queue (host w3) = [].
Proof.
  intros Ht Hq Ha Hp.
  pose proof (pop_all_length _ _ _ _ Hp) as Hlen.
  eexists _, _, _. split; [apply asyncMonitor_all_queue|].
  rewrite Hq. cbn [ios_queue ios_stopped app].
  split.
  { rewrite <- (length_map (mk_MonitorOperation (Some l)) hs).
    apply (worker_run_ready l _ _ x rs b'); try assumption; try reflexivity.
    - apply Forall_map, Forall_forall. reflexivity.
    - rewrite length_map. exact Hp. }
  rewrite map_map. cbn. rewrite map_id.
  split.
  { replace (length (ios_queue (host w)) + length hs)%nat
      with (length (ios_queue (host w) ++ zip_with completion_of hs rs)).
    2:{ rewrite length_app, length_zip_with. lia. }
    apply host_run_all. reflexivity. }
  cbn. repeat split.
  rewrite length_map. reflexivity.
Qed.

(** X8: [asyncMonitor] on an [impl] that refers to no live backend (empty, or
    the backend already gone) is accepted all the same; when the worker
    gets to the operation it touches no backend, and the handler is called
    once, with [operation_aborted] and a default constructed event. *)
Theorem asyncMonitor_without_backend_aborts impl (h : Handler) w :
  observed w impl = None ->
  mAsyncMonitorThread w = T_run ->
  mAsyncMonitorIoService w = mk_io_service [] false ->
  exists w1 w2 w3,
    asyncMonitor impl h w = Ret tt w1 /\
    worker_step w1 = Some w2 /\
    host_run (S (length (ios_queue (host w)))) w2 = Some w3 /\
    invoked w3 =
      invoked w ++ ios_queue (host w) ++
      [bind_handler h operation_aborted FileMonitorEvent_ctor] /\
    heap w3 = heap w /\ trace w3 = trace w /\
    pending w3 = [] /\ ios_queue (host w3) = [].
Proof.
  intros Ho Ht Hq.
  eexists _, _, _. split; [reflexivity|].
  split.
  { apply worker_step_expired with (q := []).
    - exact Ht.
    - cbn. rewrite Hq. reflexivity.
    - exact Ho. }
  split.
  { replace (S (length (ios_queue (host w))))
      with (length (ios_queue (host w) ++
                    [bind_handler h operation_aborted FileMonitorEvent_ctor])).
    2:{ rewrite length_app. cbn. lia. }
    apply host_run_all. reflexivity. }
  cbn. unfold pending, running. cbn. rewrite Ht. repeat split.
Qed.

(** X9: While the worker is inside a pop that does not return, nothing else
    of its queue is served: however long the system runs, the worker stays
    where it is, the queue is as it was, and no completion is posted; only
    the host loop goes on calling what had been posted before. *)
Theorem blocked_pop_stalls_the_queue r l x w w' :
  mAsyncMonitorThread w = T_blocked r ->
  mImpl r = Some l ->
  alive w l = Some x ->
  impl_popFrontEvent (obj x) = None ->
  rtc run_step w w' ->
  worker_step w' = None /\
  mAsyncMonitorThread w' = T_blocked r /\
  mAsyncMonitorIoService w' = mAsyncMonitorIoService w /\
  heap w' = heap w /\ trace w' = trace w /\
  invoked w' ++ ios_queue (host w') = invoked w ++ ios_queue (host w).
Proof.
  intros Ht Hm Ha Hp Hrun.
  assert (Hstuck : forall v,
             mAsyncMonitorThread v = T_blocked r -> heap v = heap w ->
             worker_step v = None).
  { intros v Hv Hh. unfold worker_step. rewrite Hv, Hm.
    rewrite (resume_blocks r l x v); [reflexivity | | exact Hp].
    rewrite <- Ha. unfold alive. rewrite Hh. reflexivity. }
  revert w' Hrun. apply rtc_ind_r.
  - repeat split; auto.
  - intros v v' _ Hstep (Hw & Hv & Hq & Hh & Htr & Hi).
    destruct Hstep as [v v' Hws | v v' Hhs]; [congruence|].
    unfold host_step in Hhs.
    destruct (ios_queue (host v)) as [|c q] eqn:Eq; [discriminate|].
    injection Hhs as <-.
    split; [apply Hstuck; [exact Hv | exact Hh]|].
    repeat split; try assumption.
    cbn. rewrite <- app_assoc. exact Hi.
Qed.


End WorkerLoop.

(** ** Who owns a backend *)

Section Ownership.
Context {path : Type} `{FS : Filesystem path}.
Context `{Impl : FileMonitorImplementation path}.
Context {Handler : Type}.

Implicit Types (impl : implementation_type) (l : loc)
         (x : @cell path Impl) (w : @World path Impl Handler)
         (op : @MonitorOperation Handler)
         (cl : list implementation_type)
         (s : @System path Impl Handler).

Lemma client_refs_cons l (sp : implementation_type) cl :
  client_refs l (sp :: cl) = (one_if (sp = Some l) + client_refs l cl)%nat.
Proof.
  unfold client_refs, one_if. rewrite filter_cons.
  repeat case_decide; try reflexivity; contradiction.
Qed.

Lemma client_refs_snoc_None l cl : client_refs l (cl ++ [None]) = client_refs l cl.
Proof.
  unfold client_refs. rewrite filter_app, length_app.
  rewrite filter_cons_False by discriminate. cbn.
  rewrite Nat.add_0_r. reflexivity.
Qed.

Lemma client_refs_insert l cl : forall (i : nat) (old new : implementation_type),
  cl !! i = Some old ->
  (client_refs l (<[i := new]> cl) + one_if (old = Some l) =
   client_refs l cl + one_if (new = Some l))%nat.
Proof.
  induction cl as [|sp cl IH]; intros [|i] old new H; try discriminate H.
  - cbn in H. injection H as ->.
    change (<[0%nat := new]> (old :: cl)) with (new :: cl).
    rewrite !client_refs_cons. lia.
  - change (<[S i := new]> (sp :: cl)) with (sp :: <[i := new]> cl).
    rewrite !client_refs_cons. specialize (IH i old new H). lia.
Qed.

Lemma client_refs_pos l cl (i : nat) :
  cl !! i = Some (Some l) -> (0 < client_refs l cl)%nat.
Proof.
  revert i. induction cl as [|sp cl IH]; intros [|i] H; try discriminate H.
  - cbn in H. injection H as ->. rewrite client_refs_cons. unfold one_if.
    case_decide; [lia | contradiction].
  - rewrite client_refs_cons. specialize (IH i H). lia.
Qed.

Lemma client_refs_pos_inv l cl :
  (0 < client_refs l cl)%nat -> Some l ∈ cl.
Proof.
  induction cl as [|sp cl IH]; [cbn; lia|].
  rewrite client_refs_cons. unfold one_if.
  case_decide as Hd; intros H.
  - subst sp. apply elem_of_cons. auto.
  - apply elem_of_cons. right. apply IH. lia.
Qed.

Lemma worker_refs_idle l w :
  (forall op, mAsyncMonitorThread w <> T_blocked op) -> worker_refs l w = 0%nat.
Proof.
  unfold worker_refs, running. intros H.
  destruct (mAsyncMonitorThread w) as [|op|]; [reflexivity | | reflexivity].
  destruct (H op eq_refl).
Qed.

Lemma worker_refs_blocked l l0 op w :
  mAsyncMonitorThread w = T_blocked op ->
  mImpl op = Some l0 ->
  worker_refs l w = one_if (l0 = l).
Proof.
  unfold worker_refs, running, one_if. intros -> Hm.
  rewrite filter_cons, Hm.
  repeat case_decide; try reflexivity; congruence.
Qed.

Lemma count_at_heap w w' l :
  heap w' = heap w -> count_at w' l = count_at w l.
Proof. unfold count_at. intros ->. reflexivity. Qed.

Lemma count_at_insert w w' (l l' : nat) (c : @cell path Impl) :
  heap w' = <[l := c]> (heap w) ->
  (l < length (heap w))%nat ->
  count_at w' l' = if decide (l' = l) then use_count c else count_at w l'.
Proof.
  unfold count_at. intros -> Hlt.
  destruct (decide (l' = l)) as [->|Hne].
  - rewrite list_lookup_insert_eq by exact Hlt. reflexivity.
  - rewrite list_lookup_insert_ne by congruence. reflexivity.
Qed.

Lemma count_at_alive w (l : nat) x :
  alive w l = Some x ->
  count_at w l = use_count x /\ (0 < use_count x)%nat /\ (l < length (heap w))%nat.
Proof.
  intros Ha. destruct (alive_Some _ _ _ Ha) as (Hl & Hn & Hlt).
  unfold count_at. unfold loc in *. rewrite Hl. split; [reflexivity|]. split; [lia|exact Hlt].
Qed.

Lemma count_at_pos_alive w (l : nat) :
  (0 < count_at w l)%nat -> exists x, alive w l = Some x.
Proof.
  unfold count_at, alive, loc. destruct (heap w !! l) as [c|]; [|lia].
  intros H. exists c. destruct (Nat.eqb_spec (use_count c) 0); [lia|reflexivity].
Qed.

Lemma count_at_fresh w (l : nat) :
  (length (heap w) <= l)%nat -> count_at w l = 0%nat.
Proof.
  intros H. unfold count_at, loc. rewrite (lookup_ge_None_2 _ _ H). reflexivity.
Qed.

Lemma count_at_snoc w w' (l : nat) (c : @cell path Impl) :
  heap w' = heap w ++ [c] ->
  count_at w' l = if decide (l = length (heap w)) then use_count c else count_at w l.
Proof.
  unfold count_at, loc. intros ->.
  destruct (decide (l = length (heap w))) as [->|Hne].
  - rewrite list_lookup_middle by reflexivity. reflexivity.
  - destruct (decide (l < length (heap w))%nat) as [Hlt|Hge].
    + rewrite lookup_app_l by exact Hlt. reflexivity.
    + rewrite !lookup_ge_None_2; [reflexivity | lia | rewrite length_app; cbn; lia].
Qed.

Lemma worker_refs_thread l w w' :
  mAsyncMonitorThread w' = mAsyncMonitorThread w ->
  worker_refs l w' = worker_refs l w.
Proof. unfold worker_refs, running. intros ->. reflexivity. Qed.

(** The two ways in which ownership is kept: the worker's share and the
    counts move together, or the clients' share and the counts do. *)
Lemma owned_worker_moves cl w w' :
  owned_by cl w ->
  (forall l, (count_at w' l + worker_refs l w = count_at w l + worker_refs l w')%nat) ->
  (forall op, mAsyncMonitorThread w' = T_blocked op -> exists l, mImpl op = Some l) ->
  owned_by cl w'.
Proof.
  intros [H1 _] Hc H2. split; [|exact H2].
  intros l. specialize (H1 l). specialize (Hc l).
  unfold holders in *. lia.
Qed.

Lemma owned_client_moves cl cl' w w' :
  owned_by cl w ->
  mAsyncMonitorThread w' = mAsyncMonitorThread w ->
  (forall l, (count_at w' l + client_refs l cl = count_at w l + client_refs l cl')%nat) ->
  owned_by cl' w'.
Proof.
  intros [H1 H2] Ht Hc. split.
  - intros l. specialize (H1 l). specialize (Hc l).
    unfold holders in *.
    rewrite (worker_refs_thread l w w' Ht). lia.
  - rewrite Ht. exact H2.
Qed.

Lemma owned_same_counts cl w w' :
  owned_by cl w ->
  mAsyncMonitorThread w' = mAsyncMonitorThread w ->
  (forall l, count_at w' l = count_at w l) ->
  owned_by cl w'.
Proof.
  intros Ho Ht Hc. apply (owned_client_moves cl cl w w' Ho Ht).
  intros l. rewrite Hc. reflexivity.
Qed.

Lemma after_call_counts (l : nat) (c : call path) (b' : impl_t) x w (l' : nat) :
  alive w l = Some x ->
  count_at (after_call l c b' x w) l' = count_at w l'.
Proof.
  intros Ha. destruct (count_at_alive _ _ _ Ha) as (Hc & _ & Hlt).
  rewrite (count_at_insert w _ l l' (mk_cell b' (use_count x))); [|reflexivity|exact Hlt].
  case_decide; [subst; cbn; symmetry; exact Hc | reflexivity].
Qed.

(** What [operator()] does, by the state of the observation. *)
Lemma call_inv op w :
  (observed w (mImpl op) = None /\
   MonitorOperation_call op w = Ret tt (aborted op w)) \/
  (exists l x, mImpl op = Some l /\ alive w l = Some x /\
     ((exists ec ev b', impl_popFrontEvent (obj x) = Some (ec, ev, b') /\
                        MonitorOperation_call op w =
                          Ret tt (completed op l x ec ev b' w)) \/
      (impl_popFrontEvent (obj x) = None /\
       MonitorOperation_call op w = Block (locked l x w)))).
Proof.
  destruct (observed w (mImpl op)) as [x|] eqn:Ho.
  - right. destruct (mImpl op) as [l|] eqn:Hm; [|discriminate]. cbn in Ho.
    exists l, x. split; [reflexivity|]. split; [exact Ho|].
    destruct (impl_popFrontEvent (obj x)) as [[[ec ev] b']|] eqn:Hp.
    + left. exists ec, ev, b'. split; [reflexivity|].
      exact (call_succeeds _ _ _ _ _ _ _ Hm Ho Hp).
    + right. split; [reflexivity|]. exact (call_blocks _ _ _ _ Hm Ho Hp).
  - left. split; [reflexivity|]. exact (call_aborts _ _ Ho).
Qed.

Lemma resume_inv op l w w' :
  MonitorOperation_resume op (Some l) w = Ret tt w' ->
  exists x ec ev b',
    alive w l = Some x /\ impl_popFrontEvent (obj x) = Some (ec, ev, b') /\
    w' = resumed op l x ec ev b' w.
Proof.
  intros H. destruct (alive w l) as [x|] eqn:Ha.
  - destruct (impl_popFrontEvent (obj x)) as [[[ec ev] b']|] eqn:Hp.
    + rewrite (resume_returns _ _ _ _ _ _ _ Ha Hp) in H. injection H as <-.
      exists x, ec, ev, b'. auto.
    + rewrite (resume_blocks _ _ _ _ Ha Hp) in H. discriminate H.
  - unfold MonitorOperation_resume, bind, invoke_popFrontEvent in H.
    rewrite Ha in H. discriminate H.
Qed.

Lemma owned_worker_step cl w w' :
  owned_by cl w ->
  worker_step w = Some w' ->
  owned_by cl w'.
Proof.
  intros Ho Hw. pose proof Ho as [H1 H2].
  unfold worker_step in Hw.
  destruct (mAsyncMonitorThread w) as [|r|] eqn:Ht; [| |discriminate].
  - assert (Hidle : forall l, worker_refs l w = 0%nat).
    { intros l. apply worker_refs_idle. rewrite Ht. discriminate. }
    destruct (ios_stopped (mAsyncMonitorIoService w)).
    { injection Hw as <-. apply (owned_worker_moves _ _ _ Ho).
      - intros l. rewrite Hidle, (worker_refs_idle l (set_thread T_exited w)) by discriminate.
        reflexivity.
      - discriminate. }
    destruct (ios_queue (mAsyncMonitorIoService w)) as [|op q].
    { destruct (mAsyncMonitorWork w); [discriminate|]. injection Hw as <-.
      apply (owned_worker_moves _ _ _ Ho).
      - intros l. rewrite Hidle, (worker_refs_idle l (set_thread T_exited w)) by discriminate.
        reflexivity.
      - discriminate. }
    set (w1 := set_ios (mk_io_service q false) w) in *.
    destruct (call_inv op w1)
      as [[_ E]|(l & x & Hm & Ha & [(ec & ev & b' & _ & E)|[_ E]])];
      rewrite E in Hw; injection Hw as <-.
    + apply (owned_same_counts _ w _ Ho); [exact (eq_sym (eq_sym eq_refl))|].
      intros l. apply count_at_heap. reflexivity.
    + apply (owned_same_counts _ w _ Ho); [reflexivity|].
      intros l'. destruct (count_at_alive _ _ _ Ha) as (Hc & _ & Hlt).
      rewrite (count_at_insert w1 _ l l' (mk_cell b' (use_count x)));
        [|reflexivity|exact Hlt].
      case_decide; [subst; cbn; symmetry; exact Hc | reflexivity].
    + apply (owned_worker_moves _ _ _ Ho).
      * intros l'. destruct (count_at_alive _ _ _ Ha) as (Hc & _ & Hlt).
        rewrite Hidle.
        rewrite (worker_refs_blocked l' l op (set_thread (T_blocked op) (locked l x w1)))
          by (reflexivity || exact Hm).
        rewrite (count_at_insert w1 _ l l' (mk_cell (obj x) (S (use_count x))));
          [|reflexivity|exact Hlt].
        change (count_at w1 l') with (count_at w l').
        change (count_at w1 l) with (count_at w l) in Hc.
        unfold one_if. repeat case_decide; subst; cbn; try congruence; lia.
      * intros op' [= <-]. eauto.
  - destruct (H2 r eq_refl) as [l Hm]. rewrite Hm in Hw.
    destruct (MonitorOperation_resume r (Some l) w) as [[] w1| |] eqn:Hr;
      try discriminate Hw.
    injection Hw as <-.
    destruct (resume_inv _ _ _ _ Hr) as (x & ec & ev & b' & Ha & _ & ->).
    apply (owned_worker_moves _ _ _ Ho).
    + intros l'. destruct (count_at_alive _ _ _ Ha) as (Hc & Hpos & Hlt).
      rewrite (worker_refs_blocked l' l r w Ht Hm).
      rewrite (worker_refs_idle l' (set_thread T_run _)) by discriminate.
      rewrite (count_at_insert w _ l l' (mk_cell b' (Nat.pred (use_count x))));
        [|reflexivity|exact Hlt].
      unfold one_if. repeat case_decide; subst; cbn; try congruence; lia.
    + discriminate.
Qed.

Lemma invoke_Ret_counts {A : Type} impl (c : call path) (f : impl_t -> A * impl_t)
      w (a : A) w' :
  invoke impl c f w = Ret a w' ->
  mAsyncMonitorThread w' = mAsyncMonitorThread w /\
  forall l, count_at w' l = count_at w l.
Proof.
  destruct (invoke_inv impl c f w) as [(l & x & _ & Ha & E)|[_ E]];
    rewrite E; [|discriminate].
  intros [= _ <-]. split; [reflexivity|].
  intros l'. apply after_call_counts, Ha.
Qed.

Lemma monitor_Ret_counts impl w r w' :
  monitor impl w = Ret r w' ->
  mAsyncMonitorThread w' = mAsyncMonitorThread w /\
  forall l, count_at w' l = count_at w l.
Proof.
  unfold monitor, invoke_popFrontEvent.
  destruct impl as [l|]; [|discriminate].
  destruct (alive w l) as [x|] eqn:Ha; [|discriminate].
  destruct (impl_popFrontEvent (obj x)) as [[[ec ev] b']|]; [|discriminate].
  intros [= _ <-]. split; [reflexivity|].
  intros l'. apply (after_call_counts l call_popFrontEvent b' x w l' Ha).
Qed.

(** What the two statements of [destroy] do when they return. *)
Lemma destroy_begin_inv impl w (u : unit) w' :
  destroy_begin impl w = Ret u w' ->
  exists l x,
    impl = Some l /\ alive w l = Some x /\
    w' = after_call l call_destroy (impl_destroy (obj x)) x w.
Proof.
  unfold destroy_begin. intros H.
  destruct (invoke_inv impl call_destroy (fun b => (tt, impl_destroy b)) w)
    as [(l & x & Hi & Ha & E)|[_ E]]; rewrite E in H; [|discriminate H].
  injection H as _ <-. exists l, x. auto.
Qed.

Lemma destroy_two_statements impl w :
  destroy impl w = bind (destroy_begin impl) (fun _ => destroy_end impl) w.
Proof. reflexivity. Qed.

(** The member functions of one statement other than [construct] leave the
    caller's [impl], every use count and the worker as they are. *)
Lemma perform_keeps (r : request) impl w impl' w' :
  perform r impl w = Ret impl' w' ->
  r <> req_construct ->
  impl' = impl /\
  mAsyncMonitorThread w' = mAsyncMonitorThread w /\
  forall l, count_at w' l = count_at w l.
Proof.
  destruct r as [|p regexMatch|p|id| |h]; cbn [perform]; unfold bind, ret;
    intros H Hc; try contradiction.
  - destruct (addPath impl p regexMatch w) as [a w1| |] eqn:E; try discriminate H.
    injection H as <- <-. split; [reflexivity|].
    destruct (addPath_cases impl p regexMatch w) as [(s & _ & E')|[[_ E']|[_ E']]];
      rewrite E' in E; try discriminate E.
    exact (invoke_Ret_counts _ _ _ _ _ _ E).
  - destruct (addFile impl p w) as [a w1| |] eqn:E; try discriminate H.
    injection H as <- <-. split; [reflexivity|].
    destruct (addFile_cases impl p w) as [[s E']|[[_ E']|[(_ & _ & E')|[_ E']]]];
      rewrite E' in E; try discriminate E.
    exact (invoke_Ret_counts _ _ _ _ _ _ E).
  - destruct (remove impl id w) as [a w1| |] eqn:E; try discriminate H.
    injection H as <- <-. split; [reflexivity|].
    exact (invoke_Ret_counts _ _ _ _ _ _ E).
  - destruct (monitor impl w) as [a w1| |] eqn:E; try discriminate H.
    injection H as <- <-. split; [reflexivity|].
    exact (monitor_Ret_counts _ _ _ _ E).
  - unfold asyncMonitor, modify in H. injection H as <- <-.
    split; [reflexivity|]. split; [reflexivity|].
    intros l. apply count_at_heap. reflexivity.
Qed.

Lemma perform_throw_world (r : request) impl w e w' :
  perform r impl w = Throw e w' -> w' = w.
Proof.
  destruct r as [|p regexMatch|p|id| |h]; cbn [perform]; unfold bind.
  - destruct (construct_returns impl w) as [w1 ->]. discriminate.
  - destruct (addPath impl p regexMatch w) as [a w1|e1 w1|w1] eqn:E; try discriminate.
    intros [= <- <-]. apply addPath_throw in E. tauto.
  - destruct (addFile impl p w) as [a w1|e1 w1|w1] eqn:E; try discriminate.
    intros [= <- <-]. apply addFile_throw in E. tauto.
  - destruct (remove impl id w) as [a w1|e1 w1|w1] eqn:E; try discriminate.
    intros [= <- <-]. apply invoke_throw in E. tauto.
  - destruct (monitor impl w) as [a w1|e1 w1|w1] eqn:E; try discriminate.
    intros [= <- <-]. apply monitor_throw in E. tauto.
  - discriminate.
Qed.

(** Only [monitor] can be blocked, inside the pop of a live backend, and
    nothing has happened yet. *)
Lemma perform_block (r : request) impl w w' :
  perform r impl w = Block w' ->
  r = req_monitor /\ w' = w /\
  exists l x, impl = Some l /\ alive w l = Some x /\
              impl_popFrontEvent (obj x) = None.
Proof.
  destruct r as [|p regexMatch|p|id| |h]; cbn [perform]; unfold bind.
  - destruct (construct_returns impl w) as [w1 ->]. discriminate.
  - destruct (addPath_cases impl p regexMatch w) as [(s & _ & E)|[[_ E]|[_ E]]];
      rewrite E; try discriminate.
    destruct (invoke_inv impl (call_addPath p regexMatch)
                (impl_addPath p regexMatch) w)
      as [(l & x & _ & _ & E')|[_ E']]; rewrite E'; discriminate.
  - destruct (addFile_cases impl p w) as [[s E]|[[_ E]|[(_ & _ & E)|[_ E]]]];
      rewrite E; try discriminate.
    destruct (invoke_inv impl (call_addFile p) (impl_addFile p) w)
      as [(l & x & _ & _ & E')|[_ E']]; rewrite E'; discriminate.
  - unfold remove.
    destruct (invoke_inv impl (call_remove id) (fun b => (tt, impl_remove id b)) w)
      as [(l & x & _ & _ & E')|[_ E']]; rewrite E'; discriminate.
  - unfold monitor, invoke_popFrontEvent.
    destruct impl as [l|]; [|discriminate].
    destruct (alive w l) as [x|] eqn:Ha; [|discriminate].
    destruct (impl_popFrontEvent (obj x)) as [[[ec ev] b']|] eqn:Hp; [discriminate|].
    intros [= <-]. split; [reflexivity|]. split; [reflexivity|].
    exists l, x. auto.
  - discriminate.
Qed.

Lemma owned_client_alive cl w (i : nat) l :
  owned_by cl w ->
  cl !! i = Some (Some l) ->
  exists x, alive w l = Some x.
Proof.
  intros [H1 _] Hi. apply count_at_pos_alive.
  specialize (H1 l). unfold holders in H1.
  pose proof (client_refs_pos l cl i Hi). lia.
Qed.

(** [construct] on the [impl] of I/O object [i]. *)
Lemma owned_construct cl w (i : nat) impl impl' w' :
  owned_by cl w ->
  cl !! i = Some impl ->
  construct impl w = Ret impl' w' ->
  owned_by (<[i := impl']> cl) w'.
Proof.
  intros Ho Hi Hp. destruct impl as [old|].
  - destruct (owned_client_alive _ _ _ _ Ho Hi) as [x Ha].
    destruct (count_at_alive _ _ _ Ha) as (Hc & Hpos & Hlt).
    destruct (alive_Some _ _ _ Ha) as (Hx & _ & _).
    rewrite (construct_over _ _ _ Hx) in Hp. injection Hp as <- <-.
    apply (owned_client_moves cl _ w _ Ho); [reflexivity|].
    intros l.
    pose proof (client_refs_insert l cl i (Some old) (Some (length (heap w))) Hi) as Hr.
    rewrite (count_at_insert
               (mk_World (heap w ++ [mk_cell impl_ctor 1]) (trace w) (host w)
                         (invoked w) (mAsyncMonitorIoService w)
                         (mAsyncMonitorWork w) (mAsyncMonitorThread w))
               _ old l (mk_cell (obj x) (Nat.pred (use_count x))));
      [|reflexivity|cbn; rewrite length_app; cbn; lia].
    rewrite (count_at_snoc w _ l (mk_cell impl_ctor 1)) by reflexivity.
    pose proof (count_at_fresh w (length (heap w)) (le_n _)) as Hfresh.
    unfold one_if in Hr.
    repeat case_decide; simplify_eq; cbn [use_count] in *; try congruence; try lia.
  - rewrite construct_empty in Hp. injection Hp as <- <-.
    apply (owned_client_moves cl _ w _ Ho); [reflexivity|].
    intros l.
    pose proof (client_refs_insert l cl i None (Some (length (heap w))) Hi) as Hr.
    rewrite (count_at_snoc w _ l (mk_cell impl_ctor 1)) by reflexivity.
    pose proof (count_at_fresh w (length (heap w)) (le_n _)) as Hfresh.
    unfold one_if in Hr.
    repeat case_decide; simplify_eq; cbn [use_count] in *; try congruence; try lia.
Qed.

(** [impl.reset()] on the [impl] of I/O object [i]. *)
Lemma owned_reset cl w (i : nat) impl impl' w' :
  owned_by cl w ->
  cl !! i = Some impl ->
  sp_reset impl w = Ret impl' w' ->
  owned_by (<[i := impl']> cl) w'.
Proof.
  intros Ho Hi Hp. destruct impl as [l0|]; cbn in Hp; injection Hp as <- <-.
  - destruct (owned_client_alive _ _ _ _ Ho Hi) as [x Ha].
    destruct (count_at_alive _ _ _ Ha) as (Hc & Hpos & Hlt).
    destruct (alive_Some _ _ _ Ha) as (Hx & _ & _).
    rewrite (release_lookup _ _ _ Hx).
    apply (owned_client_moves cl _ w _ Ho); [reflexivity|].
    intros l.
    pose proof (client_refs_insert l cl i (Some l0) None Hi) as Hr.
    rewrite (count_at_insert w _ l0 l (mk_cell (obj x) (Nat.pred (use_count x))));
      [|reflexivity|exact Hlt].
    unfold one_if in Hr.
    repeat case_decide; simplify_eq; cbn [use_count] in *; try congruence; try lia.
  - rewrite (list_insert_id _ _ _ Hi). exact Ho.
Qed.

Lemma owned_client_call (i : nat) (r : request) s s' :
  owned s ->
  client_call i r s = Some s' ->
  owned s'.
Proof.
  unfold owned, client_call. intros Ho H.
  destruct (clients s !! i) as [impl|] eqn:Hi; [|discriminate H].
  destruct (perform r impl (world s)) as [impl' w'|e w'|w'] eqn:Hp.
  - injection H as <-. cbn [clients world].
    assert (Hcases : r = req_construct \/ r <> req_construct).
    { destruct r; auto; right; discriminate. }
    destruct Hcases as [->|Hnc].
    + exact (owned_construct _ _ _ _ _ _ Ho Hi Hp).
    + destruct (perform_keeps _ _ _ _ _ Hp Hnc) as (-> & Ht & Hc).
      rewrite (list_insert_id _ _ _ Hi).
      exact (owned_same_counts _ _ _ Ho Ht Hc).
  - destruct (is_assertion e); [discriminate H|]. injection H as <-.
    apply perform_throw_world in Hp. subst w'. exact Ho.
  - destruct impl as [l|]; [|discriminate H]. injection H as <-.
    apply perform_block in Hp as (_ & -> & _). exact Ho.
Qed.

Lemma owned_init : owned (@svc_init path Impl Handler).
Proof.
  split; [|discriminate].
  intros l. unfold holders, count_at, client_refs, worker_refs. cbn.
  unfold loc. rewrite lookup_nil. reflexivity.
Qed.

Lemma owned_act (a : @action path Handler) s s' :
  owned s -> act a s = Some s' -> owned s'.
Proof.
  unfold owned. intros Ho H.
  destruct a as [|i r|i|k|k| | | | |]; cbn [act] in H.
  - injection H as <-. cbn [clients world].
    destruct Ho as [H1 H2]. split; [|exact H2].
    intros l. specialize (H1 l). unfold holders in *.
    rewrite client_refs_snoc_None. exact H1.
  - exact (owned_client_call _ _ _ _ Ho H).
  - destruct (clients s !! i) as [impl|]; [|discriminate H].
    destruct (destroy_begin impl (world s)) as [u w'| |] eqn:E; try discriminate H.
    injection H as <-. cbn [clients world].
    exact (owned_same_counts _ _ _ Ho (proj1 (invoke_Ret_counts _ _ _ _ _ _ E))
             (proj2 (invoke_Ret_counts _ _ _ _ _ _ E))).
  - destruct (destroying s !! k) as [i|]; [|discriminate H].
    destruct (clients s !! i) as [impl|] eqn:Hi; [|discriminate H].
    destruct (destroy_end impl (world s)) as [impl' w'| |] eqn:E; try discriminate H.
    injection H as <-. cbn [clients world].
    exact (owned_reset _ _ _ _ _ _ Ho Hi E).
  - destruct (monitoring s !! k) as [l|]; [|discriminate H].
    destruct (invoke_popFrontEvent (Some l) (world s)) as [r w'| |] eqn:E;
      try discriminate H.
    injection H as <-. cbn [clients world].
    exact (owned_same_counts _ _ _ Ho (proj1 (monitor_Ret_counts _ _ _ _ E))
             (proj2 (monitor_Ret_counts _ _ _ _ E))).
  - destruct (worker_step (world s)) as [w'|] eqn:E; [|discriminate H].
    injection H as <-. exact (owned_worker_step _ _ _ Ho E).
  - destruct (host_step (world s)) as [w'|] eqn:E; [|discriminate H].
    injection H as <-. cbn [clients world with_world].
    unfold host_step in E.
    destruct (ios_queue (host (world s))) as [|c q]; [discriminate|]. injection E as <-.
    apply (owned_same_counts _ (world s) _ Ho); [reflexivity|].
    intros l. apply count_at_heap. reflexivity.
  - destruct (dtor s); try discriminate H. injection H as <-.
    apply (owned_same_counts _ (world s) _ Ho); [reflexivity|].
    intros l. apply count_at_heap. reflexivity.
  - destruct (dtor s); try discriminate H. injection H as <-.
    apply (owned_same_counts _ (world s) _ Ho); [reflexivity|].
    intros l. apply count_at_heap. reflexivity.
  - destruct (dtor s); try discriminate H.
    destruct (mAsyncMonitorThread (world s)); try discriminate H. injection H as <-.
    apply (owned_same_counts _ (world s) _ Ho); [reflexivity|].
    intros l. apply count_at_heap. reflexivity.
Qed.

(** Schedules and the states the system can reach. *)
Lemma reachable_act (a : @action path Handler) s s' :
  reachable s -> act a s = Some s' -> reachable s'.
Proof. intros Hr H. eapply rtc_r; [exact Hr | exists a; exact H]. Qed.

Lemma reachable_run acts : forall s s',
  reachable s -> run_actions acts s = Some s' -> reachable s'.
Proof.
  induction acts as [|a acts IH]; intros s s' Hr; cbn [run_actions].
  - intros [= <-]. exact Hr.
  - destruct (act a s) as [s1|] eqn:E; [|discriminate].
    apply IH. exact (reachable_act _ _ _ Hr E).
Qed.

Lemma run_reachable acts s :
  run_actions acts svc_init = Some s -> reachable s.
Proof. apply reachable_run. apply rtc_refl. Qed.

Lemma run_actions_app acts1 : forall acts2 s,
  run_actions (acts1 ++ acts2) s =
    match run_actions acts1 s with
    | Some s1 => run_actions acts2 s1
    | None => None
    end.
Proof.
  induction acts1 as [|a acts1 IH]; intros acts2 s; cbn; [reflexivity|].
  destruct (act a s); [apply IH | reflexivity].
Qed.

(** An invariant of the actions holds in every state the system reaches. *)
Lemma reachable_ind (P : System -> Prop) :
  P svc_init ->
  (forall (a : @action path Handler) s s', P s -> act a s = Some s' -> P s') ->
  forall s, reachable s -> P s.
Proof.
  intros H0 Hstep. unfold reachable. apply rtc_ind_r; [exact H0|].
  intros s s' _ [a Ha] HP. exact (Hstep a s s' HP Ha).
Qed.

(** Every use count is the number of strong pointers that exist, in every
    state the system can reach. *)
Lemma owned_reachable s : reachable s -> owned s.
Proof. apply reachable_ind; [exact owned_init | exact owned_act]. Qed.

(** X11: The backend is never deleted under the worker: whenever the worker is
    inside [popFrontEvent] on behalf of an operation, whatever the clients
    have done in the meantime ([destroy] included), the operation's
    backend is alive. *)
Theorem worker_pops_a_live_backend s op :
  reachable s ->
  mAsyncMonitorThread (world s) = T_blocked op ->
  exists l x, mImpl op = Some l /\ alive (world s) l = Some x.
Proof.
  intros Hr Ht. destruct (owned_reachable _ Hr) as [H1 H2].
  destruct (H2 op Ht) as [l Hm]. exists l.
  destruct (count_at_pos_alive (world s) l) as [x Ha]; [|eauto].
  rewrite H1. unfold holders.
  rewrite (worker_refs_blocked l l op (world s) Ht Hm).
  unfold one_if. case_decide; [lia|contradiction].
Qed.

(** X12: A backend lives exactly as long as somebody points to it: in every
    reachable state it is alive if and only if it is the [impl] of a
    client or the backend of the operation the worker is inside of. So a
    client's non-empty [impl] never dangles, and a backend nobody points
    to has been deleted. *)
Theorem backend_lives_while_referenced s l :
  reachable s ->
  (exists x, alive (world s) l = Some x) <->
  (Some l ∈ clients s \/
   exists op, mAsyncMonitorThread (world s) = T_blocked op /\ mImpl op = Some l).
Proof.
  intros Hr. destruct (owned_reachable _ Hr) as [H1 H2].
  specialize (H1 l). unfold holders in H1.
  split.
  - intros [x Ha]. destruct (count_at_alive _ _ _ Ha) as (Hc & Hpos & _).
    destruct (decide (0 < client_refs l (clients s))%nat) as [Hcl|Hcl].
    + left. apply client_refs_pos_inv, Hcl.
    + right. assert (Hw : (0 < worker_refs l (world s))%nat) by lia.
      unfold worker_refs, running in Hw.
      destruct (mAsyncMonitorThread (world s)) as [|op|] eqn:Ht;
        [cbn in Hw; lia | | cbn in Hw; lia].
      exists op. split; [reflexivity|].
      rewrite filter_cons in Hw. case_decide; [assumption | cbn in Hw; lia].
  - intros [Hcl | (op & Ht & Hm)]; apply count_at_pos_alive; rewrite H1.
    + apply list_elem_of_lookup in Hcl as [i Hi].
      pose proof (client_refs_pos l _ i Hi). lia.
    + rewrite (worker_refs_blocked l l op (world s) Ht Hm).
      unfold one_if. case_decide; [lia|contradiction].
Qed.

End Ownership.

(** ** The worker's loop and the destructor *)

Section KeepAlive.
Context {path : Type} `{FS : Filesystem path}.
Context `{Impl : FileMonitorImplementation path}.
Context {Handler : Type}.

Implicit Types (impl : implementation_type) (l : loc)
         (x : @cell path Impl) (w : @World path Impl Handler)
         (op : @MonitorOperation Handler)
         (s : @System path Impl Handler).

Lemma framed_refl w : framed w w.
Proof. repeat split. Qed.

Lemma release_framed l w : framed w (release l w).
Proof. unfold release. destruct (heap w !! l); repeat split. Qed.

Lemma sp_reset_framed impl w impl' w' :
  sp_reset impl w = Ret impl' w' -> framed w w'.
Proof.
  destruct impl as [l|]; cbn; intros [= _ <-];
    [apply release_framed | apply framed_refl].
Qed.

Lemma invoke_framed {A : Type} impl (c : call path) (f : impl_t -> A * impl_t)
      w (a : A) w' :
  invoke impl c f w = Ret a w' -> framed w w'.
Proof.
  destruct (invoke_inv impl c f w) as [(l & x & _ & _ & E)|[_ E]];
    rewrite E; [|discriminate].
  intros [= _ <-]. repeat split.
Qed.

Lemma pop_framed impl w r w' :
  invoke_popFrontEvent impl w = Ret r w' -> framed w w'.
Proof.
  unfold invoke_popFrontEvent.
  destruct impl as [l|]; [|discriminate].
  destruct (alive w l) as [x|]; [|discriminate].
  destruct (impl_popFrontEvent (obj x)) as [[[ec ev] b']|]; [|discriminate].
  intros [= _ <-]. repeat split.
Qed.

Lemma construct_framed impl w impl' w' :
  construct impl w = Ret impl' w' -> framed w w'.
Proof.
  unfold construct, sp_reset_new.
  destruct impl as [old|]; intros [= _ <-]; [|repeat split].
  destruct (release_framed old
              (log [eff_new (length (heap w))]
                   (set_heap (heap w ++ [mk_cell impl_ctor 1]) w)))
    as (H1 & H2 & H3 & H4 & H5).
  repeat split; assumption.
Qed.

(** What a member function of one statement leaves of the two loops when
    it returns: only [asyncMonitor] changes anything, by one operation at
    the end of the worker's queue. *)
Lemma perform_frame (r : request) impl w impl' w' :
  perform r impl w = Ret impl' w' ->
  match r with
  | req_asyncMonitor h =>
      w' = set_ios (ios_post (mk_MonitorOperation impl h)
                             (mAsyncMonitorIoService w)) w
  | _ => framed w w'
  end.
Proof.
  destruct r as [|p regexMatch|p|id| |h]; cbn [perform]; unfold bind, ret; intros H.
  - exact (construct_framed _ _ _ _ H).
  - destruct (addPath impl p regexMatch w) as [a w1| |] eqn:E; try discriminate H.
    injection H as _ <-.
    destruct (addPath_cases impl p regexMatch w) as [(s & _ & E')|[[_ E']|[_ E']]];
      rewrite E' in E; try discriminate E.
    exact (invoke_framed _ _ _ _ _ _ E).
  - destruct (addFile impl p w) as [a w1| |] eqn:E; try discriminate H.
    injection H as _ <-.
    destruct (addFile_cases impl p w) as [[s E']|[[_ E']|[(_ & _ & E')|[_ E']]]];
      rewrite E' in E; try discriminate E.
    exact (invoke_framed _ _ _ _ _ _ E).
  - destruct (remove impl id w) as [a w1| |] eqn:E; try discriminate H.
    injection H as _ <-. exact (invoke_framed _ _ _ _ _ _ E).
  - destruct (monitor impl w) as [a w1| |] eqn:E; try discriminate H.
    injection H as _ <-. exact (pop_framed _ _ _ _ E).
  - unfold asyncMonitor, modify in H. injection H as _ <-. reflexivity.
Qed.

(** The worker thread neither releases the token nor stops the loop, and
    it returns from [run] only when the loop is stopped or out of work. *)
Lemma worker_step_loop w w' :
  worker_step w = Some w' ->
  mAsyncMonitorWork w' = mAsyncMonitorWork w /\
  ios_stopped (mAsyncMonitorIoService w') = ios_stopped (mAsyncMonitorIoService w) /\
  (mAsyncMonitorThread w' = T_exited ->
   mAsyncMonitorWork w = false \/ ios_stopped (mAsyncMonitorIoService w) = true).
Proof.
  unfold worker_step. intros H.
  destruct (mAsyncMonitorThread w) as [|r|] eqn:Ht; [| |discriminate].
  - destruct (ios_stopped (mAsyncMonitorIoService w)) eqn:Hs.
    { injection H as <-. cbn. rewrite Hs. auto. }
    destruct (ios_queue (mAsyncMonitorIoService w)) as [|op q] eqn:Hq.
    { destruct (mAsyncMonitorWork w) eqn:Hw; [discriminate|]. injection H as <-.
      cbn. rewrite Hs, Hw. auto. }
    set (w1 := set_ios (mk_io_service q false) w) in *.
    destruct (call_inv op w1)
      as [[_ E]|(l & x & Hm & Ha & [(ec & ev & b' & _ & E)|[_ E]])];
      rewrite E in H; injection H as <-; cbn; rewrite ?Ht;
      (split; [reflexivity|]); (split; [reflexivity|]); discriminate.
  - destruct (mImpl r) as [l|].
    2:{ unfold MonitorOperation_resume, bind, invoke_popFrontEvent in H.
        discriminate H. }
    destruct (MonitorOperation_resume r (Some l) w) as [[] w1| |] eqn:Hr;
      try discriminate H.
    injection H as <-.
    destruct (resume_inv _ _ _ _ Hr) as (x & ec & ev & b' & _ & _ & ->).
    cbn. split; [reflexivity|]. split; [reflexivity|]. discriminate.
Qed.

Lemma in_service_same s w' :
  in_service s ->
  mAsyncMonitorWork w' = mAsyncMonitorWork (world s) ->
  ios_stopped (mAsyncMonitorIoService w') =
    ios_stopped (mAsyncMonitorIoService (world s)) ->
  mAsyncMonitorThread w' = mAsyncMonitorThread (world s) ->
  in_service (with_world w' s).
Proof.
  unfold in_service. cbn [dtor world with_world].
  intros H Hw Hs Ht. rewrite Hw, Hs, Ht. exact H.
Qed.

Lemma in_service_framed s w' :
  in_service s -> framed (world s) w' -> in_service (with_world w' s).
Proof.
  intros H (_ & _ & Hq & Hw & Ht). apply in_service_same; try assumption.
  rewrite Hq. reflexivity.
Qed.

Lemma in_service_worker s w' :
  in_service s -> worker_step (world s) = Some w' -> in_service (with_world w' s).
Proof.
  unfold in_service. cbn [dtor world with_world]. intros H Hws.
  destruct (worker_step_loop _ _ Hws) as (Hw & Hs & Hx).
  rewrite Hw, Hs.
  destruct (dtor s).
  - destruct H as (H1 & H2 & H3). repeat split; try assumption.
    intros Hex. destruct (Hx Hex); congruence.
  - exact H.
  - exact H.
  - destruct H as (_ & _ & H3). unfold worker_step in Hws.
    rewrite H3 in Hws. discriminate Hws.
Qed.

Lemma in_service_init : in_service (@svc_init path Impl Handler).
Proof. cbn. repeat split. discriminate. Qed.

Lemma in_service_act (a : @action path Handler) s s' :
  in_service s -> act a s = Some s' -> in_service s'.
Proof.
  intros Hin H.
  destruct a as [|i r|i|k|k| | | | |]; cbn [act] in H.
  - injection H as <-. exact Hin.
  - unfold client_call in H.
    destruct (clients s !! i) as [impl|]; [|discriminate H].
    destruct (perform r impl (world s)) as [impl' w'|e w'|w'] eqn:Hp.
    + injection H as <-.
      pose proof (perform_frame _ _ _ _ _ Hp) as Hf.
      assert (Hsame : mAsyncMonitorWork w' = mAsyncMonitorWork (world s) /\
                      ios_stopped (mAsyncMonitorIoService w') =
                        ios_stopped (mAsyncMonitorIoService (world s)) /\
                      mAsyncMonitorThread w' = mAsyncMonitorThread (world s)).
      { destruct r; try (destruct Hf as (_ & _ & -> & -> & ->); auto).
        subst w'. auto. }
      destruct Hsame as (Hw & Hs & Ht).
      unfold in_service in *. cbn [dtor world]. rewrite Hw, Hs, Ht. exact Hin.
    + destruct (is_assertion e); [discriminate H|]. injection H as <-.
      apply perform_throw_world in Hp. subst w'. exact Hin.
    + destruct impl as [l|]; [|discriminate H]. injection H as <-.
      apply perform_block in Hp as (_ & -> & _). exact Hin.
  - destruct (clients s !! i) as [impl|]; [|discriminate H].
    destruct (destroy_begin impl (world s)) as [u w'| |] eqn:E; try discriminate H.
    injection H as <-.
    exact (in_service_framed s w' Hin (invoke_framed _ _ _ _ _ _ E)).
  - destruct (destroying s !! k) as [i|]; [|discriminate H].
    destruct (clients s !! i) as [impl|]; [|discriminate H].
    destruct (destroy_end impl (world s)) as [impl' w'| |] eqn:E; try discriminate H.
    injection H as <-.
    exact (in_service_framed s w' Hin (sp_reset_framed _ _ _ _ E)).
  - destruct (monitoring s !! k) as [l|]; [|discriminate H].
    destruct (invoke_popFrontEvent (Some l) (world s)) as [r w'| |] eqn:E;
      try discriminate H.
    injection H as <-.
    exact (in_service_framed s w' Hin (pop_framed _ _ _ _ E)).
  - destruct (worker_step (world s)) as [w'|] eqn:E; [|discriminate H].
    injection H as <-. exact (in_service_worker s w' Hin E).
  - destruct (host_step (world s)) as [w'|] eqn:E; [|discriminate H].
    injection H as <-. unfold host_step in E.
    destruct (ios_queue (host (world s))) as [|c q]; [discriminate|].
    injection E as <-. apply in_service_same; [exact Hin | reflexivity ..].
  - destruct (dtor s) eqn:Hd; try discriminate H. injection H as <-.
    unfold in_service in *. rewrite Hd in Hin. cbn. tauto.
  - destruct (dtor s) eqn:Hd; try discriminate H. injection H as <-.
    unfold in_service in *. rewrite Hd in Hin. cbn. tauto.
  - destruct (dtor s) eqn:Hd; try discriminate H.
    destruct (mAsyncMonitorThread (world s)) eqn:Ht; try discriminate H.
    injection H as <-.
    unfold in_service in *. rewrite Hd in Hin. cbn. rewrite Ht. tauto.
Qed.

Lemma in_service_reachable s : reachable s -> in_service s.
Proof. apply reachable_ind; [exact in_service_init | exact in_service_act]. Qed.

(** X14: The worker thread stays in its loop for as long as the service
    lives: whatever has been called, and however long its queue has been
    empty, as long as the destructor of the service has not begun the
    keep-alive token is there, the loop is not stopped and the worker has
    not returned from [run]. It returns only after the destructor has
    released [mAsyncMonitorWork]; the loop is stopped only after that; and
    once the worker has returned, nothing that is submitted is ever taken
    from the queue. *)
Theorem worker_stays_until_the_destructor s :
  reachable s ->
  (dtor s = S_alive ->
   mAsyncMonitorWork (world s) = true /\
   ios_stopped (mAsyncMonitorIoService (world s)) = false /\
   mAsyncMonitorThread (world s) <> T_exited) /\
  (mAsyncMonitorThread (world s) = T_exited ->
   dtor s <> S_alive /\ mAsyncMonitorWork (world s) = false) /\
  (ios_stopped (mAsyncMonitorIoService (world s)) = true ->
   dtor s <> S_alive /\ mAsyncMonitorWork (world s) = false) /\
  (mAsyncMonitorThread (world s) = T_exited -> worker_step (world s) = None).
Proof.
  intros Hr. pose proof (in_service_reachable s Hr) as Hin.
  unfold in_service in Hin.
  split; [intros Hd; rewrite Hd in Hin; exact Hin|].
  split; [|split].
  - intros Ht. destruct (dtor s); [|split; [discriminate|tauto] ..].
    destruct Hin as (_ & _ & Hne). contradiction.
  - intros Hs. destruct (dtor s); [|split; [discriminate|tauto] ..].
    destruct Hin as (_ & Hf & _). congruence.
  - intros Ht. unfold worker_step. rewrite Ht. reflexivity.
Qed.

End KeepAlive.

(** ** One backend per I/O object, and the blocking monitor *)

Section Exclusive.
Context {path : Type} `{FS : Filesystem path}.
Context `{Impl : FileMonitorImplementation path}.
Context {Handler : Type}.

Implicit Types (impl : implementation_type) (l : loc)
         (x : @cell path Impl) (w : @World path Impl Handler)
         (op : @MonitorOperation Handler)
         (cl : list implementation_type)
         (s : @System path Impl Handler).

(** An [impl] is replaced by one that no I/O object has. *)
Lemma client_refs_replace cl (i : nat) (old new : implementation_type) :
  cl !! i = Some old ->
  (forall l, client_refs l cl <= 1)%nat ->
  (forall l, new = Some l -> client_refs l cl = 0%nat) ->
  forall l, (client_refs l (<[i := new]> cl) <= 1)%nat.
Proof.
  intros Hi Hu Hnew l.
  pose proof (client_refs_insert l cl i old new Hi) as Hr.
  specialize (Hu l). unfold one_if in Hr.
  repeat case_decide; subst; try lia.
  rewrite (Hnew l eq_refl) in Hr. lia.
Qed.

Lemma unshared_act (a : @action path Handler) s s' :
  owned s -> unshared s -> act a s = Some s' -> unshared s'.
Proof.
  unfold unshared. intros Ho Hu H.
  destruct a as [|i r|i|k|k| | | | |]; cbn [act] in H.
  - injection H as <-. cbn [clients]. intros l.
    rewrite client_refs_snoc_None. apply Hu.
  - unfold client_call in H.
    destruct (clients s !! i) as [impl|] eqn:Hi; [|discriminate H].
    destruct (perform r impl (world s)) as [impl' w'|e w'|w'] eqn:Hp.
    + injection H as <-. cbn [clients].
      assert (Hcases : r = req_construct \/ r <> req_construct).
      { destruct r; auto; right; discriminate. }
      destruct Hcases as [->|Hnc].
      * cbn [perform] in Hp.
        destruct (construct_returns impl (world s)) as [w1 E].
        rewrite E in Hp. injection Hp as <- <-.
        apply (client_refs_replace _ _ _ _ Hi Hu).
        intros l [= <-].
        destruct Ho as [H1 _]. specialize (H1 (length (heap (world s)))).
        rewrite (count_at_fresh (world s) _ (le_n _)) in H1.
        unfold holders in H1. lia.
      * destruct (perform_keeps _ _ _ _ _ Hp Hnc) as (-> & _ & _).
        rewrite (list_insert_id _ _ _ Hi). exact Hu.
    + destruct (is_assertion e); [discriminate H|]. injection H as <-. exact Hu.
    + destruct impl as [l|]; [|discriminate H]. injection H as <-. exact Hu.
  - destruct (clients s !! i) as [impl|]; [|discriminate H].
    destruct (destroy_begin impl (world s)) as [u w'| |]; try discriminate H.
    injection H as <-. exact Hu.
  - destruct (destroying s !! k) as [i|]; [|discriminate H].
    destruct (clients s !! i) as [impl|] eqn:Hi; [|discriminate H].
    destruct (destroy_end impl (world s)) as [impl' w'| |] eqn:E; try discriminate H.
    injection H as <-. cbn [clients].
    apply (client_refs_replace _ _ _ _ Hi Hu).
    intros l ->. destruct impl; discriminate E.
  - destruct (monitoring s !! k) as [l|]; [|discriminate H].
    destruct (invoke_popFrontEvent (Some l) (world s)) as [r w'| |];
      try discriminate H.
    injection H as <-. exact Hu.
  - destruct (worker_step (world s)) as [w'|]; [|discriminate H].
    injection H as <-. exact Hu.
  - destruct (host_step (world s)) as [w'|]; [|discriminate H].
    injection H as <-. exact Hu.
  - destruct (dtor s); try discriminate H. injection H as <-. exact Hu.
  - destruct (dtor s); try discriminate H. injection H as <-. exact Hu.
  - destruct (dtor s); try discriminate H.
    destruct (mAsyncMonitorThread (world s)); try discriminate H.
    injection H as <-. exact Hu.
Qed.

(** Every backend is the [impl] of at most one I/O object. *)
Lemma unshared_reachable s : reachable s -> unshared s.
Proof.
  intros Hr.
  enough (H : owned s /\ unshared s) by exact (proj2 H).
  revert s Hr. apply reachable_ind.
  - split; [exact owned_init|]. intros l. cbn. lia.
  - intros a s s' [Ho Hu] H.
    split; [exact (owned_act _ _ _ Ho H) | exact (unshared_act _ _ _ Ho Hu H)].
Qed.

(** The worker inside the pop holds a live backend (shared by X11 and by
    the runs of the operations). *)
Lemma owned_worker_alive cl w op :
  owned_by cl w ->
  mAsyncMonitorThread w = T_blocked op ->
  exists l x, mImpl op = Some l /\ alive w l = Some x.
Proof.
  intros [H1 H2] Ht. destruct (H2 op Ht) as [l Hm]. exists l.
  destruct (count_at_pos_alive w l) as [x Ha]; [|eauto].
  rewrite H1. unfold holders.
  rewrite (worker_refs_blocked l l op w Ht Hm).
  unfold one_if. case_decide; [lia|contradiction].
Qed.

(** X13: [monitor] keeps no pointer of its own to the backend it blocks
    in, so [destroy] takes the backend away from under it. Whenever a
    thread is inside [popFrontEvent] on behalf of [monitor] and the worker
    is not inside the same backend, the two statements of [destroy] on the
    I/O object can be executed, and after them the backend has been
    deleted while the thread is still inside it: the only thing that lets
    the thread leave in time is that it is woken by [impl->destroy()] and
    is faster than [impl.reset()]. *)
Theorem destroy_deletes_backend_under_blocked_monitor s (i : nat) l :
  reachable s ->
  clients s !! i = Some (Some l) ->
  l ∈ monitoring s ->
  (forall op, mAsyncMonitorThread (world s) = T_blocked op -> mImpl op <> Some l) ->
  exists s1 s2,
    act (act_destroy_call i) s = Some s1 /\
    act (act_destroy_reset (length (destroying s))) s1 = Some s2 /\
    clients s2 !! i = Some None /\
    alive (world s2) l = None /\
    eff_delete l ∈ trace (world s2) /\
    l ∈ monitoring s2.
Proof.
  intros Hr Hi Hm Hw.
  change (@lookup nat implementation_type (list implementation_type) _
            i (clients s) = Some (Some l)) in Hi.
  pose proof (owned_reachable _ Hr) as Ho.
  pose proof (unshared_reachable _ Hr l) as Hu.
  destruct (owned_client_alive _ _ _ _ Ho Hi) as [x Ha].
  destruct (count_at_alive _ _ _ Ha) as (Hc & Hpos & Hlt).
  destruct (alive_Some _ _ _ Ha) as (Hx & _ & _).
  assert (Hone : use_count x = 1%nat).
  { destruct Ho as [H1 _]. specialize (H1 l). unfold holders in H1.
    pose proof (client_refs_pos l _ i Hi) as Hp.
    assert (Hwr : worker_refs l (world s) = 0%nat).
    { unfold worker_refs, running.
      destruct (mAsyncMonitorThread (world s)) as [|op|] eqn:Ht; try reflexivity.
      rewrite filter_cons. case_decide as Hd; [|reflexivity].
      destruct (Hw op eq_refl Hd). }
    lia. }
  set (w1 := after_call l call_destroy (impl_destroy (obj x)) x (world s)).
  assert (E1 : act (act_destroy_call i) s =
               Some (mk_System (clients s) w1 (destroying s ++ [i])
                               (monitoring s) (dtor s))).
  { cbn [act]. rewrite Hi. unfold destroy_begin.
    rewrite (invoke_alive l x call_destroy (fun b => (tt, impl_destroy b)) _ Ha).
    reflexivity. }
  assert (Hl1 : heap w1 !! l =
                Some (mk_cell (impl_destroy (obj x)) (use_count x))).
  { cbn. apply list_lookup_insert_eq, Hlt. }
  assert (E2 : act (act_destroy_reset (length (destroying s)))
                 (mk_System (clients s) w1 (destroying s ++ [i])
                            (monitoring s) (dtor s)) =
               Some (mk_System (<[i := None]> (clients s)) (release l w1)
                               (delete (length (destroying s)) (destroying s ++ [i]))
                               (monitoring s) (dtor s))).
  { cbn [act destroying clients world monitoring dtor].
    rewrite (list_lookup_middle (destroying s) [] i (length (destroying s)) eq_refl).
    rewrite Hi. reflexivity. }
  eexists _, _. split; [exact E1|]. split; [exact E2|].
  cbn [clients world monitoring].
  split; [apply list_lookup_insert_eq; eapply lookup_lt_Some; exact Hi|].
  rewrite (release_lookup _ _ _ Hl1). cbn. rewrite Hone. cbn.
  split.
  { apply (alive_expired _ _ (mk_cell (impl_destroy (obj x)) 0)); [|reflexivity].
    cbn. apply list_lookup_insert_eq. rewrite length_insert. exact Hlt. }
  split; [|exact Hm].
  rewrite !elem_of_app, !elem_of_cons. right. right. left. reflexivity.
Qed.

End Exclusive.

(** ** Every handler, once, in order *)

Section Obligations.
Context {path : Type} `{FS : Filesystem path}.
Context `{Impl : FileMonitorImplementation path}.
Context {Handler : Type}.

Implicit Types (impl : implementation_type) (l : loc)
         (x : @cell path Impl) (w : @World path Impl Handler)
         (op : @MonitorOperation Handler)
         (s : @System path Impl Handler)
         (acts : list (@action path Handler)).

Lemma obligations_frame w w' : framed w w' -> obligations w' = obligations w.
Proof.
  unfold obligations, pending, running. intros (-> & -> & -> & _ & ->). reflexivity.
Qed.

Lemma posted_frame w w' : framed w w' -> posted w' = posted w.
Proof. unfold posted. intros (-> & -> & _). reflexivity. Qed.

(** The worker carries an obligation along: from the queue into the
    operation it runs, from there into a posted completion. *)
Lemma obligations_worker_step w w' :
  worker_step w = Some w' -> obligations w' = obligations w.
Proof.
  unfold worker_step. intros H.
  destruct (mAsyncMonitorThread w) as [|r|] eqn:Ht; [| |discriminate].
  - destruct (ios_stopped (mAsyncMonitorIoService w)) eqn:Hs.
    { injection H as <-. unfold obligations, pending, running. cbn. rewrite Ht.
      reflexivity. }
    destruct (ios_queue (mAsyncMonitorIoService w)) as [|op q] eqn:Hq.
    { destruct (mAsyncMonitorWork w); [discriminate|]. injection H as <-.
      unfold obligations, pending, running. cbn. rewrite Ht. reflexivity. }
    set (w1 := set_ios (mk_io_service q false) w) in *.
    destruct (call_inv op w1)
      as [[_ E]|(l & x & Hm & Ha & [(ec & ev & b' & _ & E)|[_ E]])];
      rewrite E in H; injection H as <-;
      unfold obligations, pending, running; cbn; rewrite ?Ht, Hq; cbn;
      rewrite ?map_app; cbn; rewrite <- ?app_assoc; reflexivity.
  - destruct (mImpl r) as [l|].
    2:{ unfold MonitorOperation_resume, bind, invoke_popFrontEvent in H.
        discriminate H. }
    destruct (MonitorOperation_resume r (Some l) w) as [[] w1| |] eqn:Hr;
      try discriminate H.
    injection H as <-.
    destruct (resume_inv _ _ _ _ Hr) as (x & ec & ev & b' & _ & _ & ->).
    unfold obligations, pending, running. cbn. rewrite Ht. cbn.
    rewrite map_app. cbn. rewrite <- app_assoc. reflexivity.
Qed.

Lemma obligations_host_step w w' :
  host_step w = Some w' -> obligations w' = obligations w.
Proof.
  unfold host_step. destruct (ios_queue (host w)) as [|c q] eqn:Hq; [discriminate|].
  intros [= <-]. unfold obligations, pending, running. cbn. rewrite Hq.
  rewrite map_app. cbn. rewrite <- app_assoc. reflexivity.
Qed.

Lemma posted_host_step w w' : host_step w = Some w' -> posted w' = posted w.
Proof.
  unfold host_step. destruct (ios_queue (host w)) as [|c q] eqn:Hq; [discriminate|].
  intros [= <-]. unfold posted. cbn. rewrite Hq, <- app_assoc. reflexivity.
Qed.

(** The world an action leaves, as far as the two loops go: the same
    loops, one operation more in the worker's queue, or a step of the
    worker or of the host loop; and for the destructor, the token, the
    flag, or the queue. *)
Lemma act_world (a : @action path Handler) s s' :
  act a s = Some s' ->
  match a with
  | act_call i (req_asyncMonitor h) =>
      exists impl,
        world s' = set_ios (ios_post (mk_MonitorOperation impl h)
                                     (mAsyncMonitorIoService (world s))) (world s)
  | act_worker => worker_step (world s) = Some (world s')
  | act_host => host_step (world s) = Some (world s')
  | act_release_work => world s' = set_work false (world s)
  | act_stop =>
      world s' = set_ios (ios_stop (mAsyncMonitorIoService (world s))) (world s)
  | act_teardown =>
      world s' = set_ios (mk_io_service [] true) (world s) /\
      mAsyncMonitorThread (world s) = T_exited
  | _ => framed (world s) (world s')
  end.
Proof.
  intros H. destruct a as [|i r|i|k|k| | | | |]; cbn [act] in H.
  - injection H as <-. apply framed_refl.
  - unfold client_call in H.
    destruct (clients s !! i) as [impl|]; [|discriminate H].
    destruct (perform r impl (world s)) as [impl' w'|e w'|w'] eqn:Hp.
    + injection H as <-. pose proof (perform_frame _ _ _ _ _ Hp) as Hf.
      destruct r; try exact Hf. exists impl. exact Hf.
    + destruct (is_assertion e); [discriminate H|]. injection H as <-.
      pose proof (perform_throw_world _ _ _ _ _ Hp) as Hw'. subst w'.
      destruct r; try apply framed_refl. cbn [perform] in Hp. discriminate Hp.
    + destruct impl as [l|]; [|discriminate H]. injection H as <-.
      apply perform_block in Hp as (-> & -> & _). apply framed_refl.
  - destruct (clients s !! i) as [impl|]; [|discriminate H].
    destruct (destroy_begin impl (world s)) as [u w'| |] eqn:E; try discriminate H.
    injection H as <-. exact (invoke_framed _ _ _ _ _ _ E).
  - destruct (destroying s !! k) as [i|]; [|discriminate H].
    destruct (clients s !! i) as [impl|]; [|discriminate H].
    destruct (destroy_end impl (world s)) as [impl' w'| |] eqn:E; try discriminate H.
    injection H as <-. exact (sp_reset_framed _ _ _ _ E).
  - destruct (monitoring s !! k) as [l|]; [|discriminate H].
    destruct (invoke_popFrontEvent (Some l) (world s)) as [r w'| |] eqn:E;
      try discriminate H.
    injection H as <-. exact (pop_framed _ _ _ _ E).
  - destruct (worker_step (world s)) as [w'|]; [|discriminate H].
    injection H as <-. reflexivity.
  - destruct (host_step (world s)) as [w'|]; [|discriminate H].
    injection H as <-. reflexivity.
  - destruct (dtor s); try discriminate H. injection H as <-. reflexivity.
  - destruct (dtor s); try discriminate H. injection H as <-. reflexivity.
  - destruct (dtor s); try discriminate H.
    destruct (mAsyncMonitorThread (world s)); try discriminate H.
    injection H as <-. split; reflexivity.
Qed.

Lemma obligations_act (a : @action path Handler) s s' :
  act a s = Some s' ->
  a <> act_teardown ->
  obligations (world s') = obligations (world s) ++ submits a.
Proof.
  intros H Hn. pose proof (act_world _ _ _ H) as Hw.
  destruct a as [|i r|i|k|k| | | | |]; cbn [submits];
    try (rewrite app_nil_r; exact (obligations_frame _ _ Hw)).
  - destruct r; cbn [submits];
      try (rewrite app_nil_r; exact (obligations_frame _ _ Hw)).
    destruct Hw as [impl ->].
    unfold obligations, pending, running. cbn.
    rewrite !map_app. cbn. rewrite <- !app_assoc. reflexivity.
  - rewrite app_nil_r. exact (obligations_worker_step _ _ Hw).
  - rewrite app_nil_r. exact (obligations_host_step _ _ Hw).
  - rewrite app_nil_r, Hw. reflexivity.
  - rewrite app_nil_r, Hw. reflexivity.
  - contradiction.
Qed.

Lemma obligations_run acts : forall s s',
  run_actions acts s = Some s' ->
  act_teardown ∉ acts ->
  obligations (world s') = obligations (world s) ++ submitted acts.
Proof.
  induction acts as [|a acts IH]; intros s s'; cbn [run_actions].
  - intros [= <-] _. unfold submitted. cbn. rewrite app_nil_r. reflexivity.
  - destruct (act a s) as [s1|] eqn:E; [|discriminate].
    intros H Hn. rewrite not_elem_of_cons in Hn. destruct Hn as [Ha Hn].
    rewrite (IH _ _ H Hn), (obligations_act _ _ _ E (not_eq_sym Ha)).
    unfold submitted. cbn. rewrite <- app_assoc. reflexivity.
Qed.

(** X15: As long as the service is not torn down, no handler is lost,
    duplicated or overtaken: under every schedule of client calls, worker
    steps and host steps, with any backend, the handlers that have been
    called, followed by those whose completion is posted and those whose
    operation is pending, are exactly the handlers submitted with
    [asyncMonitor], in the order of submission. *)
Theorem handlers_are_served_once_in_order acts s :
  run_actions acts svc_init = Some s ->
  act_teardown ∉ acts ->
  map c_handler (invoked (world s)) ++
  map c_handler (ios_queue (host (world s))) ++
  map mHandler (pending (world s)) = submitted acts.
Proof.
  intros H Hn. exact (obligations_run acts _ _ H Hn).
Qed.

(** *** With the destructor *)

Lemma obligations_posted w :
  obligations w = map c_handler (posted w) ++ map mHandler (pending w).
Proof. unfold obligations, posted. rewrite map_app, <- app_assoc. reflexivity. Qed.

(** Once the destructor has returned nothing is posted any more. *)
Lemma gone_act (a : @action path Handler) s s' :
  in_service s -> dtor s = S_gone -> act a s = Some s' ->
  dtor s' = S_gone /\ posted (world s') = posted (world s).
Proof.
  intros Hin Hd H. pose proof (act_world _ _ _ H) as Hw.
  unfold in_service in Hin. rewrite Hd in Hin. destruct Hin as (_ & _ & Ht).
  destruct a as [|i r|i|k|k| | | | |]; cbn [act] in H.
  - injection H as <-. auto.
  - split.
    + unfold client_call in H.
      destruct (clients s !! i) as [impl|]; [|discriminate H].
      destruct (perform r impl (world s)) as [impl' w'|e w'|w'].
      * injection H as <-. exact Hd.
      * destruct (is_assertion e); [discriminate H|]. injection H as <-. exact Hd.
      * destruct impl; [|discriminate H]. injection H as <-. exact Hd.
    + destruct r; try exact (posted_frame _ _ Hw).
      destruct Hw as [impl ->]. reflexivity.
  - split; [|exact (posted_frame _ _ Hw)].
    destruct (clients s !! i) as [impl|]; [|discriminate H].
    destruct (destroy_begin impl (world s)) as [u w'| |]; try discriminate H.
    injection H as <-. exact Hd.
  - split; [|exact (posted_frame _ _ Hw)].
    destruct (destroying s !! k) as [i|]; [|discriminate H].
    destruct (clients s !! i) as [impl|]; [|discriminate H].
    destruct (destroy_end impl (world s)) as [impl' w'| |]; try discriminate H.
    injection H as <-. exact Hd.
  - split; [|exact (posted_frame _ _ Hw)].
    destruct (monitoring s !! k) as [l|]; [|discriminate H].
    destruct (invoke_popFrontEvent (Some l) (world s)) as [r w'| |];
      try discriminate H.
    injection H as <-. exact Hd.
  - unfold worker_step in Hw. rewrite Ht in Hw. discriminate Hw.
  - split; [|exact (posted_host_step _ _ Hw)].
    destruct (host_step (world s)); [|discriminate H]. injection H as <-. exact Hd.
  - rewrite Hd in H. discriminate H.
  - rewrite Hd in H. discriminate H.
  - rewrite Hd in H. discriminate H.
Qed.

Lemma accounted_act (a : @action path Handler) s s' (sub : list Handler) :
  in_service s -> accounted_for sub s -> act a s = Some s' ->
  accounted_for (sub ++ submits a) s'.
Proof.
  intros Hin (rest & Hsub & Hrest) H.
  assert (Hgone : dtor s = S_gone \/ dtor s <> S_gone)
    by (destruct (dtor s); auto; right; discriminate).
  destruct Hgone as [Hg|Hg].
  - destruct (gone_act _ _ _ Hin Hg H) as [Hg' Hp].
    exists (rest ++ submits a). rewrite Hp, Hsub, app_assoc.
    split; [reflexivity | contradiction].
  - specialize (Hrest Hg). subst rest.
    rewrite <- obligations_posted in Hsub.
    assert (Htd : a = act_teardown \/ a <> act_teardown)
      by (destruct a; auto; right; discriminate).
    destruct Htd as [->|Hn].
    + pose proof (act_world _ _ _ H) as [Hw _].
      cbn [act] in H. destruct (dtor s); try discriminate H.
      destruct (mAsyncMonitorThread (world s)); try discriminate H.
      injection H as <-. cbn [world dtor submits].
      exists (map mHandler (pending (world s))).
      rewrite app_nil_r, Hsub, obligations_posted.
      split; [reflexivity | contradiction].
    + exists (map mHandler (pending (world s'))).
      split; [|reflexivity].
      rewrite <- obligations_posted, (obligations_act _ _ _ H Hn), Hsub.
      reflexivity.
Qed.

Lemma accounted_run acts : forall s s' (sub : list Handler),
  in_service s -> accounted_for sub s ->
  run_actions acts s = Some s' ->
  accounted_for (sub ++ submitted acts) s'.
Proof.
  induction acts as [|a acts IH]; intros s s' sub Hin Hacc; cbn [run_actions].
  - intros [= <-]. unfold submitted. cbn. rewrite app_nil_r. exact Hacc.
  - destruct (act a s) as [s1|] eqn:E; [|discriminate].
    intros H. unfold submitted. cbn. rewrite app_assoc.
    exact (IH _ _ _ (in_service_act _ _ _ Hin E) (accounted_act _ _ _ _ Hin Hacc E) H).
Qed.

(** The worker takes the oldest operation of its queue and runs it as far
    as the backend lets it. *)
Lemma worker_step_head op q w :
  mAsyncMonitorThread w = T_run ->
  mAsyncMonitorIoService w = mk_io_service (op :: q) false ->
  exists w',
    worker_step w = Some w' /\
    match observed w (mImpl op) with
    | None => posted w' = posted w ++ [aborted_completion op] /\ pending w' = q
    | Some x =>
        match impl_popFrontEvent (obj x) with
        | Some (ec, ev, _) =>
            posted w' = posted w ++ [bind_handler (mHandler op) ec ev] /\
            pending w' = q
        | None => posted w' = posted w /\ pending w' = op :: q
        end
    end.
Proof.
  intros Ht Hq. unfold worker_step. rewrite Ht, Hq. cbn [ios_stopped ios_queue].
  set (w1 := set_ios (mk_io_service q false) w).
  assert (Ho : observed w1 (mImpl op) = observed w (mImpl op)) by reflexivity.
  destruct (observed w (mImpl op)) as [x|] eqn:Hobs.
  - destruct (mImpl op) as [l|] eqn:Hm; [|discriminate Ho]. cbn in Ho.
    destruct (impl_popFrontEvent (obj x)) as [[[ec ev] b']|] eqn:Hp.
    + rewrite (call_succeeds _ _ _ _ _ _ _ Hm Ho Hp).
      eexists. split; [reflexivity|].
      unfold posted, pending, running. cbn. rewrite Ht, app_assoc. auto.
    + rewrite (call_blocks _ _ _ _ Hm Ho Hp).
      eexists. split; [reflexivity|].
      unfold posted, pending, running. cbn. auto.
  - rewrite (call_aborts _ _ Ho).
    eexists. split; [reflexivity|].
    unfold posted, pending, running. cbn. rewrite Ht, app_assoc. auto.
Qed.

(** The worker inside the pop of a live backend: it goes on when the pop
    returns, and not before. *)
Lemma worker_step_inside op l x w :
  mAsyncMonitorThread w = T_blocked op ->
  mImpl op = Some l ->
  alive w l = Some x ->
  match impl_popFrontEvent (obj x) with
  | Some (ec, ev, _) =>
      exists w',
        worker_step w = Some w' /\
        posted w' = posted w ++ [bind_handler (mHandler op) ec ev] /\
        pending w' = ios_queue (mAsyncMonitorIoService w)
  | None => worker_step w = None
  end.
Proof.
  intros Ht Hm Ha. unfold worker_step. rewrite Ht, Hm.
  destruct (impl_popFrontEvent (obj x)) as [[[ec ev] b']|] eqn:Hp.
  - rewrite (resume_returns _ _ _ _ _ _ _ Ha Hp).
    eexists. split; [reflexivity|].
    unfold posted, pending, running. cbn. rewrite app_assoc. auto.
  - rewrite (resume_blocks _ _ _ _ Ha Hp). reflexivity.
Qed.

(** C1, as amended. Under every schedule of the threads, the destructor of
    the service included: the completions posted so far are those of the
    operations submitted first, one each, in the order of submission, so no
    operation has posted two; as long as the worker's queue has not been
    destroyed, the operations behind them are all pending, so none has
    been lost. And the worker posts: when it takes the oldest operation
    from its queue, it posts that operation's one completion at once if
    the observation does not resolve or the backend's pop returns, and
    waits inside the pop otherwise; when it is inside the pop, which is
    then the pop of a live backend, it posts the completion as soon as the
    pop returns. What is still pending when the destructor returns from
    [join] is dropped, and nothing is posted for it. *)
Theorem MonitorOperation_posts_exactly_once acts s :
  run_actions acts svc_init = Some s ->
  map c_handler (posted (world s)) `prefix_of` submitted acts /\
  (act_teardown ∉ acts ->
   map c_handler (posted (world s)) ++ map mHandler (pending (world s)) =
     submitted acts) /\
  (forall op q,
      mAsyncMonitorThread (world s) = T_run ->
      mAsyncMonitorIoService (world s) = mk_io_service (op :: q) false ->
      exists w',
        worker_step (world s) = Some w' /\
        match observed (world s) (mImpl op) with
        | None =>
            posted w' = posted (world s) ++ [aborted_completion op] /\
            pending w' = q
        | Some x =>
            match impl_popFrontEvent (obj x) with
            | Some (ec, ev, _) =>
                posted w' =
                  posted (world s) ++ [bind_handler (mHandler op) ec ev] /\
                pending w' = q
            | None => posted w' = posted (world s) /\ pending w' = op :: q
            end
        end) /\
  (forall op,
      mAsyncMonitorThread (world s) = T_blocked op ->
      exists l x,
        mImpl op = Some l /\ alive (world s) l = Some x /\
        match impl_popFrontEvent (obj x) with
        | Some (ec, ev, _) =>
            exists w',
              worker_step (world s) = Some w' /\
              posted w' =
                posted (world s) ++ [bind_handler (mHandler op) ec ev] /\
              pending w' = ios_queue (mAsyncMonitorIoService (world s))
        | None => worker_step (world s) = None
        end) /\
  (forall s',
      act act_teardown s = Some s' ->
      posted (world s') = posted (world s) /\ pending (world s') = []).
Proof.
  intros H. split; [|split; [|split; [|split]]].
  - assert (Hacc : accounted_for (@nil Handler ++ submitted acts) s).
    { apply (accounted_run acts svc_init s []); [exact in_service_init| |exact H].
      exists []. split; [reflexivity|]. intros _. reflexivity. }
    destruct Hacc as (rest & Hsub & _). exists rest. exact Hsub.
  - intros Hn. rewrite <- obligations_posted.
    exact (obligations_run acts _ _ H Hn).
  - intros op q Ht Hq. exact (worker_step_head op q (world s) Ht Hq).
  - intros op Ht.
    destruct (owned_worker_alive _ _ _ (owned_reachable _ (run_reachable _ _ H)) Ht)
      as (l & x & Hm & Ha).
    exists l, x. split; [exact Hm|]. split; [exact Ha|].
    exact (worker_step_inside op l x (world s) Ht Hm Ha).
  - intros s' Ht. cbn [act] in Ht.
    destruct (dtor s); try discriminate Ht.
    destruct (mAsyncMonitorThread (world s)) eqn:E; try discriminate Ht.
    injection Ht as <-. cbn [world].
    split; [reflexivity|].
    unfold pending, running. cbn. rewrite E. reflexivity.
Qed.

End Obligations.

(** ** After destroy *)

Section AfterDestroy.
Context {path : Type} `{FS : Filesystem path}.
Context `{Impl : FileMonitorImplementation path}.
Context {Handler : Type}.

Variable D : impl_t -> Prop.
Hypothesis HD : pop_aborts D.

Implicit Types (impl : implementation_type) (l : loc)
         (x y : @cell path Impl) (w : @World path Impl Handler)
         (op : @MonitorOperation Handler)
         (Q : list (@MonitorOperation Handler))
         (base : list (@completion path Impl Handler))
         (cl : list implementation_type)
         (s : @System path Impl Handler)
         (ws : list (@action path Handler)).

Lemma alive_cell w l x y :
  alive w l = Some x -> heap w !! l = Some y -> x = y.
Proof.
  intros Ha Hy. destruct (alive_Some _ _ _ Ha) as (Hx & _ & _).
  unfold loc in *. congruence.
Qed.

(** The worker executes the oldest pending operation, which ends with an
    aborted completion: the observation does not resolve, or the pop of
    the destroyed backend returns [operation_aborted]. *)
Lemma aborting_worker_step l Q base w w' :
  Forall (fun op => mImpl op = Some l) Q ->
  aborting D l Q base w ->
  worker_step w = Some w' ->
  aborting D l Q base w' /\ S (length (pending w')) = length (pending w).
Proof.
  intros HQ (done & Hp & HF & Hi & Hs & Hwk & Hne & y & Hy & HDy) Hw.
  unfold worker_step in Hw. unfold pending, running in Hp.
  destruct (mAsyncMonitorThread w) as [|r|] eqn:Eth; [| |contradiction].
  - rewrite Hs in Hw.
    destruct (ios_queue (mAsyncMonitorIoService w)) as [|op q] eqn:Eq.
    { rewrite Hwk in Hw. discriminate Hw. }
    destruct (next_pending _ _ _ _ _ HQ (eq_sym Hp)) as (Hop & Hq & Htake).
    set (w1 := set_ios (mk_io_service q false) w) in *.
    assert (Hlen : length (pending w) = S (length q)).
    { unfold pending, running. rewrite Eth, Eq. reflexivity. }
    destruct (call_inv op w1)
      as [[_ E]|(l0 & x & Hm & Ha & [(ec & ev & b' & Hpop & E)|[Hpop E]])];
      rewrite E in Hw.
    + injection Hw as <-. split.
      * exists (done ++ [aborted_completion op]).
        rewrite length_app, Nat.add_1_r, Htake.
        unfold pending, running, posted. cbn. rewrite Eth.
        split; [exact Hq|].
        split; [apply Forall2_app; [exact HF | repeat constructor]|].
        split; [unfold posted in Hi; rewrite app_assoc, Hi, <- app_assoc; reflexivity|].
        split; [reflexivity|]. split; [exact Hwk|]. split; [discriminate|].
        exists y. auto.
      * rewrite Hlen. unfold pending, running. cbn. rewrite Eth. reflexivity.
    + assert (l0 = l) by congruence. subst l0.
      assert (x = y) by (apply (alive_cell w1 l); [exact Ha | exact Hy]). subst x.
      destruct (HD _ HDy) as (ev0 & b0 & Hpop0 & HDb).
      rewrite Hpop in Hpop0. injection Hpop0 as -> -> ->.
      destruct (alive_Some _ _ _ Ha) as (_ & _ & Hlt).
      injection Hw as <-. split.
      * exists (done ++ [bind_handler (mHandler op) operation_aborted ev0]).
        rewrite length_app, Nat.add_1_r, Htake.
        unfold pending, running, posted. cbn. rewrite Eth.
        split; [exact Hq|].
        split; [apply Forall2_app; [exact HF | repeat constructor]|].
        split; [unfold posted in Hi; rewrite app_assoc, Hi, <- app_assoc; reflexivity|].
        split; [reflexivity|]. split; [exact Hwk|]. split; [discriminate|].
        exists (mk_cell b0 (use_count y)).
        split; [apply list_lookup_insert_eq, Hlt | exact HDb].
      * rewrite Hlen. unfold pending, running. cbn. rewrite Eth. reflexivity.
    + assert (l0 = l) by congruence. subst l0.
      assert (x = y) by (apply (alive_cell w1 l); [exact Ha | exact Hy]). subst x.
      destruct (HD _ HDy) as (ev0 & b0 & Hpop0 & _). congruence.
  - destruct (next_pending _ _ _ _ _ HQ (eq_sym Hp)) as (Hr & Hq & Htake).
    rewrite Hr in Hw.
    destruct (MonitorOperation_resume r (Some l) w) as [[] w1| |] eqn:Hres;
      try discriminate Hw.
    injection Hw as <-.
    destruct (resume_inv _ _ _ _ Hres) as (x & ec & ev & b' & Ha & Hpop & ->).
    assert (x = y) by (apply (alive_cell w l); [exact Ha | exact Hy]). subst x.
    destruct (HD _ HDy) as (ev0 & b0 & Hpop0 & HDb).
    rewrite Hpop in Hpop0. injection Hpop0 as -> -> ->.
    destruct (alive_Some _ _ _ Ha) as (_ & _ & Hlt).
    split.
    + exists (done ++ [bind_handler (mHandler r) operation_aborted ev0]).
      rewrite length_app, Nat.add_1_r, Htake.
      unfold pending, running, posted. cbn.
      split; [exact Hq|].
      split; [apply Forall2_app; [exact HF | repeat constructor]|].
      split; [unfold posted in Hi; rewrite app_assoc, Hi, <- app_assoc; reflexivity|].
      split; [exact Hs|]. split; [exact Hwk|]. split; [discriminate|].
      exists (mk_cell b0 (Nat.pred (use_count y))).
      split; [apply list_lookup_insert_eq, Hlt | exact HDb].
    + unfold pending, running. cbn. rewrite Eth. reflexivity.
Qed.

Lemma aborting_host_step l Q base w w' :
  aborting D l Q base w ->
  host_step w = Some w' ->
  aborting D l Q base w'.
Proof.
  intros (done & Hp & HF & Hi & Hs & Hwk & Hne & Hy) Hh.
  pose proof (posted_host_step _ _ Hh) as Hpost.
  unfold host_step in Hh.
  destruct (ios_queue (host w)) as [|c q] eqn:Eq; [discriminate|].
  injection Hh as <-. exists done.
  split; [exact Hp|]. split; [exact HF|].
  split; [rewrite Hpost; exact Hi|].
  split; [exact Hs|]. split; [exact Hwk|]. split; [exact Hne | exact Hy].
Qed.

(** A strong pointer is given up somewhere: the backend object at [l] is
    what it was, deleted or not. *)
Lemma aborting_reset l Q base impl w impl' w' :
  aborting D l Q base w ->
  sp_reset impl w = Ret impl' w' ->
  aborting D l Q base w'.
Proof.
  intros (done & Hp & HF & Hi & Hs & Hwk & Hne & y & Hy & HDy) H.
  destruct (sp_reset_framed _ _ _ _ H) as (Hh & Hinv & Hq & Hw & Ht).
  exists done. unfold pending, running, posted in *.
  rewrite Hh, Hinv, Hq, Hw, Ht.
  do 6 (split; [assumption|]).
  destruct impl as [l0|]; cbn in H; injection H as _ <-; [|eauto].
  unfold release. destruct (heap w !! l0) as [c|] eqn:Hc; [|eauto].
  cbn. destruct (decide (l0 = l)) as [->|Hn].
  - exists (mk_cell (obj c) (Nat.pred (use_count c))). split.
    + apply list_lookup_insert_eq. eapply lookup_lt_Some. exact Hc.
    + unfold loc in *. replace c with y by congruence. exact HDy.
  - exists y. split; [|exact HDy].
    etrans; [apply list_lookup_insert_ne; exact Hn | exact Hy].
Qed.

Lemma aborting_act l Q base (a : @action path Handler) s s' :
  Forall (fun op => mImpl op = Some l) Q ->
  runs_on a ->
  aborting D l Q base (world s) ->
  act a s = Some s' ->
  aborting D l Q base (world s').
Proof.
  intros HQ Ha Hinv H.
  destruct a as [|i r|i|k|k| | | | |]; try contradiction; cbn [act] in H.
  - destruct (destroying s !! k) as [i|]; [|discriminate H].
    destruct (clients s !! i) as [impl|]; [|discriminate H].
    destruct (destroy_end impl (world s)) as [impl' w'| |] eqn:E; try discriminate H.
    injection H as <-. exact (aborting_reset _ _ _ _ _ _ _ Hinv E).
  - destruct (worker_step (world s)) as [w'|] eqn:E; [|discriminate H].
    injection H as <-. exact (proj1 (aborting_worker_step _ _ _ _ _ HQ Hinv E)).
  - destruct (host_step (world s)) as [w'|] eqn:E; [|discriminate H].
    injection H as <-. exact (aborting_host_step _ _ _ _ _ Hinv E).
Qed.

Lemma aborting_run l Q base ws : forall s s',
  Forall (fun op => mImpl op = Some l) Q ->
  Forall runs_on ws ->
  aborting D l Q base (world s) ->
  run_actions ws s = Some s' ->
  aborting D l Q base (world s').
Proof.
  induction ws as [|a ws IH]; intros s s' HQ Hws Hinv; cbn [run_actions].
  - intros [= <-]. exact Hinv.
  - apply Forall_cons in Hws as [Ha Hws].
    destruct (act a s) as [s1|] eqn:E; [|discriminate].
    apply (IH _ _ HQ Hws). exact (aborting_act _ _ _ _ _ _ HQ Ha Hinv E).
Qed.

(** As long as an operation is pending, the worker can move. *)
Lemma aborting_progress l Q base cl w :
  Forall (fun op => mImpl op = Some l) Q ->
  owned_by cl w ->
  aborting D l Q base w ->
  pending w <> [] ->
  exists w', worker_step w = Some w'.
Proof.
  intros HQ Ho (done & Hp & HF & Hi & Hs & Hwk & Hne & y & Hy & HDy) Hpend.
  unfold worker_step. unfold pending, running in Hp, Hpend.
  destruct (mAsyncMonitorThread w) as [|r|] eqn:Eth; [| |contradiction].
  - rewrite Hs.
    destruct (ios_queue (mAsyncMonitorIoService w)) as [|op q] eqn:Eq;
      [contradiction|].
    destruct (call_inv op (set_ios (mk_io_service q false) w))
      as [[_ E]|(l0 & x & Hm & Ha & [(ec & ev & b' & Hpop & E)|[Hpop E]])];
      rewrite E; eauto.
  - destruct (next_pending _ _ _ _ _ HQ (eq_sym Hp)) as (Hr & _ & _).
    destruct (owned_worker_alive _ _ _ Ho Eth) as (l0 & x & Hm & Ha).
    assert (l0 = l) by congruence. subst l0.
    assert (x = y) by (apply (alive_cell w l); [exact Ha | exact Hy]). subst x.
    destruct (HD _ HDy) as (ev0 & b0 & Hpop0 & _).
    rewrite Hr, (resume_returns _ _ _ _ _ _ _ Ha Hpop0). eauto.
Qed.

(** When nothing is left to run, every operation of [Q] has been executed
    and every completion has been called. *)
Lemma aborting_quiescent l Q base cl w :
  Forall (fun op => mImpl op = Some l) Q ->
  owned_by cl w ->
  aborting D l Q base w ->
  quiescent w ->
  exists cs, invoked w = base ++ cs /\ Forall2 aborted_call Q cs.
Proof.
  intros HQ Ho Hinv [Hw Hh].
  assert (Hnone : pending w = []).
  { destruct (pending w) as [|op q] eqn:E; [reflexivity|].
    destruct (aborting_progress _ _ _ _ _ HQ Ho Hinv) as [w' Hw'];
      [rewrite E; discriminate | congruence]. }
  destruct Hinv as (done & Hp & HF & Hi & _).
  exists done.
  assert (Hhost : ios_queue (host w) = []).
  { unfold host_step in Hh. destruct (ios_queue (host w)); [reflexivity|discriminate]. }
  unfold posted in Hi. rewrite Hhost, app_nil_r in Hi. split; [exact Hi|].
  rewrite Hnone in Hp.
  assert (Hlen : (length Q <= length done)%nat).
  { apply (f_equal length) in Hp. rewrite length_drop in Hp. cbn in Hp. lia. }
  rewrite (take_ge _ _ Hlen) in HF. exact HF.
Qed.

(** The worker gets through the pending operations, one step each. *)
Lemma aborting_drains l Q base cl (n : nat) : forall w,
  Forall (fun op => mImpl op = Some l) Q ->
  owned_by cl w ->
  aborting D l Q base w ->
  length (pending w) = n ->
  exists w', worker_run n w = Some w' /\
             aborting D l Q base w' /\ pending w' = [].
Proof.
  induction n as [|n IH]; intros w HQ Ho Hinv Hlen.
  - exists w. split; [reflexivity|]. split; [exact Hinv|].
    destruct (pending w); [reflexivity | discriminate Hlen].
  - destruct (aborting_progress _ _ _ _ _ HQ Ho Hinv) as [w1 Hw1].
    { intros E. rewrite E in Hlen. discriminate Hlen. }
    destruct (aborting_worker_step _ _ _ _ _ HQ Hinv Hw1) as [Hinv1 Hl1].
    destruct (IH w1 HQ (owned_worker_step _ _ _ Ho Hw1) Hinv1) as (w' & Hr & Hi' & Hp');
      [lia|].
    exists w'. cbn [worker_run]. rewrite Hw1. auto.
Qed.

Lemma run_workers (n : nat) : forall s w',
  worker_run n (world s) = Some w' ->
  run_actions (replicate n (@act_worker path Handler)) s = Some (with_world w' s).
Proof.
  induction n as [|n IH]; intros s w'; cbn [worker_run replicate run_actions act].
  - intros [= <-]. destruct s. reflexivity.
  - destruct (worker_step (world s)) as [w1|]; [|discriminate].
    intros H. exact (IH (with_world w1 s) w' H).
Qed.

Lemma run_hosts (n : nat) : forall s w',
  host_run n (world s) = Some w' ->
  run_actions (replicate n (@act_host path Handler)) s = Some (with_world w' s).
Proof.
  induction n as [|n IH]; intros s w'; cbn [host_run replicate run_actions act].
  - intros [= <-]. destruct s. reflexivity.
  - destruct (host_step (world s)) as [w1|]; [|discriminate].
    intros H. exact (IH (with_world w1 s) w' H).
Qed.

(** C3, as amended. The service is alive (its destructor has not begun),
    every pending operation observes the backend that is destroyed, and
    the pop of that backend returns [operation_aborted] once it has been
    destroyed. Then, from [impl->destroy()] on, however the worker, the
    host loop and [impl.reset()] are interleaved: once nothing is left to
    run, the handlers called since are exactly those of the pending
    operations, one call each, in their order, each with
    [operation_aborted]. And there is such a run, with [destroy]
    completed. *)
Theorem destroy_aborts_pending_unless_torn_down s (i : nat) l :
  reachable s ->
  dtor s = S_alive ->
  clients s !! i = Some (Some l) ->
  Forall (fun op => mImpl op = Some l) (pending (world s)) ->
  (forall x, alive (world s) l = Some x -> D (impl_destroy (obj x))) ->
  (forall ws s',
      Forall runs_on ws ->
      run_actions (act_destroy_call i :: ws) s = Some s' ->
      quiescent (world s') ->
      exists cs, calls_since (world s) (world s') cs /\
                 Forall2 aborted_call (pending (world s)) cs) /\
  (exists ws s',
      Forall runs_on ws /\
      act_destroy_reset (length (destroying s)) ∈ ws /\
      run_actions (act_destroy_call i :: ws) s = Some s' /\
      quiescent (world s') /\
      clients s' !! i = Some None).
Proof.
  intros Hr Hd Hi HQ HDx.
  change (@lookup nat implementation_type (list implementation_type) _
            i (clients s) = Some (Some l)) in Hi.
  pose proof (owned_reachable _ Hr) as Ho.
  pose proof (in_service_reachable _ Hr) as Hin.
  unfold in_service in Hin. rewrite Hd in Hin. destruct Hin as (Hwk & Hs & Hne).
  destruct (owned_client_alive _ _ _ _ Ho Hi) as [x Ha].
  destruct (alive_Some _ _ _ Ha) as (Hx & _ & Hlt).
  set (w1 := after_call l call_destroy (impl_destroy (obj x)) x (world s)).
  set (s1 := mk_System (clients s) w1 (destroying s ++ [i]) (monitoring s) (dtor s)).
  assert (E1 : act (act_destroy_call i) s = Some s1).
  { cbn [act]. rewrite Hi. unfold destroy_begin.
    rewrite (invoke_alive l x call_destroy (fun b => (tt, impl_destroy b)) _ Ha).
    reflexivity. }
  assert (Hinv1 : aborting D l (pending (world s)) (posted (world s)) (world s1)).
  { exists []. cbn. rewrite app_nil_r.
    do 3 (split; [first [reflexivity | constructor]|]).
    split; [exact Hs|]. split; [exact Hwk|]. split; [exact Hne|].
    exists (mk_cell (impl_destroy (obj x)) (use_count x)).
    split; [apply list_lookup_insert_eq, Hlt | exact (HDx x Ha)]. }
  pose proof (reachable_act _ _ _ Hr E1) as Hr1.
  split.
  - intros ws s' Hws Hrun Hq. cbn [run_actions] in Hrun. rewrite E1 in Hrun.
    pose proof (aborting_run _ _ _ _ _ _ HQ Hws Hinv1 Hrun) as Hinv.
    pose proof (owned_reachable _ (reachable_run _ _ _ Hr1 Hrun)) as Ho'.
    destruct (aborting_quiescent _ _ _ _ _ HQ Ho' Hinv Hq) as (cs & Hcs & HF).
    exists cs. split; [|exact HF].
    unfold calls_since. rewrite Hcs. unfold posted. rewrite <- app_assoc. reflexivity.
  - (* the run: [impl.reset()], the worker through the queue, the host loop *)
    set (s2 := mk_System (<[i := None]> (clients s)) (release l w1)
                 (delete (length (destroying s)) (destroying s ++ [i]))
                 (monitoring s) (dtor s)).
    assert (E2 : act (act_destroy_reset (length (destroying s))) s1 = Some s2).
    { cbn [act s1 destroying clients world monitoring dtor].
      rewrite (list_lookup_middle (destroying s) [] i (length (destroying s)) eq_refl).
      rewrite Hi. reflexivity. }
    assert (Hinv2 : aborting D l (pending (world s)) (posted (world s)) (world s2)).
    { exact (aborting_act _ _ _ (act_destroy_reset (length (destroying s)))
               s1 s2 HQ I Hinv1 E2). }
    pose proof (owned_reachable _ (reachable_act _ _ _ Hr1 E2)) as Ho2.
    destruct (aborting_drains _ _ _ _ (length (pending (world s2))) (world s2)
                HQ Ho2 Hinv2 eq_refl) as (w3 & Hrun3 & Hinv3 & Hp3).
    pose proof (host_run_all (ios_queue (host w3)) w3 eq_refl) as Hrun4.
    set (w4 := set_invoked (invoked w3 ++ ios_queue (host w3))
                 (set_host (mk_io_service [] (ios_stopped (host w3))) w3)) in *.
    exists (act_destroy_reset (length (destroying s)) ::
            replicate (length (pending (world s2))) act_worker ++
            replicate (length (ios_queue (host w3))) act_host),
           (with_world w4 s2).
    split.
    { constructor; [exact I|]. apply Forall_app. split; apply Forall_replicate; exact I. }
    split; [apply elem_of_cons; left; reflexivity|].
    split.
    { cbn [run_actions]. rewrite E1, E2, run_actions_app.
      rewrite (run_workers _ s2 w3 Hrun3).
      exact (run_hosts _ (with_world w3 s2) w4 Hrun4). }
    split.
    { destruct Hinv3 as (done & _ & _ & _ & Hs3 & Hwk3 & Hne3 & _).
      unfold pending, running in Hp3.
      split.
      - unfold worker_step. cbn.
        destruct (mAsyncMonitorThread w3) as [|r|]; [| discriminate Hp3 | contradiction].
        cbn in Hp3. rewrite Hs3, Hp3, Hwk3. reflexivity.
      - reflexivity. }
    cbn. apply list_lookup_insert_eq. eapply lookup_lt_Some. exact Hi.
Qed.

End AfterDestroy.

(** ** The service on the sample filesystem and the sample backend *)

Lemma addPath_rejects_non_directory_witness :
  (exists e,
      sample_addPath (Some 0%nat) "/tmp/a.txt" "*.txt" constructed_world =
        Throw e constructed_world /\
      (@is_directory string sample_fs "/tmp/a.txt" = Ok false ->
       e = InvalidPath "/tmp/a.txt") /\
      (forall s, @is_directory string sample_fs "/tmp/a.txt" = Err s ->
                 e = boost_filesystem_error s)) /\
  (forall id w',
      sample_addPath (Some 0%nat) "/tmp/a.txt" "*.txt" constructed_world <> Ret id w').
Proof.
  apply (@addPath_rejects_non_directory string sample_fs queue_impl nat).
  vm_compute. discriminate.
Defined.

(** C6, as stated, fails: [/tmp/ping] is a symbolic link, not a directory,
    and [addPath] does not throw [InvalidPath] for it: the directory test
    follows the link, runs into the loop, and its [filesystem_error]
    leaves [addPath]. *)
Lemma addPath_link_loop_gets_filesystem_error :
  sample_tree !! "/tmp/ping" = Some (n_symlink "/tmp/pong") /\
  @is_directory string sample_fs "/tmp/ping" <> Ok true /\
  exists e,
    sample_addPath (Some 0%nat) "/tmp/ping" "*.txt" constructed_world =
      Throw e constructed_world /\
    class_of e = cls_filesystem_error /\
    e <> InvalidPath "/tmp/ping".
Proof.
  split; [vm_compute; reflexivity|].
  split; [vm_compute; discriminate|].
  eexists. split; [vm_compute; reflexivity|].
  split; [reflexivity | discriminate].
Qed.

Lemma addFile_rejects_non_regular_file_witness :
  (exists e,
      sample_addFile (Some 0%nat) "/tmp/nonexistent" constructed_world =
        Throw e constructed_world /\
      (@is_regular_file string sample_fs "/tmp/nonexistent" = Ok false ->
       e = InvalidPath "/tmp/nonexistent") /\
      (forall s, @is_regular_file string sample_fs "/tmp/nonexistent" = Err s ->
                 e = boost_filesystem_error s)) /\
  (forall id w',
      sample_addFile (Some 0%nat) "/tmp/nonexistent" constructed_world <> Ret id w').
Proof.
  apply (@addFile_rejects_non_regular_file string sample_fs queue_impl nat).
  vm_compute. discriminate.
Defined.

(** C7, as stated, fails: [/tmp/ping] is not a regular file, and [addFile]
    does not throw [InvalidPath] for it but the [filesystem_error] of the
    regular-file test. *)
Lemma addFile_link_loop_gets_filesystem_error :
  sample_tree !! "/tmp/ping" = Some (n_symlink "/tmp/pong") /\
  @is_regular_file string sample_fs "/tmp/ping" <> Ok true /\
  exists e,
    sample_addFile (Some 0%nat) "/tmp/ping" constructed_world =
      Throw e constructed_world /\
    class_of e = cls_filesystem_error /\
    e <> InvalidPath "/tmp/ping".
Proof.
  split; [vm_compute; reflexivity|].
  split; [vm_compute; discriminate|].
  eexists. split; [vm_compute; reflexivity|].
  split; [reflexivity | discriminate].
Qed.

Lemma addFile_checks_regular_file_first_witness :
  (exists e,
      sample_addFile (Some 0%nat) "/tmp/link_to_dir" constructed_world =
        Throw e constructed_world /\
      e <> UnresolvedSymlink "/tmp/link_to_dir" /\
      (@is_regular_file string sample_fs "/tmp/link_to_dir" = Ok false ->
       e = InvalidPath "/tmp/link_to_dir") /\
      (forall s, @is_regular_file string sample_fs "/tmp/link_to_dir" = Err s ->
                 e = boost_filesystem_error s)) /\
  (forall q w',
      sample_addFile (Some 0%nat) q constructed_world =
        Throw (UnresolvedSymlink q) w' ->
      @is_regular_file string sample_fs q = Ok true /\
      @unresolved_symlink string sample_fs q).
Proof.
  apply (@addFile_checks_regular_file_first
           string sample_fs queue_impl nat (Some 0%nat)
           "/tmp/link_to_dir" "/tmp" constructed_world);
    vm_compute; first [reflexivity | discriminate].
Defined.

(** C10, as stated, fails: [/tmp/ping] is a symlink whose link text
    differs from the path and it is not a regular file, yet [addFile] does
    not throw [InvalidPath] for it (nor [UnresolvedSymlink]). *)
Lemma addFile_link_loop_is_neither_failure :
  @is_symlink string sample_fs "/tmp/ping" = Ok true /\
  @read_symlink string sample_fs "/tmp/ping" = Ok "/tmp/pong" /\
  @path_ne string sample_fs "/tmp/pong" "/tmp/ping" = true /\
  @is_regular_file string sample_fs "/tmp/ping" <> Ok true /\
  exists e,
    sample_addFile (Some 0%nat) "/tmp/ping" constructed_world =
      Throw e constructed_world /\
    e <> InvalidPath "/tmp/ping" /\ e <> UnresolvedSymlink "/tmp/ping".
Proof.
  split; [vm_compute; reflexivity|].
  split; [vm_compute; reflexivity|].
  split; [vm_compute; reflexivity|].
  split; [vm_compute; discriminate|].
  eexists. split; [vm_compute; reflexivity|].
  split; discriminate.
Qed.

Lemma InvalidPath_and_UnresolvedSymlink_are_distinct_witness :
  exists e1 e2 e3,
    sample_addPath (Some 0%nat) "/tmp/a.txt" "*.txt" constructed_world =
      Throw e1 constructed_world /\
    sample_addFile (Some 0%nat) "/tmp/nonexistent" constructed_world =
      Throw e2 constructed_world /\
    sample_addFile (Some 0%nat) "/tmp/link_to_file" constructed_world =
      Throw e3 constructed_world /\
    class_of e1 = class_of e3 /\ class_of e2 = class_of e3 /\
    what e1 <> what e3 /\ what e2 <> what e3.
Proof.
  apply (@InvalidPath_and_UnresolvedSymlink_are_distinct
           string sample_fs queue_impl nat (Some 0%nat)
           "/tmp/a.txt" "*.txt" "/tmp/nonexistent" "/tmp/link_to_file"
           "/tmp/a.txt" constructed_world);
    vm_compute; reflexivity.
Defined.

(** C8, as stated, fails: for [nul_path], [addPath] throws [InvalidPath]
    (the target is not a directory) and [addFile] throws
    [UnresolvedSymlink], and the caller cannot tell the two apart: they
    have the same type and the same text. *)
Lemma registration_failures_with_the_same_text :
  sample_addPath (Some 0%nat) nul_path "*.txt" constructed_world =
    Throw (InvalidPath nul_path) constructed_world /\
  sample_addFile (Some 0%nat) nul_path constructed_world =
    Throw (UnresolvedSymlink nul_path) constructed_world /\
  class_of (InvalidPath nul_path) = class_of (UnresolvedSymlink nul_path) /\
  what (InvalidPath nul_path) = what (UnresolvedSymlink nul_path).
Proof.
  split; [vm_compute; reflexivity|].
  split; [vm_compute; reflexivity|].
  split; vm_compute; reflexivity.
Qed.

(** How the sample systems come about. *)
Lemma one_client_reachable :
  @reachable string sample_fs queue_impl nat one_client.
Proof.
  apply (run_reachable [act_open; act_call 0%nat req_construct]). reflexivity.
Qed.

Lemma one_client_blocked_reachable :
  @reachable string sample_fs queue_impl nat one_client_blocked.
Proof. apply (run_reachable blocked_schedule). reflexivity. Qed.

Lemma one_client_destroyed_blocked_reachable :
  @reachable string sample_fs queue_impl nat one_client_destroyed_blocked.
Proof. apply (run_reachable destroyed_blocked_schedule). reflexivity. Qed.

Lemma one_client_monitoring_reachable :
  @reachable string sample_fs queue_impl nat one_client_monitoring.
Proof.
  apply (run_reachable [act_open; act_call 0%nat req_construct;
                        act_call 0%nat req_monitor]).
  reflexivity.
Qed.

(** The sample backend keeps the contract: destroyed and drained, its pop
    returns [operation_aborted] and leaves it so. *)
Lemma qb_drained_pop_aborts : @pop_aborts string queue_impl qb_drained.
Proof.
  intros [n ws es d] [Hd He]. cbn in Hd, He. subst d es.
  eexists _, _. split; [reflexivity|]. split; reflexivity.
Qed.

Lemma MonitorOperation_posts_exactly_once_witness :
  map c_handler (posted (world one_client_destroyed_blocked))
    `prefix_of` [7%nat; 8%nat; 9%nat] /\
  map c_handler (posted (world one_client_destroyed_blocked)) ++
  map mHandler (pending (world one_client_destroyed_blocked)) =
    [7%nat; 8%nat; 9%nat] /\
  exists l x,
    mImpl (sample_op (Some 0%nat) 7%nat) = Some l /\
    alive (world one_client_destroyed_blocked) l = Some x /\
    match impl_popFrontEvent (obj x) with
    | Some (ec, ev, _) =>
        exists w',
          worker_step (world one_client_destroyed_blocked) = Some w' /\
          posted w' =
            posted (world one_client_destroyed_blocked) ++
            [sample_completion 7%nat ec ev] /\
          pending w' =
            ios_queue (mAsyncMonitorIoService (world one_client_destroyed_blocked))
    | None => worker_step (world one_client_destroyed_blocked) = None
    end.
Proof.
  destruct (@MonitorOperation_posts_exactly_once string sample_fs queue_impl nat
              destroyed_blocked_schedule one_client_destroyed_blocked eq_refl)
    as (H1 & H2 & _ & H4 & _).
  split; [exact H1|]. split.
  - apply H2. intros H.
    repeat (apply elem_of_cons in H as [H|H]; [discriminate H|]).
    inversion H.
  - exact (H4 (sample_op (Some 0%nat) 7%nat) eq_refl).
Defined.

(** C1, as stated, fails: handler 7 is submitted, and the service is
    destroyed before the worker has taken the operation from its queue.
    The operation is gone and no completion has been posted for it. *)
Lemma asyncMonitor_then_teardown_posts_nothing :
  ~ @every_operation_posts_once string sample_fs queue_impl nat.
Proof.
  intros H.
  pose proof (H teardown_schedule) as H'. vm_compute in H'.
  specialize (H' _ eq_refl). discriminate H'.
Qed.

Lemma destroy_aborts_pending_unless_torn_down_witness :
  (forall ws s',
      Forall runs_on ws ->
      @run_actions string sample_fs queue_impl nat
        (act_destroy_call 0%nat :: ws) one_client_blocked = Some s' ->
      quiescent (world s') ->
      exists cs, calls_since (world one_client_blocked) (world s') cs /\
                 Forall2 aborted_call (pending (world one_client_blocked)) cs) /\
  (exists ws s',
      Forall runs_on ws /\
      act_destroy_reset (length (destroying one_client_blocked)) ∈ ws /\
      @run_actions string sample_fs queue_impl nat
        (act_destroy_call 0%nat :: ws) one_client_blocked = Some s' /\
      quiescent (world s') /\
      clients s' !! 0%nat = Some None).
Proof.
  apply (@destroy_aborts_pending_unless_torn_down string sample_fs queue_impl nat
           qb_drained qb_drained_pop_aborts one_client_blocked 0%nat 0%nat).
  - exact one_client_blocked_reachable.
  - reflexivity.
  - reflexivity.
  - repeat constructor.
  - intros x [= <-]. split; reflexivity.
Defined.

(** The three pending handlers of [one_client_blocked] when the worker
    moves between the two statements of [destroy]: the operation it was
    running ends with the pop of the destroyed backend, the next one locks
    the destroyed backend before [impl.reset()], the last one finds it gone;
    all three get [operation_aborted]. *)
Example blocked_world_all_aborted :
  option_map (fun s : sample_System => invoked (world s))
    (@run_actions string sample_fs queue_impl nat
       [act_destroy_call 0%nat; act_worker; act_worker;
        act_destroy_reset 0%nat; act_worker;
        act_host; act_host; act_host] one_client_blocked) =
  Some [sample_completion 7%nat operation_aborted (mk_event 0 EmptyString kind_null);
        sample_completion 8%nat operation_aborted (mk_event 0 EmptyString kind_null);
        sample_completion 9%nat operation_aborted (mk_event 0 EmptyString kind_null)].
Proof. reflexivity. Qed.

(** Not so when the backend still has an event to hand out: the worker
    takes handler 7 between the two statements of [destroy], locks the
    destroyed backend, and the pop returns the event. The handler is
    called with success, not with [operation_aborted]. *)
Example destroy_race_hands_out_the_event :
  match destroy_begin (Some 0%nat) event_ready_queued with
  | Ret _ w1 =>
      match worker_step w1 with
      | Some w2 =>
          match destroy_end (Some 0%nat) w2 with
          | Ret _ w3 => option_map invoked (host_step w3)
          | _ => None
          end
      | None => None
      end
  | _ => None
  end = Some [sample_completion 7%nat ec_success modified_a].
Proof. reflexivity. Qed.

(** The worker inside the pop for handler 7 when the event arrives: the
    pop returns and the one completion of the operation is posted. *)
Example event_arrived_posts :
  option_map (fun w : sample_World => (posted w, pending w))
    (worker_step event_arrived_world) =
  Some ([sample_completion 7%nat ec_success modified_a], []).
Proof. reflexivity. Qed.

(** Handler 7 is submitted and the service destroyed before the worker
    has taken the operation: in the end the worker has returned from
    [run], nothing is pending, nothing is posted, and nothing can move. *)
Example teardown_schedule_end :
  match @run_actions string sample_fs queue_impl nat
          teardown_schedule (@svc_init string queue_impl nat) with
  | Some s =>
      dtor s = S_gone /\ mAsyncMonitorThread (world s) = T_exited /\
      pending (world s) = [] /\ posted (world s) = [] /\ quiescent (world s)
  | None => False
  end.
Proof. cbn. repeat split. Qed.

(** The destructor of the service as one call is the three statements of
    the schedule, with the worker moving in between. *)
Example dtor_in_steps :
  option_map (fun s : sample_System => world s)
    (@run_actions string sample_fs queue_impl nat
       [act_release_work; act_stop; act_worker; act_teardown]
       (mk_sample_System [None] one_queued_destroyed [] [] S_alive)) =
  Some one_queued_torn_down.
Proof. reflexivity. Qed.

(** C5, as stated, fails: [/tmp/dangling] is a symlink whose target
    differs from the path, and [addFile] throws [InvalidPath] for it, not
    [UnresolvedSymlink]. *)
Lemma addFile_dangling_symlink_gets_InvalidPath :
  @is_symlink string sample_fs "/tmp/dangling" = Ok true /\
  @read_symlink string sample_fs "/tmp/dangling" = Ok "/tmp/gone" /\
  @path_ne string sample_fs "/tmp/gone" "/tmp/dangling" = true /\
  sample_addFile (Some 0%nat) "/tmp/dangling" constructed_world =
    Throw (InvalidPath "/tmp/dangling") constructed_world /\
  sample_addFile (Some 0%nat) "/tmp/dangling" constructed_world <>
    Throw (UnresolvedSymlink "/tmp/dangling") constructed_world.
Proof.
  split; [vm_compute; reflexivity|].
  split; [vm_compute; reflexivity|].
  split; [vm_compute; reflexivity|].
  assert (E : sample_addFile (Some 0%nat) "/tmp/dangling" constructed_world =
              Throw (InvalidPath "/tmp/dangling") constructed_world)
    by (vm_compute; reflexivity).
  split; [exact E|].
  rewrite E. intros H.
  apply (InvalidPath_ne_UnresolvedSymlink "/tmp/dangling" "/tmp/dangling").
  congruence.
Qed.

Lemma addFile_rejects_unresolved_symlink_to_regular_file_witness :
  sample_addFile (Some 0%nat) "/tmp/link_to_file" constructed_world =
    Throw (UnresolvedSymlink "/tmp/link_to_file") constructed_world /\
  (forall id w',
      sample_addFile (Some 0%nat) "/tmp/link_to_file" constructed_world <> Ret id w') /\
  (forall q id w',
      sample_addFile (Some 0%nat) q constructed_world = Ret id w' ->
      @accepted_file string sample_fs q /\ ~ @unresolved_symlink string sample_fs q).
Proof.
  apply (@addFile_rejects_unresolved_symlink_to_regular_file
           string sample_fs queue_impl nat (Some 0%nat)
           "/tmp/link_to_file" "/tmp/a.txt" constructed_world);
    vm_compute; reflexivity.
Defined.

Lemma monitor_is_one_backend_pop_witness :
  exists w' : sample_World,
    monitor (Some 0%nat) event_ready_world = Ret (modified_a, ec_success) w' /\
    trace w' = trace event_ready_world ++ [eff_call 0%nat call_popFrontEvent] /\
    heap w' =
      <[0%nat := sample_cell (mk_backend 2 [(1, "/tmp")] [] false) 1]>
        (heap event_ready_world) /\
    host w' = host event_ready_world /\
    invoked w' = invoked event_ready_world /\
    mAsyncMonitorIoService w' = mAsyncMonitorIoService event_ready_world /\
    mAsyncMonitorWork w' = mAsyncMonitorWork event_ready_world /\
    mAsyncMonitorThread w' = mAsyncMonitorThread event_ready_world.
Proof.
  exact (@monitor_is_one_backend_pop string queue_impl nat 0%nat
           (sample_cell (mk_backend 2 [(1, "/tmp")] [modified_a] false) 1)
           event_ready_world eq_refl).
Defined.


(** C3, as stated, fails: handler 7 is pending when [destroy] is issued;
    the service is then torn down before the worker has taken the
    operation from its queue. The system is quiescent and the handler has
    not been called. *)
Lemma destroy_then_teardown_skips_queued_handler :
  ~ @destroy_aborts_every_pending string queue_impl nat.
Proof.
  intros H.
  destruct (H 0%nat (sample_cell (mk_backend 1 [] [] false) 1)
              one_queued_world one_queued_destroyed one_queued_torn_down)
    as (cs & Hcs & HF).
  - reflexivity.
  - repeat constructor.
  - reflexivity.
  - apply rtc_once, step_dtor. reflexivity.
  - split; reflexivity.
  - unfold calls_since in Hcs. cbn in Hcs. subst cs. inversion HF.
Qed.

(** How the sample worlds come about, call by call. *)
Example constructed_world_reached :
  @construct string queue_impl nat None BasicFileMonitorService_ctor =
    Ret (Some 0%nat) constructed_world.
Proof. reflexivity. Qed.

Example one_queued_world_reached :
  asyncMonitor (Some 0%nat) 7%nat constructed_world = Ret tt one_queued_world.
Proof. reflexivity. Qed.

Example one_queued_destroyed_reached :
  destroy (Some 0%nat) one_queued_world = Ret None one_queued_destroyed.
Proof. reflexivity. Qed.

Example one_queued_torn_down_reached :
  BasicFileMonitorService_dtor one_queued_destroyed = Ret tt one_queued_torn_down.
Proof. reflexivity. Qed.

Example one_queued_torn_down_quiescent :
  quiescent one_queued_torn_down /\
  invoked one_queued_torn_down = [] /\
  ios_queue (host one_queued_torn_down) = [].
Proof. repeat split. Qed.

(** Without the teardown the worker does run the queued operation, which
    finds the backend gone and posts the abort. *)
Example one_queued_destroyed_worker_aborts :
  worker_step one_queued_destroyed =
    Some (aborted (sample_op (Some 0%nat) 7%nat)
            (set_ios (mk_io_service [] false) one_queued_destroyed)).
Proof. reflexivity. Qed.

Example blocked_world_reached :
  match asyncMonitor (Some 0%nat) 7%nat constructed_world with
  | Ret _ w1 =>
      match worker_step w1 with
      | Some w2 =>
          match asyncMonitor (Some 0%nat) 8%nat w2 with
          | Ret _ w3 => asyncMonitor (Some 0%nat) 9%nat w3
          | o => o
          end
      | None => Block w1
      end
  | o => o
  end = Ret tt blocked_world.
Proof. reflexivity. Qed.

Lemma addPath_returns_backend_handle_witness :
  sample_addPath (Some 0%nat) "/tmp" "*.txt" constructed_world =
    Ret 1 (sample_after_call 0%nat (call_addPath "/tmp" "*.txt")
                      (mk_backend 2 [(1, "/tmp")] [] false)
                      (sample_cell (mk_backend 1 [] [] false) 1)
                      constructed_world).
Proof.
  apply (proj2 (@addPath_returns_backend_handle string sample_fs queue_impl nat
                  (Some 0%nat) "/tmp" "*.txt" constructed_world _ _)).
  split; [vm_compute; reflexivity|].
  exists 0%nat, (sample_cell (mk_backend 1 [] [] false) 1).
  repeat split.
Defined.

Lemma addFile_returns_backend_handle_witness :
  sample_addFile (Some 0%nat) "/tmp/a.txt" constructed_world =
    Ret 1 (sample_after_call 0%nat (call_addFile "/tmp/a.txt")
                      (mk_backend 2 [(1, "/tmp/a.txt")] [] false)
                      (sample_cell (mk_backend 1 [] [] false) 1)
                      constructed_world).
Proof.
  apply (proj2 (@addFile_returns_backend_handle string sample_fs queue_impl nat
                  (Some 0%nat) "/tmp/a.txt" constructed_world _ _)).
  split.
  - split; [vm_compute; reflexivity | left; vm_compute; reflexivity].
  - exists 0%nat, (sample_cell (mk_backend 1 [] [] false) 1).
    repeat split.
Defined.

Lemma construct_makes_fresh_backend_witness :
  exists w' : sample_World,
    construct (Some 0%nat) constructed_world = Ret (Some 1%nat) w' /\
    alive constructed_world 1%nat = None /\
    alive w' 1%nat = Some (sample_cell (mk_backend 1 [] [] false) 1) /\
    heap w' !! 0%nat = Some (sample_cell (mk_backend 1 [] [] false) 0).
Proof.
  destruct (@construct_makes_fresh_backend string queue_impl nat
              (Some 0%nat) constructed_world)
    as (w' & Hc & Hn & Ha & _ & Hold & _).
  - intros l [= <-]. cbn. lia.
  - exists w'. split; [exact Hc|]. split; [exact Hn|]. split; [exact Ha|].
    exact (proj1 (Hold 0%nat (sample_cell (mk_backend 1 [] [] false) 1)
                       eq_refl eq_refl)).
Defined.

Lemma asyncMonitor_serves_in_order_witness :
  exists w1 w2 w3 : sample_World,
    asyncMonitor_all (Some 0%nat) [7%nat; 8%nat] two_events_world = Ret tt w1 /\
    worker_run 2 w1 = Some w2 /\
    host_run 2 w2 = Some w3 /\
    invoked w3 =
      [sample_completion 7%nat ec_success modified_a;
       sample_completion 8%nat ec_success added_b] /\
    pending w3 = [] /\ ios_queue (host w3) = [].
Proof.
  destruct (@asyncMonitor_serves_in_order string queue_impl nat
              0%nat (sample_cell (mk_backend 2 [(1, "/tmp")] [modified_a; added_b] false) 1)
              two_events_world [7%nat; 8%nat]
              [(ec_success, modified_a); (ec_success, added_b)]
              (mk_backend 2 [(1, "/tmp")] [] false))
    as (w1 & w2 & w3 & H1 & H2 & H3 & H4 & _ & _ & H5 & H6);
    [reflexivity | reflexivity | reflexivity | reflexivity |].
  exists w1, w2, w3.
  split; [exact H1|]. split; [exact H2|]. split; [exact H3|].
  split; [exact H4|]. split; [exact H5 | exact H6].
Defined.

Lemma asyncMonitor_without_backend_aborts_witness :
  exists w1 w2 w3 : sample_World,
    asyncMonitor (Some 0%nat) 7%nat destroyed_world = Ret tt w1 /\
    worker_step w1 = Some w2 /\
    host_run 1 w2 = Some w3 /\
    invoked w3 =
      [sample_completion 7%nat operation_aborted (mk_event 0 EmptyString kind_null)] /\
    heap w3 = heap destroyed_world /\ trace w3 = trace destroyed_world /\
    pending w3 = [] /\ ios_queue (host w3) = [].
Proof.
  apply (@asyncMonitor_without_backend_aborts string queue_impl nat
           (Some 0%nat) 7%nat destroyed_world); reflexivity.
Defined.

Lemma blocked_pop_stalls_the_queue_witness :
  worker_step blocked_world = None /\
  mAsyncMonitorThread blocked_world = T_blocked (sample_op (Some 0%nat) 7%nat) /\
  mAsyncMonitorIoService blocked_world = mAsyncMonitorIoService blocked_world /\
  heap blocked_world = heap blocked_world /\
  trace blocked_world = trace blocked_world /\
  invoked blocked_world ++ ios_queue (host blocked_world) =
    invoked blocked_world ++ ios_queue (host blocked_world).
Proof.
  apply (@blocked_pop_stalls_the_queue string queue_impl nat
           (sample_op (Some 0%nat) 7%nat) 0%nat
           (sample_cell (mk_backend 1 [] [] false) 2)
           blocked_world blocked_world);
    [reflexivity | reflexivity | reflexivity | reflexivity | apply rtc_refl].
Defined.

Lemma registration_failure_text_tells_path_and_test_witness :
  what (InvalidPath "/tmp/a.txt") <> what (UnresolvedSymlink "/tmp/link_to_file") /\
  (what (InvalidPath "/dev/null") = what (InvalidPath "/dev/null") <->
   @path_string string sample_fs "/dev/null" =
     @path_string string sample_fs "/dev/null" /\
   ((InvalidPath "/dev/null" = InvalidPath "/dev/null" /\
     InvalidPath "/dev/null" = InvalidPath "/dev/null") \/
    (InvalidPath "/dev/null" = UnresolvedSymlink "/dev/null" /\
     InvalidPath "/dev/null" = UnresolvedSymlink "/dev/null"))).
Proof.
  split.
  - destruct (@registration_failure_text_tells_path_and_test
                string sample_fs queue_impl nat (Some 0%nat) "/tmp/a.txt" "*.txt"
                "/tmp/link_to_file" constructed_world
                (InvalidPath "/tmp/a.txt") (UnresolvedSymlink "/tmp/link_to_file")
                constructed_world constructed_world)
      as (_ & _ & Hw & _).
    + left. vm_compute. reflexivity.
    + vm_compute. reflexivity.
    + reflexivity.
    + reflexivity.
    + reflexivity.
    + reflexivity.
    + intros H. destruct (Hw H) as [Hp _]. discriminate Hp.
  - destruct (@registration_failure_text_tells_path_and_test
                string sample_fs queue_impl nat (Some 0%nat) "/dev/null" "*.txt"
                "/dev/null" constructed_world
                (InvalidPath "/dev/null") (InvalidPath "/dev/null")
                constructed_world constructed_world)
      as (_ & _ & Hw).
    + left. vm_compute. reflexivity.
    + vm_compute. reflexivity.
    + reflexivity.
    + reflexivity.
    + reflexivity.
    + reflexivity.
    + exact Hw.
Defined.

Lemma worker_pops_a_live_backend_witness :
  exists l x,
    mImpl (sample_op (Some 0%nat) 7%nat) = Some l /\
    alive (world one_client_destroyed_blocked) l = Some x.
Proof.
  apply (@worker_pops_a_live_backend string sample_fs queue_impl nat
           one_client_destroyed_blocked (sample_op (Some 0%nat) 7%nat)).
  - exact one_client_destroyed_blocked_reachable.
  - reflexivity.
Defined.

Lemma backend_lives_while_referenced_witness :
  (exists x, alive (world one_client_destroyed_blocked) 0%nat = Some x) <->
  (Some 0%nat ∈ clients one_client_destroyed_blocked \/
   exists op,
     mAsyncMonitorThread (world one_client_destroyed_blocked) = T_blocked op /\
     mImpl op = Some 0%nat).
Proof.
  apply (@backend_lives_while_referenced string sample_fs queue_impl nat
           one_client_destroyed_blocked 0%nat).
  exact one_client_destroyed_blocked_reachable.
Defined.

Lemma destroy_deletes_backend_under_blocked_monitor_witness :
  exists s1 s2 : sample_System,
    @act string sample_fs queue_impl nat
      (act_destroy_call 0%nat) one_client_monitoring = Some s1 /\
    @act string sample_fs queue_impl nat
      (act_destroy_reset (length (destroying one_client_monitoring))) s1 =
      Some s2 /\
    clients s2 !! 0%nat = Some None /\
    alive (world s2) 0%nat = None /\
    eff_delete 0%nat ∈ trace (world s2) /\
    0%nat ∈ monitoring s2.
Proof.
  apply (@destroy_deletes_backend_under_blocked_monitor
           string sample_fs queue_impl nat
           one_client_monitoring 0%nat 0%nat).
  - exact one_client_monitoring_reachable.
  - reflexivity.
  - apply list_elem_of_singleton. reflexivity.
  - discriminate.
Defined.

Lemma worker_stays_until_the_destructor_witness :
  (dtor one_client_blocked = S_alive ->
   mAsyncMonitorWork (world one_client_blocked) = true /\
   ios_stopped (mAsyncMonitorIoService (world one_client_blocked)) = false /\
   mAsyncMonitorThread (world one_client_blocked) <> T_exited) /\
  (mAsyncMonitorThread (world one_client_blocked) = T_exited ->
   dtor one_client_blocked <> S_alive /\
   mAsyncMonitorWork (world one_client_blocked) = false) /\
  (ios_stopped (mAsyncMonitorIoService (world one_client_blocked)) = true ->
   dtor one_client_blocked <> S_alive /\
   mAsyncMonitorWork (world one_client_blocked) = false) /\
  (mAsyncMonitorThread (world one_client_blocked) = T_exited ->
   worker_step (world one_client_blocked) = None).
Proof.
  apply (@worker_stays_until_the_destructor string sample_fs queue_impl nat
           one_client_blocked).
  exact one_client_blocked_reachable.
Defined.

Lemma handlers_are_served_once_in_order_witness :
  map c_handler (invoked (world one_client_destroyed_blocked)) ++
  map c_handler (ios_queue (host (world one_client_destroyed_blocked))) ++
  map mHandler (pending (world one_client_destroyed_blocked)) =
  [7%nat; 8%nat; 9%nat].
Proof.
  apply (@handlers_are_served_once_in_order string sample_fs queue_impl nat
           destroyed_blocked_schedule one_client_destroyed_blocked).
  - reflexivity.
  - intros H. repeat (apply elem_of_cons in H as [H|H]; [discriminate H|]).
    inversion H.
Defined.
